(** * Thermal network solver of the City Energy Analyst: a shallow embedding

    The development follows
    [cea/technologies/thermal_network/thermal_network_matrix_edited.py].

    Numbers.  The program computes with float64.  Inside the hydraulic
    solver every quantity is finite (node demands go through
    [np.nan_to_num] first), and it is modelled with exact rationals [Q]:
    rounding errors of the floating point unit are outside the model, the
    explicit rounding [np.round(_, decimals=5)] is inside it.  The thermal
    code writes and tests [np.nan] itself, so it is modelled over [float],
    rationals extended with the IEEE special values.

    A division by zero raises nothing in numpy: over [float] it gives an
    infinity or [NaN] as numpy does; over [Q] it gives 0, and no statement
    below depends on that value.

    Data frames are lists: a matrix is the list of its rows, the edge-node
    matrix has one row per node and one column per edge, with entries in
    [Z]; rows and columns are taken by position, node and pipe names being
    distinct.  Exceptions and loops that may not end are explicit in the
    type [result].  Of what the program prints, the warnings are kept in a
    log; progress messages are left out. *)

From Stdlib Require Import String.
From Stdlib Require Import List ZArith QArith Qabs Qround Lia Lqa Bool.
Import ListNotations.
Open Scope Q_scope.

(* ================================================================== *)
(** * Part I: the program *)
(* ================================================================== *)

(** ** Outcomes of a call *)

Inductive exn : Type :=
| LinAlgError | IndexError | KeyError | ValueError | TypeError.

Inductive result (A : Type) : Type :=
| Ok (a : A)          (* the call returns [a] *)
| Raise (e : exn)     (* the call raises *)
| Diverge.            (* the loop budget of the model is used up *)

Arguments Ok {A} a.
Arguments Raise {A} e.
Arguments Diverge {A}.

Definition bind {A B} (r : result A) (k : A -> result B) : result B :=
  match r with
  | Ok a => k a
  | Raise e => Raise e
  | Diverge => Diverge
  end.

Notation "'do' x <- r ; k" := (bind r (fun x => k))
  (at level 10, x pattern, r at level 100, k at level 200).

Definition of_option {A} (e : exn) (o : option A) : result A :=
  match o with Some a => Ok a | None => Raise e end.

(** ** Vectors and matrices *)

Definition vector := list Q.
Definition matrix := list (list Z).   (* edge-node matrix: rows are nodes *)

Fixpoint dot (u v : list Q) : Q :=
  match u, v with
  | a :: u', x :: v' => a * x + dot u' v'
  | _, _ => 0
  end.

Definition row_Q (r : list Z) : list Q := map inject_Z r.

(** [A.dot(m)] *)
Definition mat_vec (A : matrix) (m : vector) : vector :=
  map (fun r => dot (row_Q r) m) A.

Fixpoint Qsum (l : list Q) : Q :=
  match l with
  | [] => 0
  | x :: l' => x + Qsum l'
  end.

Fixpoint zip_with {A B C} (f : A -> B -> C) (u : list A) (v : list B) : list C :=
  match u, v with
  | a :: u', b :: v' => f a b :: zip_with f u' v'
  | _, _ => []
  end.

(** [np.delete(b, i)] and [df.drop(df.index[i])] *)
Fixpoint delete {A} (i : nat) (l : list A) : list A :=
  match l, i with
  | [], _ => []
  | _ :: l', O => l'
  | x :: l', S i' => x :: delete i' l'
  end.

(** Python's builtin [max] over a sequence: raises on an empty one. *)
Fixpoint Qmax_list (l : list Q) : option Q :=
  match l with
  | [] => None
  | x :: l' => match Qmax_list l' with
               | None => Some x
               | Some y => Some (if Qle_bool y x then x else y)
               end
  end.

Definition py_max (l : list Q) : result Q := of_option ValueError (Qmax_list l).

(** ** [np.round(_, decimals=5)]

    numpy multiplies by [10^5], rounds to the nearest integer with ties
    going to the even one ([np.rint]), and divides again. *)

Definition rint (x : Q) : Z :=
  let f := Qfloor x in
  let r := x - inject_Z f in
  if Qle_bool r (1 # 2)
  then if Qeq_bool r (1 # 2) then (if Z.even f then f else f + 1)%Z else f
  else (f + 1)%Z.

Definition np_round5 (x : Q) : Q := inject_Z (rint (x * 100000)) / 100000.

(** ** [np.linalg.solve]

    LAPACK's LU solve in exact arithmetic: eliminate the first unknown with
    a row whose leading coefficient is not zero, solve the smaller system,
    substitute back.  A system that is not square or has no pivot raises
    [LinAlgError]. *)

Definition equation : Type := (list Q * Q)%type.   (* coefficients, right-hand side *)

Definition lead (r : equation) : Q := hd 0 (fst r).

(** first row with a non-zero leading coefficient, and the other rows *)
Fixpoint pick_pivot (rows : list equation) : option (equation * list equation) :=
  match rows with
  | [] => None
  | r :: rows' =>
      if Qeq_bool (lead r) 0
      then match pick_pivot rows' with
           | None => None
           | Some (p, others) => Some (p, r :: others)
           end
      else Some (r, rows')
  end.

(** [r - f * p], with the first column dropped *)
Definition reduce_row (p : equation) (r : equation) : equation :=
  let f := lead r / lead p in
  (zip_with (fun c d => c - f * d) (tl (fst r)) (tl (fst p)), snd r - f * snd p).

Fixpoint eliminate (n : nat) (rows : list equation) : option (list Q) :=
  match n with
  | O => Some []
  | S n' =>
      match pick_pivot rows with
      | None => None
      | Some (p, others) =>
          match eliminate n' (map (reduce_row p) others) with
          | None => None
          | Some xs => Some ((snd p - dot (tl (fst p)) xs) / lead p :: xs)
          end
      end
  end.

Definition is_square (A : list (list Q)) : bool :=
  forallb (fun r => Nat.eqb (length r) (length A)) A.

Definition linalg_solve (A : list (list Q)) (b : list Q) : result (list Q) :=
  if is_square A
  then if Nat.eqb (length b) (length A)
       then of_option LinAlgError (eliminate (length A) (combine A b))
       else Raise ValueError
  else Raise LinAlgError.

(** ** float64 values the program tests explicitly

    [NaN] and the infinities are values of their own; finite values are
    exact rationals.  Signed zeros and overflow are outside the model. *)

Inductive float : Type :=
| Fin (q : Q)
| PInf
| NInf
| NaN.

(** largest finite float64, what [np.nan_to_num] puts for an infinity *)
Definition max_float : Q := inject_Z ((2 ^ 53 - 1) * 2 ^ 971).

Definition nan_to_num (x : float) : Q :=
  match x with
  | Fin q => q
  | NaN => 0
  | PInf => max_float
  | NInf => - max_float
  end.

(** ** What the module takes from outside

    networkx, LAPACK's least squares, the transcendental functions of
    [math] and numpy, and the constants of [cea.globalvar] are parameters
    of the model. *)

Definition graph : Type := list (nat * nat * nat).   (* u, v, edge_number *)

Record externals : Type := {
  cycle_basis : graph -> list (list nat);   (* nx.cycle_basis(graph, 0) *)
  linalg_lstsq : list (list Q) -> list Q -> list Q;   (* np.linalg.lstsq(A, b)[0] *)
  math_pi : Q;
  math_exp : Q -> Q;            (* math.e ** x *)
  power : Q -> Q -> Q;          (* x ** y *)
  np_log : Q -> Q;
  rho_60 : Q;                   (* gv.rho_60 *)
  roughness : Q;                (* gv.roughness *)
  cp : Q                        (* gv.cp *)
}.

(** ** The node table [all_nodes_df] *)

Record node : Type := {
  Name : string;        (* the index *)
  Building : string;
  Type_ : string        (* 'PLANT', 'CONSUMER' or 'NONE' *)
}.

Definition is_type (t : string) (n : node) : bool := String.eqb (Type_ n) t.

Fixpoint find_index {A} (f : A -> bool) (l : list A) : option nat :=
  match l with
  | [] => None
  | x :: l' => if f x then Some O
               else match find_index f l' with
                    | Some i => Some (S i)
                    | None => None
                    end
  end.

(** [np.where(all_nodes_df['Type'] == 'PLANT')[0][0]] *)
Definition first_plant (all_nodes_df : list node) : result nat :=
  of_option IndexError (find_index (is_type "PLANT") all_nodes_df).

(** ** Shapes and entries of the edge-node matrix *)

Definition n_edges (A : matrix) : nat :=
  match A with [] => O | r :: _ => length r end.

Definition column (A : matrix) (j : nat) : list Z :=
  map (fun r => nth j r 0%Z) A.

(** [edge_node_df.iloc[i][j]] *)
Definition entry (A : matrix) (i j : nat) : result Z :=
  match nth_error A i with
  | None => Raise IndexError
  | Some r => of_option IndexError (nth_error r j)
  end.

(** [v[i]] and [v[i] = x] on an array *)
Definition get (v : vector) (i : nat) : result Q :=
  of_option IndexError (nth_error v i).

Fixpoint set_nth (v : vector) (i : nat) (x : Q) : result vector :=
  match v, i with
  | [], _ => Raise IndexError
  | _ :: v', O => Ok (x :: v')
  | y :: v', S i' => do w <- set_nth v' i' x; Ok (y :: w)
  end.

(** ** [find_loops] *)

(** the last row index holding [z] in a column, 0 when there is none *)
Definition last_index_of (z : Z) (col : list Z) : nat :=
  snd (fold_left (fun (st : nat * nat) x =>
                    (S (fst st), if Z.eqb x z then fst st else snd st))
                 col (O, O)).

Definition build_graph (edge_node_df : matrix) : graph :=
  map (fun i => (last_index_of 1 (column edge_node_df i),
                 last_index_of (-1) (column edge_node_df i), i))
      (seq 0 (n_edges edge_node_df)).

Definition find_loops (ext : externals) (edge_node_df : matrix)
  : list (list nat) * graph :=
  let g := build_graph edge_node_df in (cycle_basis ext g, g).

(** [graph.get_edge_data(u, v)['edge_number']]: the graph is undirected and
    a later [add_edge] on the same pair overwrites the attribute. *)
Definition get_edge_data (g : graph) (u v : nat) : option nat :=
  fold_left (fun acc (e : nat * nat * nat) =>
               let '(a, b, i) := e in
               if (Nat.eqb a u && Nat.eqb b v) || (Nat.eqb a v && Nat.eqb b u)
               then Some i else acc)
            g None.

(** ** Pressure loss of a pipe *)

Definition calc_kinematic_viscosity (ext : externals) (temperature : Q) : Q :=
  (2652623 # 100000000000000) * math_exp ext (557.5447 * / (temperature - 140)).

Definition calc_reynolds (ext : externals) (m t d : Q) : Q :=
  4 * (Qabs m / rho_60 ext) / (math_pi ext * calc_kinematic_viscosity ext t * d).

Definition calc_darcy (ext : externals) (d reynolds : Q) : Q :=
  if Qle_bool reynolds 1 then 0
  else if Qle_bool reynolds 2300 then 64 / reynolds
  else if Qle_bool reynolds 5000 then 0.316 * power ext reynolds (-0.25)
  else 1.325 * power ext (np_log ext (roughness ext / (3.7 * d)
                                       + 5.74 / power ext reynolds 0.9)) (-2).

Definition pressure_loss_edge (ext : externals) (loop_type : nat) (d l m t : Q) : Q :=
  let darcy := calc_darcy ext d (calc_reynolds ext m t d) in
  if Nat.eqb loop_type 1
  then darcy * 16 * m * l / (math_pi ext ^ 2 * d ^ 5 * rho_60 ext)
  else darcy * 8 * m ^ 2 * l / (math_pi ext ^ 2 * d ^ 5 * rho_60 ext).

(** elementwise over the edges *)
Fixpoint calc_pressure_loss_pipe (ext : externals) (pipe_diameter_m pipe_length_m
    mass_flow_rate_kgs t_edge__k : vector) (loop_type : nat) : vector :=
  match pipe_diameter_m, pipe_length_m, mass_flow_rate_kgs, t_edge__k with
  | d :: ds, l :: ls, m :: ms, t :: ts =>
      pressure_loss_edge ext loop_type d l m t
        :: calc_pressure_loss_pipe ext ds ls ms ts loop_type
  | _, _, _, _ => []
  end.

(** ** What the program prints *)

Inductive message : Type :=
| NoConvergence (iterations : nat) (remaining : Q)
    (* 'No convergence of looped massflows after ...' *)
| MassFlowDeviation (deviation : Q)
    (* 'Error in the defined mass flows, deviation of ... from node demands.' *)
| LoopPressureDeviation (deviation : Q)
    (* 'Error in the defined mass flows, deviation of ... from 0 pressure in loop.' *)
| BiggerPipeRequired (pipe : nat)
    (* '... requires a bigger pipe than provided in the database.' *)
| CannotFulfill (iteration : nat).
    (* 'cannot fulfill substation supply node temperature requirement ...' *)

(** ** [calc_mass_flow_edges]: the loop correction *)

Definition Qsign (x : Q) : Q := inject_Z (Z.sgn (Qnum x)).

Definition Qlt_bool (x y : Q) : bool := negb (Qle_bool y x).

(** [(abs(u - v) > tolerance).any()] *)
Definition any_above (tolerance : Q) (u v : vector) : bool :=
  existsb (fun d => Qlt_bool tolerance (Qabs d)) (zip_with Qminus u v).

(** the edge joining [loops[i][j]] to the next node of the loop, and its
    sign in the loop *)
Definition loop_edge (A : matrix) (g : graph) (first u : nat) (rest : list nat)
  : result (nat * Q) :=
  let value := match rest with [] => first | v :: _ => v end in
  do e <- of_option TypeError (get_edge_data g u value);
  do x <- entry A u e;
  do y <- entry A value e;
  Ok (e, if Z.eqb x 1 && Z.eqb y (-1) then 1 else -1).

Fixpoint sum_loop (A : matrix) (g : graph) (delta_m_num delta_m_den : vector)
    (first : nat) (loop : list nat) (acc : Q * Q) : result (Q * Q) :=
  match loop with
  | [] => Ok acc
  | u :: rest =>
      do ec <- loop_edge A g first u rest;
      do n <- get delta_m_num (fst ec);
      do d <- get delta_m_den (fst ec);
      sum_loop A g delta_m_num delta_m_den first rest
               (fst acc + n * snd ec, snd acc + d)
  end.

Fixpoint apply_loop (A : matrix) (g : graph) (delta_m : Q)
    (first : nat) (loop : list nat) (mass_flow_edge : vector) : result vector :=
  match loop with
  | [] => Ok mass_flow_edge
  | u :: rest =>
      do ec <- loop_edge A g first u rest;
      do x <- get mass_flow_edge (fst ec);
      do m <- set_nth mass_flow_edge (fst ec) (x + delta_m * snd ec);
      apply_loop A g delta_m first rest m
  end.

(** the body of [for i in range(len(loops))]: flows and [sum_delta_m_num] *)
Fixpoint correct_loops (A : matrix) (g : graph) (delta_m_num delta_m_den : vector)
    (loops : list (list nat)) (mass_flow_edge : vector)
  : result (vector * list Q) :=
  match loops with
  | [] => Ok (mass_flow_edge, [])
  | loop :: loops' =>
      let first := hd O loop in
      do s <- sum_loop A g delta_m_num delta_m_den first loop (0, 0);
      let delta_m := - fst s / snd s in
      do m <- apply_loop A g delta_m first loop mass_flow_edge;
      do r <- correct_loops A g delta_m_num delta_m_den loops' m;
      Ok (fst r, fst s :: snd r)
  end.

(** the variables of the [while] loop when it is left *)
Record hardy_cross_state : Type := {
  hc_mass_flow_edge : vector;
  hc_m_old : vector;
  hc_sum_delta_m_num : list Q;
  hc_tolerance : Q;
  hc_iterations : nat;
  hc_log : list message
}.

(** the flows before the final rounding, and what was printed *)
Record solved_flow : Type := {
  sf_mass_flow_edge : vector;
  sf_sum_delta_m_num : list Q;
  sf_log : list message
}.

(** one pass of the corrections over all loops, from [m_old] *)
Definition hardy_cross_pass (ext : externals) (A : matrix) (g : graph)
    (loops : list (list nat)) (pipe_diameter_m pipe_length_m T_edge_K : vector)
    (mass_flow_edge : vector) : result (vector * list Q) :=
  let m_old := mass_flow_edge in
  let delta_m_num :=
    zip_with Qmult
      (calc_pressure_loss_pipe ext pipe_diameter_m pipe_length_m m_old T_edge_K 2)
      (map Qsign m_old) in
  let delta_m_den :=
    map Qabs
      (calc_pressure_loss_pipe ext pipe_diameter_m pipe_length_m m_old T_edge_K 1) in
  correct_loops A g delta_m_num delta_m_den loops mass_flow_edge.

(** the [while] loop; [budget] bounds the iterations of the model *)
Fixpoint hardy_cross (ext : externals) (A : matrix) (g : graph)
    (loops : list (list nat)) (pipe_diameter_m pipe_length_m T_edge_K : vector)
    (budget : nat) (mass_flow_edge m_old : vector) (sums : list Q)
    (tolerance : Q) (iterations : nat) : result hardy_cross_state :=
  if any_above tolerance mass_flow_edge m_old then
    match budget with
    | O => Diverge
    | S budget' =>
        let m_old := mass_flow_edge in
        do r <- hardy_cross_pass ext A g loops pipe_diameter_m pipe_length_m
                                 T_edge_K mass_flow_edge;
        let mass_flow_edge := fst r in
        let iterations := S iterations in
        let continue := hardy_cross ext A g loops pipe_diameter_m pipe_length_m
                                    T_edge_K budget' mass_flow_edge m_old (snd r) in
        if Nat.ltb iterations 20 then continue 0.01 iterations
        else if Nat.ltb iterations 50 then continue 0.02 iterations
        else if Nat.ltb iterations 100 then continue 0.03 iterations
        else
          do remaining <- py_max (map Qabs (zip_with Qminus mass_flow_edge m_old));
          Ok {| hc_mass_flow_edge := mass_flow_edge;
                hc_m_old := m_old;
                hc_sum_delta_m_num := snd r;
                hc_tolerance := tolerance;
                hc_iterations := iterations;
                hc_log := [NoConvergence iterations remaining] |}
    end
  else Ok {| hc_mass_flow_edge := mass_flow_edge;
             hc_m_old := m_old;
             hc_sum_delta_m_num := sums;
             hc_tolerance := tolerance;
             hc_iterations := iterations;
             hc_log := [] |}.

(** ** [calc_mass_flow_edges] *)

(** the reduced system: the first plant's row and demand are dropped *)
Definition reduced_matrix (plant_index : nat) (edge_node_df : matrix) : matrix :=
  delete plant_index edge_node_df.

Definition reduced_demand (plant_index : nat) (mass_flow_substation_df : list float)
  : vector :=
  delete plant_index (map nan_to_num mass_flow_substation_df).

(** the flows before the final rounding, with what is printed on the way *)
Definition solve_mass_flow (ext : externals) (edge_node_df : matrix)
    (mass_flow_substation_df : list float) (all_nodes_df : list node)
    (pipe_diameter_m pipe_length_m T_edge_K : vector)
  : result solved_flow :=
  let '(loops, g) := find_loops ext edge_node_df in
  match loops with
  | _ :: _ =>
      do plant_index <- first_plant all_nodes_df;
      let A := reduced_matrix plant_index edge_node_df in
      let b_init := reduced_demand plant_index mass_flow_substation_df in
      let mass_flow_edge := linalg_lstsq ext (map row_Q A) b_init in
      let m_old := zip_with Qminus mass_flow_edge mass_flow_edge in
      do st <- hardy_cross ext edge_node_df g loops pipe_diameter_m pipe_length_m
                 T_edge_K 100 mass_flow_edge m_old (map (fun _ => 0) loops)
                 0.01 O;
      Ok {| sf_mass_flow_edge := hc_mass_flow_edge st;
            sf_sum_delta_m_num := hc_sum_delta_m_num st;
            sf_log := hc_log st |}
  | [] =>
      do plant_index <- first_plant all_nodes_df;
      let A := reduced_matrix plant_index edge_node_df in
      let b := reduced_demand plant_index mass_flow_substation_df in
      do mass_flow_edge <- linalg_solve (map row_Q A) b;
      Ok {| sf_mass_flow_edge := mass_flow_edge;
            sf_sum_delta_m_num := [];
            sf_log := [] |}
  end.

(** '# verify calculated solution' *)
Definition verify_mass_flow (ext : externals) (edge_node_df : matrix)
    (mass_flow_substation_df : list float) (all_nodes_df : list node)
    (st : solved_flow) : result (list message) :=
  do plant_index <- first_plant all_nodes_df;
  let A := reduced_matrix plant_index edge_node_df in
  let b_verification := mat_vec A (sf_mass_flow_edge st) in
  let b_original := reduced_demand plant_index mass_flow_substation_df in
  do deviation <- py_max (map Qabs (zip_with Qminus b_original b_verification));
  let log1 := if Qlt_bool 0.01 deviation then [MassFlowDeviation deviation] else [] in
  match fst (find_loops ext edge_node_df) with
  | _ :: _ =>
      if existsb (fun x => Qlt_bool 5000 (Qabs x)) (sf_sum_delta_m_num st)
      then do worst <- py_max (map Qabs (sf_sum_delta_m_num st));
           Ok (log1 ++ [LoopPressureDeviation worst])
      else Ok log1
  | [] => Ok log1
  end.

Definition calc_mass_flow_edges_log (ext : externals) (edge_node_df : matrix)
    (mass_flow_substation_df : list float) (all_nodes_df : list node)
    (pipe_diameter_m pipe_length_m T_edge_K : vector)
  : result (vector * list message) :=
  do st <- solve_mass_flow ext edge_node_df mass_flow_substation_df all_nodes_df
                           pipe_diameter_m pipe_length_m T_edge_K;
  do log <- verify_mass_flow ext edge_node_df mass_flow_substation_df
                             all_nodes_df st;
  Ok (map np_round5 (sf_mass_flow_edge st), sf_log st ++ log).

(** the value returned *)
Definition calc_mass_flow_edges (ext : externals) (edge_node_df : matrix)
    (mass_flow_substation_df : list float) (all_nodes_df : list node)
    (pipe_diameter_m pipe_length_m T_edge_K : vector) : result vector :=
  do r <- calc_mass_flow_edges_log ext edge_node_df mass_flow_substation_df
                                   all_nodes_df pipe_diameter_m pipe_length_m
                                   T_edge_K;
  Ok (fst r).

(** ** [change_to_edge_node_matrix_t] *)

(** [edge_mass_flow.min()] raises on an empty array *)
Fixpoint Qmin_list (l : list Q) : option Q :=
  match l with
  | [] => None
  | x :: l' => match Qmin_list l' with
               | None => Some x
               | Some y => Some (if Qle_bool x y then x else y)
               end
  end.

(** the columns of the edges with a negative flow change sign *)
Fixpoint flip_row (edge_mass_flow : vector) (row : list Z) : list Z :=
  match edge_mass_flow, row with
  | m :: ms, x :: row' => (if Qlt_bool m 0 then (- x)%Z else x) :: flip_row ms row'
  | _, _ => row
  end.

Definition flip_columns (edge_mass_flow : vector) (edge_node_df : matrix) : matrix :=
  map (flip_row edge_mass_flow) edge_node_df.

(** the [for] loop: a negative flow at a position that is no column raises *)
Definition flip_negative (edge_mass_flow : vector) (edge_node_df : matrix)
  : result matrix :=
  if existsb (fun m => Qlt_bool m 0) (skipn (n_edges edge_node_df) edge_mass_flow)
  then Raise IndexError
  else Ok (flip_columns edge_mass_flow edge_node_df).

Fixpoint flip_until_positive (ext : externals) (budget : nat)
    (edge_mass_flow : vector) (edge_node_df : matrix)
    (mass_flow_substations_nodes_df : list float) (all_nodes_df : list node)
    (pipe_diameter_m pipe_length_m t_edge__k : vector)
  : result (vector * matrix) :=
  do lowest <- of_option ValueError (Qmin_list edge_mass_flow);
  if Qlt_bool lowest 0 then
    match budget with
    | O => Diverge
    | S budget' =>
        do flipped <- flip_negative edge_mass_flow edge_node_df;
        do resolved <- calc_mass_flow_edges ext flipped
                         mass_flow_substations_nodes_df all_nodes_df
                         pipe_diameter_m pipe_length_m t_edge__k;
        flip_until_positive ext budget' resolved flipped
          mass_flow_substations_nodes_df all_nodes_df
          pipe_diameter_m pipe_length_m t_edge__k
    end
  else Ok (edge_mass_flow, edge_node_df).

Definition change_to_edge_node_matrix_t (ext : externals) (budget : nat)
    (edge_mass_flow : vector) (edge_node_df : matrix)
    (mass_flow_substations_nodes_df : list float) (all_nodes_df : list node)
    (pipe_diameter_m pipe_length_m t_edge__k : vector)
  : result (vector * matrix) :=
  flip_until_positive ext budget (map np_round5 edge_mass_flow) edge_node_df
    mass_flow_substations_nodes_df all_nodes_df
    pipe_diameter_m pipe_length_m t_edge__k.

(** ** [write_substation_values_to_nodes_df] *)

(** a data frame of one row: a value for each column name *)
Definition frame : Type := list (string * Q).

(** [df_value[name]] *)
Fixpoint lookup (name : string) (df : frame) : result Q :=
  match df with
  | [] => Raise KeyError
  | (n, x) :: df' => if String.eqb n name then Ok x else lookup name df'
  end.

Fixpoint map_result {A B} (f : A -> result B) (l : list A) : result (list B) :=
  match l with
  | [] => Ok []
  | a :: l' => do b <- f a; do bs <- map_result f l'; Ok (b :: bs)
  end.

(** [sum(all_nodes_df['Type'] == 'PLANT')] *)
Definition number_of_plants (all_nodes_df : list node) : nat :=
  length (filter (is_type "PLANT") all_nodes_df).

(** [all_nodes_df.loc[all_nodes_df['Type'] == 'CONSUMER', 'Building'].values] *)
Definition consumer_list (all_nodes_df : list node) : list string :=
  map Building (filter (is_type "CONSUMER") all_nodes_df).

(** [df_value[names].loc[0].sum()] *)
Fixpoint sum_columns (df_value : frame) (names : list string) : result Q :=
  match names with
  | [] => Ok 0
  | n :: names' =>
      do x <- lookup n df_value;
      do t <- sum_columns df_value names';
      Ok (x + t)
  end.

Definition node_value (df_value : frame) (plant_mass_flow : Q) (row : node)
  : result Q :=
  if is_type "CONSUMER" row then lookup (Building row) df_value
  else if is_type "PLANT" row then Ok (- plant_mass_flow)
  else Ok 0.

Definition write_substation_values_to_nodes_df (all_nodes_df : list node)
    (df_value : frame) : result vector :=
  do total <- sum_columns df_value (consumer_list all_nodes_df);
  let plant_mass_flow :=
    total / inject_Z (Z.of_nat (number_of_plants all_nodes_df)) in
  map_result (node_value df_value plant_mass_flow) all_nodes_df.

(** ** [assign_pipes_to_edges] *)

(** a row of the piping catalog, with the two columns the function adds *)
Record pipe : Type := {
  Pipe_DN : string;
  D_ext_m : Q;
  D_int_m : Q;
  D_ins_m : Q;
  Vdot_min_m3s : Q;
  Vdot_max_m3s : Q;
  mdot_min_kgs : Q;
  mdot_max_kgs : Q
}.

(** [pipe_catalog['mdot_min_kgs'] = pipe_catalog['Vdot_min_m3s'] * gv.rho_60],
    and the same for the maximum *)
Definition with_mass_flows (ext : externals) (p : pipe) : pipe :=
  {| Pipe_DN := Pipe_DN p; D_ext_m := D_ext_m p; D_int_m := D_int_m p;
     D_ins_m := D_ins_m p;
     Vdot_min_m3s := Vdot_min_m3s p; Vdot_max_m3s := Vdot_max_m3s p;
     mdot_min_kgs := Vdot_min_m3s p * rho_60 ext;
     mdot_max_kgs := Vdot_max_m3s p * rho_60 ext |}.

(** [np.amax(np.absolute(values))] *)
Definition amax_abs (values : vector) : result Q := py_max (map Qabs values).

(** the [while pipe_found == False] loop over [i]: the record assigned and
    whether the warning is printed; an empty catalog has no row 0 *)
Fixpoint find_pipe (max_flow : Q) (pipe_catalog : list pipe)
  : result (pipe * bool) :=
  match pipe_catalog with
  | [] => Raise KeyError
  | p :: rest =>
      if Qle_bool max_flow (mdot_max_kgs p) then Ok (p, false)
      else match rest with
           | [] => Ok (p, true)
           | _ :: _ => find_pipe max_flow rest
           end
  end.

(** the [for pipe in mass_flow_df] loop, [pipe] counted from [i] *)
Fixpoint size_pipes (pipe_catalog : list pipe) (i : nat)
    (mass_flow_df : list vector) : result (list pipe * list message) :=
  match mass_flow_df with
  | [] => Ok ([], [])
  | values :: rest =>
      do max_flow <- amax_abs values;
      do found <- find_pipe max_flow pipe_catalog;
      do r <- size_pipes pipe_catalog (S i) rest;
      Ok (fst found :: fst r,
          (if snd found then [BiggerPipeRequired i] else []) ++ snd r)
  end.

(** [set_diameter] false: the diameters of [edge_df['Pipe_DN']] are looked
    up; none or several rows of the catalog for one diameter raise *)
Definition lookup_pipe (pipe_catalog : list pipe) (dn : string) : result pipe :=
  match filter (fun p => String.eqb (Pipe_DN p) dn) pipe_catalog with
  | [p] => Ok p
  | _ => Raise ValueError
  end.

Definition assign_pipes_to_edges (ext : externals) (mass_flow_df : list vector)
    (set_diameter : bool) (edge_df_Pipe_DN : list string) (catalog : list pipe)
  : result (list pipe * list message) :=
  let pipe_catalog := map (with_mass_flows ext) catalog in
  if set_diameter
  then size_pipes pipe_catalog O mass_flow_df
  else do props <- map_result (lookup_pipe pipe_catalog) edge_df_Pipe_DN;
       Ok (props, []).

(** ** The edge-node matrix from the topology files *)

(** a row of the edge table: [NODE1]/[NODE2] in the csv files,
    ['start node']/['end node'] from the shapefiles *)
Record edge : Type := {
  start_node : string;
  end_node : string
}.

Definition incidence (node_name : string) (e : edge) : Z :=
  if String.eqb (end_node e) node_name then 1
  else if String.eqb (start_node e) node_name then -1
  else 0.

(** the two nested [for] loops over [np.zeros((len(list_nodes), len(list_edges)))] *)
Definition edge_node_matrix (list_nodes : list string) (edges : list edge)
  : matrix :=
  map (fun n => map (incidence n) edges) list_nodes.

(** a row of the node table of the csv files *)
Record csv_node : Type := {
  DC_ID : string;
  Plant : Z;
  Sink : Z;
  csv_Name : string
}.

(** [k * s] on a Python string *)
Fixpoint str_repeat (k : nat) (s : string) : string :=
  match k with
  | O => EmptyString
  | S k' => append s (str_repeat k' s)
  end.

Definition str_mul (k : Z) (s : string) : string := str_repeat (Z.to_nat k) s.

Definition csv_all_nodes (node_df : list csv_node) : list node :=
  map (fun r =>
         let consumer := str_mul (Sink r) (csv_Name r) in
         let plant := str_mul (Plant r) (csv_Name r) in
         if negb (String.eqb consumer "")
         then {| Name := DC_ID r; Building := consumer; Type_ := "CONSUMER" |}
         else if negb (String.eqb plant "")
         then {| Name := DC_ID r; Building := plant; Type_ := "PLANT" |}
         else {| Name := DC_ID r; Building := "NONE"; Type_ := "NONE" |})
      node_df.

(** the tables are taken with their rows in the order of their numbers *)
Definition get_thermal_network_from_csv (node_df : list csv_node)
    (edge_df : list edge) : result (matrix * list node * list edge) :=
  Ok (edge_node_matrix (map DC_ID node_df) edge_df,
      csv_all_nodes node_df, edge_df).

(** [df.Name.duplicated(keep=False)] *)
Definition duplicated (names : list string) : list string :=
  filter (fun n => Nat.ltb 1 (count_occ string_dec names n)) names.

(** [get_thermal_network_from_shapefile] up to '# create first edge-node
    matrix': the names are checked for duplicates, the edges come from
    [extract_network_from_shapefile], with an empty name for an end that
    matches no node *)
Definition first_edge_node_matrix (node_names edge_names : list string)
    (edge_df : list edge) : result matrix :=
  match duplicated node_names with
  | _ :: _ => Raise ValueError
  | [] =>
      match duplicated edge_names with
      | _ :: _ => Raise ValueError
      | [] => Ok (edge_node_matrix node_names edge_df)
      end
  end.

(** ** Arithmetic of float64 values *)

Definition fneg (x : float) : float :=
  match x with
  | Fin q => Fin (- q)
  | PInf => NInf
  | NInf => PInf
  | NaN => NaN
  end.

Definition fadd (x y : float) : float :=
  match x, y with
  | NaN, _ | _, NaN => NaN
  | Fin a, Fin b => Fin (a + b)
  | PInf, NInf | NInf, PInf => NaN
  | PInf, _ | _, PInf => PInf
  | NInf, _ | _, NInf => NInf
  end.

Definition fsub (x y : float) : float := fadd x (fneg y).

(** an infinity with the sign of [a], [NaN] for [a = 0] *)
Definition signed_inf (positive : bool) (a : Q) : float :=
  match a ?= 0 with
  | Eq => NaN
  | Gt => if positive then PInf else NInf
  | Lt => if positive then NInf else PInf
  end.

Definition fmul (x y : float) : float :=
  match x, y with
  | NaN, _ | _, NaN => NaN
  | Fin a, Fin b => Fin (a * b)
  | Fin a, PInf | PInf, Fin a => signed_inf true a
  | Fin a, NInf | NInf, Fin a => signed_inf false a
  | PInf, PInf | NInf, NInf => PInf
  | PInf, NInf | NInf, PInf => NInf
  end.

(** numpy divides by zero without raising: the quotient is an infinity, or
    [NaN] for 0/0 *)
Definition fdiv (x y : float) : float :=
  match x, y with
  | NaN, _ | _, NaN => NaN
  | Fin a, Fin b => if Qeq_bool b 0 then signed_inf true a else Fin (a / b)
  | Fin _, PInf | Fin _, NInf => Fin 0
  | PInf, Fin b => if Qlt_bool b 0 then NInf else PInf
  | NInf, Fin b => if Qlt_bool b 0 then PInf else NInf
  | _, _ => NaN
  end.

Definition fabs (x : float) : float :=
  match x with
  | Fin q => Fin (Qabs q)
  | PInf | NInf => PInf
  | NaN => NaN
  end.

(** comparisons: any comparison with [NaN] but [!=] is false *)
Definition fltb (x y : float) : bool :=
  match x, y with
  | Fin a, Fin b => Qlt_bool a b
  | NInf, Fin _ | NInf, PInf | Fin _, PInf => true
  | _, _ => false
  end.

Definition feqb (x y : float) : bool :=
  match x, y with
  | Fin a, Fin b => Qeq_bool a b
  | PInf, PInf | NInf, NInf => true
  | _, _ => false
  end.

Definition fleb (x y : float) : bool := fltb x y || feqb x y.
Definition fgtb (x y : float) : bool := fltb y x.
Definition fgeb (x y : float) : bool := fleb y x.
Definition fneb (x y : float) : bool := negb (feqb x y).

Definition is_nan (x : float) : bool :=
  match x with NaN => true | _ => false end.

Definition of_Z (z : Z) : float := Fin (inject_Z z).

(** [np.round(_, decimals=5)] on a float *)
Definition fround5 (x : float) : float :=
  match x with Fin q => Fin (np_round5 q) | _ => x end.

Fixpoint fsum (l : list float) : float :=
  match l with
  | [] => Fin 0
  | x :: l' => fadd x (fsum l')
  end.

(** [np.max] and [np.min] hand a [NaN] on; an empty array raises *)
Definition fmax2 (x y : float) : float :=
  if is_nan x || is_nan y then NaN else if fltb x y then y else x.

Definition fmin2 (x y : float) : float :=
  if is_nan x || is_nan y then NaN else if fltb y x then y else x.

Fixpoint fold1 (f : float -> float -> float) (l : list float) : option float :=
  match l with
  | [] => None
  | x :: l' => match fold1 f l' with
               | None => Some x
               | Some y => Some (f x y)
               end
  end.

Definition np_max (l : list float) : result float :=
  of_option ValueError (fold1 fmax2 l).

Definition np_min (l : list float) : result float :=
  of_option ValueError (fold1 fmin2 l).

(** [np.nanmax]: [NaN] entries are skipped; nothing left gives [NaN] *)
Definition np_nanmax (l : list float) : result float :=
  match l with
  | [] => Raise ValueError
  | _ :: _ =>
      match fold1 fmax2 (filter (fun x => negb (is_nan x)) l) with
      | Some m => Ok m
      | None => Ok NaN
      end
  end.

(** ** Matrices of the thermal code *)

Definition fmatrix : Type := list (list float).

Definition fgetv (v : list float) (i : nat) : result float :=
  of_option IndexError (nth_error v i).

Definition fget (M : fmatrix) (i j : nat) : result float :=
  match nth_error M i with
  | None => Raise IndexError
  | Some r => of_option IndexError (nth_error r j)
  end.

Fixpoint update {A} (l : list A) (i : nat) (f : A -> A) : list A :=
  match l, i with
  | [], _ => []
  | x :: l', O => f x :: l'
  | x :: l', S i' => x :: update l' i' f
  end.

(** [M[i, j] = x], for [i] and [j] in range *)
Definition fset (M : fmatrix) (i j : nat) (x : float) : fmatrix :=
  update M i (fun r => update r j (fun _ => x)).

(** [z_note[:, e] = 0] *)
Definition clear_column (z_note : matrix) (e : nat) : matrix :=
  map (fun r => update r e (fun _ => 0%Z)) z_note.

(** [z.clip(min=0)] and [z.clip(max=0)] *)
Definition clip_min0 (z : matrix) : matrix := map (map (Z.max 0)) z.
Definition clip_max0 (z : matrix) : matrix := map (map (Z.min 0)) z.

Definition to_float (z : matrix) : fmatrix := map (map of_Z) z.

Definition n_edges_f (M : fmatrix) : nat :=
  match M with [] => O | r :: _ => length r end.

Definition frow (M : fmatrix) (j : nat) : list float := nth j M [].
Definition zrow (M : matrix) (j : nat) : list Z := nth j M [].
Definition fcolumn (M : fmatrix) (e : nat) : list float :=
  map (fun r => nth e r (Fin 0)) M.

(** [np.dot(m_d, v).sum()], [m_d] the square matrix with the mass flows on
    its diagonal and zeros elsewhere *)
Definition m_d_entry (mass_flow : list float) (i k : nat) : float :=
  if Nat.eqb i k then nth i mass_flow (Fin 0) else Fin 0.

Definition dot_m_d_sum (mass_flow : list float) (v : list float) : float :=
  fsum (map (fun i =>
               fsum (map (fun kv : nat * float =>
                            fmul (m_d_entry mass_flow i (fst kv)) (snd kv))
                         (combine (seq 0 (length v)) v)))
            (seq 0 (length mass_flow))).

(** ** [calc_t_out] *)

(** the arrays the supply pass works on *)
Record supply_state : Type := {
  z_note : matrix;
  t_e_out : fmatrix;
  t_e_in : fmatrix;
  t_node : list float;
  not_stuck : list bool
}.

(** the last position of an element that passes [f] *)
Definition last_index {A} (f : A -> bool) (l : list A) : option nat :=
  snd (fold_left (fun (st : nat * option nat) x =>
                    (S (fst st), if f x then Some (fst st) else snd st))
                 l (O, None)).

(** the pipe outlet temperature of [Wang et al., 2016] *)
Definition outlet_temperature (ext : externals) (t_in k m t_ground : float)
  : float :=
  let cp := Fin (cp ext) in
  let thousand := Fin 1000 in
  let two := Fin 2 in
  fdiv (fsub (fmul t_in (fsub (fdiv k two) (fdiv (fmul m cp) thousand)))
             (fmul k t_ground))
       (fsub (fdiv (fmul (fneg m) cp) thousand) (fdiv k two)).

(** one turn of [for i in range(edge.size)], for the edge [e] *)
Definition calc_t_out_edge (ext : externals) (node e : nat) (k m_d : list float)
    (z : matrix) (t_e_in : fmatrix) (t_ground : float)
    (out : fmatrix * matrix) : result (fmatrix * matrix) :=
  let '(t_e_out, z_note) := out in
  do k_e <- fgetv k e;
  do m0 <- fgetv m_d e;
  let m := fround5 m0 in
  do out_node_index <- of_option ValueError
                         (last_index (Z.eqb 1) (column z e));
  do z_node_e <- entry z node e;
  if feqb (fabs m) (Fin 0) && Z.eqb z_node_e (-1) then
    Ok (fset t_e_out out_node_index e NaN, clear_column z_note e)
  else if Z.eqb z_node_e (-1) then
    do t_in <- fget t_e_in node e;
    let t_out := outlet_temperature ext t_in k_e m t_ground in
    let dT := fsub t_in t_out in
    let t_out' :=
      if fgtb (fabs dT) (Fin 30)
         && fgtb (fsub (fdiv k_e (Fin 2))
                       (fdiv (fmul m (Fin (cp ext))) (Fin 1000))) (Fin 0)
      then fsub t_in (Fin 30)
      else t_out in
    Ok (fset t_e_out out_node_index e t_out', clear_column z_note e)
  else Ok (t_e_out, z_note).

(** [k = k[e, e]] turns [k] into a number in the first turn of the loop; a
    second turn indexes that number and raises *)
Definition calc_t_out (ext : externals) (node : nat) (edge : list nat)
    (k m_d : list float) (z : matrix) (t_e_in : fmatrix) (t_ground : float)
    (out : fmatrix * matrix) : result (fmatrix * matrix) :=
  match edge with
  | [] => Ok out
  | e :: rest =>
      do out' <- calc_t_out_edge ext node e k m_d z t_e_in t_ground out;
      match rest with
      | [] => Ok out'
      | _ :: _ => Raise IndexError
      end
  end.

(** ** [calculate_outflow_temp] *)

(** [for edge in range(z_note.shape[1]): if t_e_in[j, edge] != 0: ...] *)
Fixpoint outflow_edges (ext : externals) (j : nat) (edges : list nat)
    (k m_d : list float) (z : matrix) (t_e_in : fmatrix) (t_ground : float)
    (out : fmatrix * matrix) : result (fmatrix * matrix) :=
  match edges with
  | [] => Ok out
  | edge :: rest =>
      do x <- fget t_e_in j edge;
      do out' <- (if fneb x (Fin 0)
                  then calc_t_out ext j [edge] k m_d z t_e_in t_ground out
                  else Ok out);
      outflow_edges ext j rest k m_d z t_e_in t_ground out'
  end.

Definition set_flag (not_stuck : list bool) (j : nat) (b : bool) : list bool :=
  update not_stuck j (fun _ => b).

(** the body of [for j in range(z.shape[0])] *)
Definition outflow_node (ext : externals) (z z_pipe_out : matrix)
    (m_d k : list float) (t_ground : float) (st : supply_state) (j : nat)
  : result supply_state :=
  let row := zrow (z_note st) j in
  if Nat.eqb (count_occ Z.eq_dec row 1%Z) 0
     && negb (Nat.eqb (count_occ Z.eq_dec row 0%Z) (n_edges z))
  then
    (* node temperature with merging flows from pipes *)
    let part1 := dot_m_d_sum m_d (frow (t_e_out st) j) in
    let part2 := dot_m_d_sum m_d (map of_Z (zrow z_pipe_out j)) in
    let t_j := fdiv part1 part2 in
    let t_e_in' := update (t_e_in st) j (map (fun x => fmul x t_j)) in
    do out <- outflow_edges ext j (seq 0 (n_edges (z_note st))) k m_d z
                            t_e_in' t_ground (t_e_out st, z_note st);
    Ok {| z_note := snd out; t_e_out := fst out; t_e_in := t_e_in';
          t_node := update (t_node st) j (fun _ => t_j);
          not_stuck := set_flag (not_stuck st) j true |}
  else
    do t_j <- fgetv (t_node st) j;
    do branch_end <-
      (if feqb t_j (Fin 0)
       then do highest <- np_max (frow (t_e_out st) j); Ok (fneb highest (Fin 1))
       else Ok false);
    if branch_end then
      (* temperatures for nodes at network branch ends *)
      do highest <- np_max (frow (t_e_out st) j);
      let t_j' := if existsb is_nan (frow (t_e_out st) j) then NaN else highest in
      Ok {| z_note := z_note st; t_e_out := t_e_out st; t_e_in := t_e_in st;
            t_node := update (t_node st) j (fun _ => t_j');
            not_stuck := set_flag (not_stuck st) j true |}
    else
      do lowest <- np_min (frow (t_e_out st) j);
      Ok {| z_note := z_note st; t_e_out := t_e_out st; t_e_in := t_e_in st;
            t_node := t_node st;
            not_stuck := set_flag (not_stuck st) j (fltb lowest (Fin 0)) |}.

Fixpoint outflow_nodes (ext : externals) (z z_pipe_out : matrix)
    (m_d k : list float) (t_ground : float) (nodes : list nat)
    (st : supply_state) : result supply_state :=
  match nodes with
  | [] => Ok st
  | j :: rest =>
      do st' <- outflow_node ext z z_pipe_out m_d k t_ground st j;
      outflow_nodes ext z z_pipe_out m_d k t_ground rest st'
  end.

Definition calculate_outflow_temp (ext : externals) (z z_pipe_out : matrix)
    (m_d k : list float) (t_ground : float) (st : supply_state)
  : result supply_state :=
  outflow_nodes ext z z_pipe_out m_d k t_ground (seq 0 (length z)) st.

(** ** [calc_supply_temperatures]: one pass at a plant temperature *)

(** the matrices as they are reset at the start of a pass *)
Definition reset_state (z : matrix) (flags : list bool) : supply_state :=
  {| z_note := z;
     t_e_out := to_float (clip_min0 z);
     t_e_in := map (map (fun x => of_Z (- x))) (clip_max0 z);
     t_node := map (fun _ => Fin 0) z;
     not_stuck := flags |}.

(** positions of the entries that pass [f] *)
Definition positions {A} (f : A -> bool) (l : list A) : list nat :=
  map fst (filter (fun ix : nat * A => f (snd ix)) (combine (seq 0 (length l)) l)).

(** the body of [for i in range(z.shape[0])] that starts from the plants *)
Definition plant_start (ext : externals) (z : matrix) (m_d k : list float)
    (t_ground t_plant_sup : float) (all_nodes_df : list node)
    (st : supply_state) (i : nat) : result supply_state :=
  do row <- of_option IndexError (nth_error all_nodes_df i);
  if is_type "PLANT" row then
    let edge := positions (fun x => fneb x (Fin 0)) (frow (t_e_in st) i) in
    let t_e_in' := update (t_e_in st) i (map (fun x => fmul x t_plant_sup)) in
    do out <- calc_t_out ext i edge k m_d z t_e_in' t_ground
                         (t_e_out st, z_note st);
    Ok {| z_note := snd out; t_e_out := fst out; t_e_in := t_e_in';
          t_node := update (t_node st) i (fun _ => t_plant_sup);
          not_stuck := not_stuck st |}
  else Ok st.

Fixpoint plant_starts (ext : externals) (z : matrix) (m_d k : list float)
    (t_ground t_plant_sup : float) (all_nodes_df : list node)
    (nodes : list nat) (st : supply_state) : result supply_state :=
  match nodes with
  | [] => Ok st
  | i :: rest =>
      do st' <- plant_start ext z m_d k t_ground t_plant_sup all_nodes_df st i;
      plant_starts ext z m_d k t_ground t_plant_sup all_nodes_df rest st'
  end.

(** [t_node[t_node.nonzero()].mean()] *)
Definition mean_nonzero (t_node : list float) : float :=
  let nz := filter (fun x => fneb x (Fin 0)) t_node in
  fdiv (fsum nz) (Fin (inject_Z (Z.of_nat (length nz)))).

(** 'stuck! this can happen with loops': the first column of [t_e_out]
    that still holds a 1 gets a guess *)
Fixpoint first_unresolved (t_e_out : fmatrix) (columns : list nat) : option nat :=
  match columns with
  | [] => None
  | i :: rest =>
      if existsb (fun x => feqb x (Fin 1)) (fcolumn t_e_out i) then Some i
      else first_unresolved t_e_out rest
  end.

Definition unstick (temp_iter : nat) (t_e_out_old : fmatrix) (st : supply_state)
  : supply_state :=
  let flags := map (fun _ => true) (not_stuck st) in
  match first_unresolved (t_e_out st) (seq 0 (n_edges_f (t_e_out st))) with
  | None =>
      {| z_note := z_note st; t_e_out := t_e_out st; t_e_in := t_e_in st;
         t_node := t_node st; not_stuck := flags |}
  | Some i =>
      let guess := mean_nonzero (t_node st) in
      let fix_row (note : list Z) (row old : list float) :=
        if feqb (nth i row (Fin 0)) (Fin 1)
        then (update note i (fun _ => 0%Z),
              update row i (fun _ => if Nat.ltb temp_iter 1 then guess
                                     else nth i old (Fin 0)))
        else (note, row) in
      let rows :=
        map (fun r => fix_row (zrow (z_note st) r) (frow (t_e_out st) r)
                              (frow t_e_out_old r))
            (seq 0 (length (t_e_out st))) in
      {| z_note := map fst rows; t_e_out := map snd rows; t_e_in := t_e_in st;
         t_node := t_node st; not_stuck := flags |}
  end.

(** [while np.count_nonzero(t_node == 0) > 0] *)
Fixpoint propagate (ext : externals) (z z_pipe_out : matrix)
    (m_d k : list float) (t_ground : float) (budget : nat) (temp_iter : nat)
    (t_e_out_old : fmatrix) (st : supply_state) : result supply_state :=
  if existsb (fun x => feqb x (Fin 0)) (t_node st) then
    match budget with
    | O => Diverge
    | S budget' =>
        do st' <- (if existsb (fun b : bool => b) (not_stuck st)
                   then calculate_outflow_temp ext z z_pipe_out m_d k t_ground st
                   else Ok (unstick temp_iter t_e_out_old st));
        propagate ext z z_pipe_out m_d k t_ground budget' temp_iter
                  t_e_out_old st'
    end
  else Ok st.

(** [np.max(abs(t_e_out_old - t_e_out))] *)
Definition max_change (old new : fmatrix) : result float :=
  np_max (concat (zip_with (zip_with (fun a b => fabs (fsub a b))) old new)).

(** [while delta_temp_0 >= temp_tolerance]: the state it ends with and the
    plant nodes *)
Fixpoint temperature_iteration (ext : externals) (z : matrix)
    (m_d k : list float) (t_ground t_plant_sup : float)
    (all_nodes_df : list node) (budget inner : nat) (temp_iter : nat)
    (t_e_out_now : fmatrix) (flags : list bool)
  : result (supply_state * list nat) :=
  match budget with
  | O => Diverge
  | S budget' =>
      let t_e_out_old := t_e_out_now in
      do st1 <- plant_starts ext z m_d k t_ground t_plant_sup all_nodes_df
                             (seq 0 (length z)) (reset_state z flags);
      let plant_node := positions (fun x => fneb x (Fin 0)) (t_node st1) in
      do st2 <- propagate ext z (clip_min0 z) m_d k t_ground inner temp_iter
                          t_e_out_old st1;
      do delta_temp_0 <- max_change t_e_out_old (t_e_out st2);
      if fgeb delta_temp_0 (Fin 1)
      then temperature_iteration ext z m_d k t_ground t_plant_sup all_nodes_df
                                 budget' inner (S temp_iter) (t_e_out st2)
                                 (not_stuck st2)
      else Ok (st2, plant_node)
  end.

(** the pass of one turn of [while flag == 0] *)
Definition supply_pass (ext : externals) (z : matrix) (m_d k : list float)
    (t_ground : float) (all_nodes_df : list node) (budget : nat)
    (t_plant_sup : float) : result (supply_state * list nat) :=
  temperature_iteration ext z m_d k t_ground t_plant_sup all_nodes_df
                        budget budget O (to_float (clip_min0 z))
                        (map (fun _ => true) z).

(** ** [calc_supply_temperatures]: the search for the plant temperature *)

(** [Series.max()] and [Series.min()] skip [NaN]; nothing left gives [NaN] *)
Definition series_max (l : list float) : float :=
  match fold1 fmax2 (filter (fun x => negb (is_nan x)) l) with
  | Some m => m
  | None => NaN
  end.

Definition series_min (l : list float) : float :=
  match fold1 fmin2 (filter (fun x => negb (is_nan x)) l) with
  | Some m => m
  | None => NaN
  end.

Definition kelvin (t_c : float) : float := fadd t_c (Fin 273.15).

(** [d_t = (t_node - (t_target_supply__c + 273.15)).dropna()]: the nodes
    that are left, by position, with their differences *)
Definition temperature_gaps (t_node t_target_supply__c : list float)
  : list (nat * float) :=
  let d := zip_with (fun t c => fsub t (kelvin c)) t_node t_target_supply__c in
  filter (fun ix : nat * float => negb (is_nan (snd ix)))
         (combine (seq 0 (length d)) d).

(** [t_node[index_insufficient] = t_target_supply__c[index_insufficient] + 273.15] *)
Fixpoint force_targets (node_insufficient : list nat)
    (t_target_supply__c t_node : list float) : result (list float) :=
  match node_insufficient with
  | [] => Ok t_node
  | pos :: rest =>
      do c <- fgetv t_target_supply__c pos;
      force_targets rest t_target_supply__c (update t_node pos (fun _ => kelvin c))
  end.

Record search_result : Type := {
  sr_t_node : list float;
  sr_plant_node : list nat;
  sr_state : supply_state;
  sr_t_plant_sup : float;
  sr_iteration : nat;
  sr_log : list message
}.

(** [while flag == 0], one pass for each unit of [fuel] *)
Fixpoint plant_temperature_search (ext : externals) (z : matrix)
    (m_d k : list float) (t_ground : float) (t_target_supply__c : list float)
    (network_type : string) (all_nodes_df : list node) (budget fuel : nat)
    (t_plant_sup_0 t_plant_sup : float) (iteration : nat) (log : list message)
  : result search_result :=
  match fuel with
  | O => Diverge
  | S fuel' =>
      do pass <- supply_pass ext z m_d k t_ground all_nodes_df budget t_plant_sup;
      let st := fst pass in
      let d_t := temperature_gaps (t_node st) t_target_supply__c in
      let finish t_node' log' :=
        Ok {| sr_t_node := t_node'; sr_plant_node := snd pass; sr_state := st;
              sr_t_plant_sup := t_plant_sup; sr_iteration := iteration;
              sr_log := log' |} in
      let again t_plant_sup' iteration' log' :=
        plant_temperature_search ext z m_d k t_ground t_target_supply__c
          network_type all_nodes_df budget fuel' t_plant_sup_0 t_plant_sup'
          iteration' log' in
      if String.eqb network_type "DH" then
        let unmet :=
          negb (forallb (fun ix : nat * float => fgtb (snd ix) (Fin (-0.1))) d_t) in
        if unmet && fltb (fsub t_plant_sup t_plant_sup_0) (Fin 60) then
          again (fadd t_plant_sup (fabs (series_min (map snd d_t))))
                (S iteration) log
        else if unmet && fgeb (fsub t_plant_sup t_plant_sup_0) (Fin 60) then
          let node_insufficient :=
            map fst (filter (fun ix : nat * float => fltb (snd ix) (Fin 0)) d_t) in
          do forced <- force_targets node_insufficient t_target_supply__c
                                     (t_node st);
          finish forced (log ++ [CannotFulfill iteration])
        else finish (t_node st) log
      else
        let unmet :=
          negb (forallb (fun ix : nat * float => fltb (snd ix) (Fin 0.1)) d_t) in
        if unmet && fltb (fsub t_plant_sup_0 t_plant_sup) (Fin 10) then
          again (fsub t_plant_sup (fabs (series_max (map snd d_t))))
                (S iteration) log
        else if unmet && fgeb (fsub t_plant_sup_0 t_plant_sup) (Fin 10) then
          let node_insufficient :=
            map fst (filter (fun ix : nat * float => fgtb (snd ix) (Fin 0)) d_t) in
          do forced <- force_targets node_insufficient t_target_supply__c
                                     (t_node st);
          match node_insufficient with
          | [] => again t_plant_sup iteration (log ++ [CannotFulfill iteration])
          | _ :: _ => finish forced (log ++ [CannotFulfill iteration])
          end
        else finish (t_node st) log
  end.

(** the initial guess of the plant supply temperature *)
Definition initial_plant_temperature (network_type : string)
    (t_target_supply__c : list float) : float :=
  if String.eqb network_type "DH"
  then fadd (Fin 273.15) (series_max t_target_supply__c)
  else fadd (Fin 273.15) (series_min t_target_supply__c).

(** '# calculate pipe heat losses' *)
Definition q_loss_edge (ext : externals) (m_d : list float) (st : supply_state)
    (edge : nat) : result float :=
  do m <- fgetv m_d edge;
  if fgtb m (Fin 0) then
    do hot <- np_nanmax (fcolumn (t_e_in st) edge);
    do cold <- np_nanmax (fcolumn (t_e_out st) edge);
    Ok (fmul (fdiv (fmul m (Fin (cp ext))) (Fin 1000)) (fsub hot cold))
  else Ok (Fin 0).

Definition calc_supply_temperatures_search (ext : externals)
    (t_ground__k : float) (edge_node_df : matrix) (mass_flow_df k : list float)
    (t_target_supply__c : list float) (network_type : string)
    (all_nodes_df : list node) (budget : nat) : result search_result :=
  let t_plant_sup_0 := initial_plant_temperature network_type t_target_supply__c in
  plant_temperature_search ext edge_node_df mass_flow_df k t_ground__k
    t_target_supply__c network_type all_nodes_df budget budget
    t_plant_sup_0 t_plant_sup_0 O [].

(** [t_node.T, plant_node, q_loss_edges_kw], and what was printed *)
Definition calc_supply_temperatures (ext : externals)
    (t_ground__k : float) (edge_node_df : matrix) (mass_flow_df k : list float)
    (t_target_supply__c : list float) (network_type : string)
    (all_nodes_df : list node) (budget : nat)
  : result (list float * list nat * list float * list message) :=
  do r <- calc_supply_temperatures_search ext t_ground__k edge_node_df
            mass_flow_df k t_target_supply__c network_type all_nodes_df budget;
  do q_loss_edges_kw <-
    map_result (q_loss_edge ext mass_flow_df (sr_state r))
               (seq 0 (n_edges (z_note (sr_state r))));
  Ok (sr_t_node r, sr_plant_node r, q_loss_edges_kw, sr_log r).

(** ** [solve_network_temperatures] *)

Record network_temperatures : Type := {
  t_supply_nodes_2__k : list float;
  t_return_nodes_2__k : list float;
  plant_heat_requirement_kw : list float;
  edge_mass_flow_df_2_kgs : list float;
  q_loss_edges_2_kw : list float
}.

(** [np.full(n, x)] *)
Definition np_full (n : nat) (x : float) : list float := repeat x n.

(** [coupled] stands for the branch taken when some mass flows: the
    iteration between the supply temperatures and the substation model of
    [cea.technologies.substation_matrix], which is not part of this file *)
Definition solve_network_temperatures (coupled : result network_temperatures)
    (edge_node_df : matrix) (all_nodes_df : list node)
    (edge_mass_flow_df : list float) : result network_temperatures :=
  if fneb (fsum (map fabs edge_mass_flow_df)) (Fin 0)
  then coupled
  else Ok {| t_supply_nodes_2__k := np_full (length edge_node_df) NaN;
             t_return_nodes_2__k := np_full (length edge_node_df) NaN;
             plant_heat_requirement_kw :=
               np_full (number_of_plants all_nodes_df) (Fin 0);
             edge_mass_flow_df_2_kgs := edge_mass_flow_df;
             q_loss_edges_2_kw := np_full (n_edges edge_node_df) (Fin 0) |}.

(** ** [calc_edge_temperatures] *)

(** [np.nanmean]: the mean of the entries that are no [NaN]; [NaN] when
    nothing is left *)
Definition np_nanmean (l : list float) : float :=
  let known := filter (fun x => negb (is_nan x)) l in
  fdiv (fsum known) (Fin (inject_Z (Z.of_nat (length known)))).

(** [temperature_node[np.isnan(temperature_node)] = temperature_node_mean]:
    the array of the caller is changed in place *)
Definition fill_missing (temperature_node : list float) : list float :=
  let temperature_node_mean := np_nanmean temperature_node in
  map (fun t => if is_nan t then temperature_node_mean else t) temperature_node.

(** the edge temperatures, and [temperature_node] as the call leaves it;
    [np.dot] raises when the array has not one entry for each row *)
Definition calc_edge_temperatures (temperature_node : list float)
    (edge_node : matrix) : result (list float * list float) :=
  let temperature_node := fill_missing temperature_node in
  if Nat.eqb (length temperature_node) (length edge_node) then
    let temperature_edge :=
      map (fun e => dot (map nan_to_num temperature_node)
                        (map (fun z => Qabs (inject_Z z) / 2) (column edge_node e)))
          (seq 0 (n_edges edge_node)) in
    Ok (map (fun x => if Qlt_bool x 273.15 then NaN else Fin x) temperature_edge,
        temperature_node)
  else Raise ValueError.

(** ** [calc_plant_heat_requirement] *)

Definition calc_plant_heat_requirement (ext : externals) (plant_node : list nat)
    (T_supply_nodes T_return_nodes mass_flow_substations_nodes_df : list float)
  : result (list float) :=
  map_result
    (fun node =>
       do t_supply <- fgetv T_supply_nodes node;
       do t_return <- fgetv T_return_nodes node;
       do m <- fgetv mass_flow_substations_nodes_df node;
       Ok (fmul (fmul (fdiv (Fin (cp ext)) (Fin 1000)) (fsub t_supply t_return))
                (fabs m)))
    plant_node.

(** ** Node values and substation values *)

(** a data frame of one row of floats: a value for each column name *)
Definition fframe : Type := list (string * float).

Fixpoint flookup (name : string) (df : fframe) : result float :=
  match df with
  | [] => Raise KeyError
  | (n, x) :: df' => if String.eqb n name then Ok x else flookup name df'
  end.

(** [write_nodes_values_to_substations]: the values of the nodes with a
    building, under the names of the buildings; an array that has not one
    value for each node cannot become a column of [all_nodes_df] *)
Definition write_nodes_values_to_substations (t_supply_nodes : list float)
    (all_nodes_df : list node) : result fframe :=
  if Nat.eqb (length t_supply_nodes) (length all_nodes_df) then
    Ok (map (fun nt : node * float => (Building (fst nt), snd nt))
            (filter (fun nt : node * float =>
                       negb (String.eqb (Building (fst nt)) "NONE"))
                    (combine all_nodes_df t_supply_nodes)))
  else Raise ValueError.

Definition write_substation_temperatures_to_nodes_df (all_nodes_df : list node)
    (df_value : fframe) : result (list float) :=
  map_result (fun row => if is_type "CONSUMER" row
                         then flookup (Building row) df_value
                         else Ok NaN)
             all_nodes_df.

(** ** [calc_return_node_temperature] *)

(** [np.fill_diagonal(np.zeros((n, n)), values)] *)
Definition fill_diagonal (n : nat) (values : list float) : fmatrix :=
  map (fun i => map (fun j => m_d_entry values i j) (seq 0 n)) (seq 0 n).

Definition calc_return_node_temperature (index : nat) (m_d : list float)
    (t_e_out : fmatrix) (t_return : list float) (z_pipe_out : matrix)
    (m_sub : fmatrix) : result float :=
  do z_row <- of_option IndexError (nth_error z_pipe_out index);
  do m_sub_row <- of_option IndexError (nth_error m_sub index);
  do m_sub_max <- np_max m_sub_row;
  let total_mass_flow_to_node :=
    fadd (dot_m_d_sum m_d (map of_Z z_row)) m_sub_max in
  if feqb total_mass_flow_to_node (Fin 0) then
    (* set node temperature to nan if no flow to node *)
    Ok NaN
  else
    do t_row <- of_option IndexError (nth_error t_e_out index);
    let total_mcp_from_edges :=
      dot_m_d_sum m_d (map (fun x => Fin (nan_to_num x)) t_row) in
    do total_mcp_from_substations <-
      (if feqb m_sub_max (Fin 0) then Ok (Fin 0)
       else do t <- fgetv t_return index; Ok (fmul m_sub_max t));
    Ok (fdiv (fadd total_mcp_from_edges total_mcp_from_substations)
             total_mass_flow_to_node).

(** ** Sample networks *)

(** stand-ins for the outside functions: [loops] is what [cycle_basis]
    answers and [guess] what the least squares solve answers *)
Definition sample_externals (loops : list (list nat)) (guess : vector) : externals :=
  {| cycle_basis := fun _ => loops;
     linalg_lstsq := fun _ _ => guess;
     math_pi := 355 # 113;
     math_exp := fun x => 1 + x;
     power := fun x _ => x;
     np_log := fun x => x - 1;
     rho_60 := 983.21;
     roughness := 2 # 100000;
     cp := 4185 |}.

(** a plant feeding one consumer through one pipe *)
Definition two_nodes : list node :=
  [ {| Name := "NODE0"; Building := "PLANT0"; Type_ := "PLANT" |};
    {| Name := "NODE1"; Building := "B1"; Type_ := "CONSUMER" |} ].

Definition one_pipe : matrix := [ [-1]%Z; [1]%Z ].

(** a plant and two consumers on a ring of three pipes:
    pipe 0 from node 0 to node 1, pipe 1 from 1 to 2, pipe 2 from 0 to 2 *)
Definition ring_nodes : list node :=
  [ {| Name := "NODE0"; Building := "PLANT0"; Type_ := "PLANT" |};
    {| Name := "NODE1"; Building := "B1"; Type_ := "CONSUMER" |};
    {| Name := "NODE2"; Building := "B2"; Type_ := "CONSUMER" |} ].

Definition ring : matrix :=
  [ [-1; 0; -1]%Z;
    [ 1; -1; 0]%Z;
    [ 0; 1; 1]%Z ].

(** a catalog of three pipes, before the mass-flow columns are added *)
Definition sample_pipe (dn : string) (d_int vdot_max : Q) : pipe :=
  {| Pipe_DN := dn; D_ext_m := d_int + 0.01; D_int_m := d_int;
     D_ins_m := d_int + 0.1;
     Vdot_min_m3s := vdot_max / 10; Vdot_max_m3s := vdot_max;
     mdot_min_kgs := 0; mdot_max_kgs := 0 |}.

Definition sample_catalog : list pipe :=
  [ sample_pipe "DN20" 0.02 0.001;
    sample_pipe "DN50" 0.05 0.005;
    sample_pipe "DN100" 0.1 0.02 ].

(** two plants feeding the consumer between them: pipe 0 from node 0 to
    node 2, pipe 1 from node 1 to node 2 *)
Definition two_plants : list node :=
  [ {| Name := "NODE0"; Building := "PLANT0"; Type_ := "PLANT" |};
    {| Name := "NODE1"; Building := "PLANT1"; Type_ := "PLANT" |};
    {| Name := "NODE2"; Building := "B1"; Type_ := "CONSUMER" |} ].

Definition two_feeds : matrix :=
  [ [-1; 0]%Z;
    [ 0; -1]%Z;
    [ 1; 1]%Z ].

(** ** Notions used in the statements *)

(** [xs] solves the equation [r] *)
Definition satisfies (xs : list Q) (r : equation) : Prop :=
  dot (fst r) xs == snd r.

(** sum of the absolute entries of a row: for a row of an incidence
    matrix, the number of edges at the node *)
Definition row_weight (row : list Z) : Q :=
  Qsum (map (fun z => Qabs (inject_Z z)) row).

(** *** Direction normalisation, in the words of the specification *)


(** edge [j] carries a negative flow *)
Definition negative_at (edge_mass_flow : vector) (j : nat) : bool :=
  match nth_error edge_mass_flow j with
  | Some m => Qlt_bool m 0
  | None => false
  end.


(** *** The loop correction, in the words of the specification *)

(** 0.01 kg/s for the first 19 iterations, 0.02 below 50, 0.03 below 100 *)
Definition tolerance_schedule (iterations : nat) : Q :=
  if Nat.ltb iterations 20 then 0.01
  else if Nat.ltb iterations 50 then 0.02
  else 0.03.

(** every pair of neighbours in a loop is joined by an edge of the graph,
    numbered below [e], between rows of the matrix: what [cycle_basis]
    promises for the graph of [find_loops] *)
Fixpoint loop_resolves (A : matrix) (g : graph) (e : nat) (first : nat)
    (loop : list nat) : bool :=
  match loop with
  | [] => true
  | u :: rest =>
      match loop_edge A g first u rest with
      | Ok ec => Nat.ltb (fst ec) e && loop_resolves A g e first rest
      | _ => false
      end
  end.

Definition loops_resolve (A : matrix) (g : graph) (e : nat)
    (loops : list (list nat)) : bool :=
  forallb (fun loop => loop_resolves A g e (hd O loop) loop) loops.

(** how the loop is left: below the ceiling with the test of the schedule
    passed, or at the ceiling with the warning *)
Definition left_properly (st : hardy_cross_state) : Prop :=
  ((hc_iterations st < 100)%nat /\
   hc_tolerance st = tolerance_schedule (hc_iterations st) /\
   any_above (hc_tolerance st) (hc_mass_flow_edge st) (hc_m_old st) = false /\
   hc_log st = [])
  \/
  (hc_iterations st = 100%nat /\
   exists remaining,
     py_max (map Qabs (zip_with Qminus (hc_mass_flow_edge st) (hc_m_old st)))
       = Ok remaining /\
     hc_log st = [NoConvergence 100 remaining]).

(** *** Pipe sizing, in the words of the specification *)

(** [max_flow] is the largest absolute value among [values] *)
Definition is_max_abs (values : vector) (max_flow : Q) : Prop :=
  (exists x, Qabs x = max_flow /\ In x values) /\
  Forall (fun x => Qabs x <= max_flow) values.

(** [p] is the first record of the catalog whose maximum rated mass flow
    covers [max_flow] *)
Definition first_sufficient (max_flow : Q) (pipe_catalog : list pipe) (p : pipe)
  : Prop :=
  exists before after,
    pipe_catalog = before ++ p :: after /\
    max_flow <= mdot_max_kgs p /\
    Forall (fun q => mdot_max_kgs q < max_flow) before.

Definition none_suffices (max_flow : Q) (pipe_catalog : list pipe) : Prop :=
  Forall (fun q => mdot_max_kgs q < max_flow) pipe_catalog.

(** the catalog is ordered by capacity *)
Fixpoint ordered_by_capacity (pipe_catalog : list pipe) : Prop :=
  match pipe_catalog with
  | [] => True
  | p :: rest =>
      Forall (fun q => mdot_max_kgs p <= mdot_max_kgs q) rest /\
      ordered_by_capacity rest
  end.

(** what the sizing does for one edge: the first sufficient record, or
    the last record of the catalog when none suffices *)
Definition sized (pipe_catalog : list pipe) (values : vector) (p : pipe) : Prop :=
  exists max_flow,
    amax_abs values = Ok max_flow /\
    is_max_abs values max_flow /\
    (first_sufficient max_flow pipe_catalog p \/
     (none_suffices max_flow pipe_catalog /\ last pipe_catalog p = p)).

(** edge [j] is warned about *)
Definition undersized (pipe_catalog : list pipe) (mass_flow_df : list vector)
    (j : nat) : Prop :=
  exists values max_flow,
    nth_error mass_flow_df j = Some values /\
    amax_abs values = Ok max_flow /\
    none_suffices max_flow pipe_catalog.

(** *** The invariant of the incidence matrix *)

(** exactly one [+1] and exactly one [-1] in the column *)
Definition column_well_formed (col : list Z) : Prop :=
  count_occ Z.eq_dec col 1%Z = 1%nat /\ count_occ Z.eq_dec col (-1)%Z = 1%nat.

(** both ends of the edge are nodes of the table, and they differ *)
Definition edge_well_formed (list_nodes : list string) (e : edge) : Prop :=
  In (start_node e) list_nodes /\ In (end_node e) list_nodes /\
  start_node e <> end_node e.

(** [M] is the matrix one of the two readers returns for the node names
    [names] and the edges [edge_df]; the csv reader does not look for
    duplicated names, so their absence is asked for *)
Definition built_from_topology (names : list string) (edge_df : list edge)
    (M : matrix) : Prop :=
  (exists node_df nodes,
     map DC_ID node_df = names /\ NoDup names /\
     get_thermal_network_from_csv node_df edge_df = Ok (M, nodes, edge_df))
  \/
  (exists edge_names,
     first_edge_node_matrix names edge_names edge_df = Ok M).

(** *** The thermal claims *)

(** a float that is the number zero *)
Definition is_zero (x : float) : Prop := exists q, x = Fin q /\ q == 0.

(** the search of the plant temperature, by the type of network: whether
    some consumer misses its target by the tolerance, how far the plant
    temperature has moved from the first guess, the bound on that, the
    nodes that are forced and the next plant temperature *)
Definition unmet (network_type : string) (d_t : list (nat * float)) : bool :=
  if String.eqb network_type "DH"
  then negb (forallb (fun ix : nat * float => fgtb (snd ix) (Fin (-0.1))) d_t)
  else negb (forallb (fun ix : nat * float => fltb (snd ix) (Fin 0.1)) d_t).

Definition drift (network_type : string) (t_plant_sup_0 t_plant_sup : float)
  : float :=
  if String.eqb network_type "DH"
  then fsub t_plant_sup t_plant_sup_0
  else fsub t_plant_sup_0 t_plant_sup.

Definition drift_bound (network_type : string) : float :=
  if String.eqb network_type "DH" then Fin 60 else Fin 10.

Definition deficient (network_type : string) (d : float) : bool :=
  if String.eqb network_type "DH" then fltb d (Fin 0) else fgtb d (Fin 0).

Definition next_plant_temperature (network_type : string) (t_plant_sup : float)
    (d_t : list (nat * float)) : float :=
  if String.eqb network_type "DH"
  then fadd t_plant_sup (fabs (series_min (map snd d_t)))
  else fsub t_plant_sup (fabs (series_max (map snd d_t))).

(** [np.dot(m_d, v).sum()] on finite values *)
Definition dot_m_d_sum_Q (ms vs : list Q) : Q :=
  Qsum (map (fun i =>
               Qsum (map (fun kv : nat * Q =>
                            (if Nat.eqb i (fst kv) then nth i ms 0 else 0)
                            * snd kv)
                         (combine (seq 0 (length vs)) vs)))
            (seq 0 (length ms))).

(** *** Mass balance at every node *)

(** the entries of a column add up to zero: as much enters the edge as
    leaves it *)
Definition column_balanced (col : list Z) : Prop :=
  fold_right Z.add 0%Z col = 0%Z.

(** *** Edges that join two nodes *)

(** the column of an edge that enters node [a] and leaves node [b]: [+1]
    in row [a], [-1] in row [b], zero elsewhere *)
Definition column_joins (col : list Z) (a b : nat) : Prop :=
  a <> b /\
  forall i, nth i col 0%Z
            = if Nat.eqb i a then 1%Z else if Nat.eqb i b then (-1)%Z else 0%Z.

(** every column of the matrix is the column of such an edge *)
Definition proper_incidence (A : matrix) : Prop :=
  forall c, (c < n_edges A)%nat -> exists a b, column_joins (column A c) a b.

(** 1 at node [u], 0 at the other nodes *)
Definition at_node (i u : nat) : Q := if Nat.eqb i u then 1 else 0.

(** *** A system with some unknowns counted backwards *)

(** [r'] is the equation [r] with the coefficient of unknown [j]
    multiplied by [sg j] *)
Definition signed_row (sg : nat -> Q) (r r' : equation) : Prop :=
  length (fst r') = length (fst r) /\
  (forall j, nth j (fst r') 0 == sg j * nth j (fst r) 0) /\
  snd r' == snd r.

(** the sign that reversing the edges with a negative flow gives edge [j] *)
Definition flip_sign (edge_mass_flow : vector) (j : nat) : Q :=
  if negative_at edge_mass_flow j then -1 else 1.

(** *** The type of a node of the csv files, in words *)


(** the number of times the plant temperature can be moved: every move is
    of 0.1 K or more, and is made from a drift below the bound *)
Definition raise_limit (network_type : string) : nat :=
  if String.eqb network_type "DH" then 600%nat else 100%nat.

(* ================================================================== *)
(** * Part II: properties *)
(* ================================================================== *)

(** ** Inversion of [bind] *)

(** a call that returns went through every step *)
Lemma bind_Ok {A B} (r : result A) (k : A -> result B) (b : B) :
  bind r k = Ok b -> exists a, r = Ok a /\ k a = Ok b.
Proof. destruct r; simpl; intro H; try discriminate. eauto. Qed.

Tactic Notation "bind_inv" hyp(H) "as" ident(a) ident(Ha) :=
  apply bind_Ok in H; destruct H as (a & Ha & H).

(** ** Arithmetic of [dot] *)

Lemma dot_zip_sub (f : Q) (u v xs : list Q) :
  length u = length v ->
  dot (zip_with (fun c d => c - f * d) u v) xs == dot u xs - f * dot v xs.
Proof.
  revert v xs; induction u as [|a u IH]; intros [|b v] [|x xs] Hl;
    simpl in *; try discriminate; try lra.
  injection Hl as Hl. rewrite (IH v xs Hl). lra.
Qed.

(** ** Rounding *)



(** ** Soundness of the linear solve *)

Lemma pick_pivot_spec (rows : list equation) p others :
  pick_pivot rows = Some (p, others) ->
  ~ lead p == 0 /\
  length rows = S (length others) /\
  (forall r, In r rows -> r = p \/ In r others) /\
  (forall r, In r others -> In r rows) /\ In p rows.
Proof.
  revert p others; induction rows as [|r rows IH]; intros p others H; simpl in H.
  - discriminate.
  - destruct (Qeq_bool (lead r) 0) eqn:E.
    + destruct (pick_pivot rows) as [[p' o']|] eqn:P; [|discriminate].
      injection H as <- <-.
      destruct (IH _ _ eq_refl) as (Hp & Hlen & Hin & Hback & Hpin).
      repeat split; simpl; auto.
      * intros r0 [->|Hr]; [right; now left|].
        destruct (Hin _ Hr); [now left | right; now right].
      * intros r0 [->|Hr]; [now left | right; auto].
    + injection H as <- <-. repeat split; simpl; auto.
      * intro Hz. apply Qeq_bool_neq in E. contradiction.
      * intros r0 [->|Hr]; auto.
Qed.

Lemma reduce_row_sound (p r : equation) (n : nat) (x : Q) (xs : list Q) :
  ~ lead p == 0 ->
  length (fst p) = S n -> length (fst r) = S n ->
  x == (snd p - dot (tl (fst p)) xs) / lead p ->
  satisfies xs (reduce_row p r) ->
  satisfies (x :: xs) r.
Proof.
  intros Hp Lp Lr Hx Hred.
  destruct p as [[|a cp] bp]; [discriminate|].
  destruct r as [[|c cr] br]; [discriminate|].
  unfold satisfies, reduce_row, lead in *; simpl in *.
  injection Lp as Lp. injection Lr as Lr.
  rewrite dot_zip_sub in Hred by congruence.
  rewrite Hx.
  set (D := dot cr xs) in *. set (P := dot cp xs) in *.
  assert (E : D == br - c / a * bp + c / a * P) by lra.
  rewrite E. field. exact Hp.
Qed.

Lemma zip_with_length {A B C} (f : A -> B -> C) (u : list A) (v : list B) :
  length u = length v -> length (zip_with f u v) = length u.
Proof.
  revert v; induction u as [|a u IH]; intros [|b v] L; simpl in *;
    try discriminate; auto.
Qed.

Lemma reduce_row_length (p r : equation) (n : nat) :
  length (fst p) = S n -> length (fst r) = S n ->
  length (fst (reduce_row p r)) = n.
Proof.
  destruct p as [[|a cp] bp]; [discriminate|].
  destruct r as [[|c cr] br]; [discriminate|].
  unfold reduce_row; simpl. intros Lp Lr.
  rewrite zip_with_length; congruence.
Qed.

Lemma eliminate_sound (n : nat) :
  forall rows xs,
    length rows = n ->
    Forall (fun r => length (fst r) = n) rows ->
    eliminate n rows = Some xs ->
    length xs = n /\ Forall (satisfies xs) rows.
Proof.
  induction n as [|n IH]; intros rows xs Hn Hlen H; simpl in H.
  - injection H as <-. destruct rows; [|discriminate]. split; constructor.
  - destruct (pick_pivot rows) as [[p others]|] eqn:P; [|discriminate].
    destruct (eliminate n (map (reduce_row p) others)) as [ys|] eqn:E;
      [|discriminate].
    injection H as <-.
    destruct (pick_pivot_spec _ _ _ P) as (Hp & Hl & Hin & Hback & Hpin).
    rewrite Forall_forall in Hlen.
    assert (Lp : length (fst p) = S n) by auto.
    destruct (IH (map (reduce_row p) others) ys) as [Lys Hys]; auto.
    + rewrite length_map. apply eq_add_S.
      transitivity (length rows); [symmetry; exact Hl | exact Hn].
    + apply Forall_forall. intros r Hr. apply in_map_iff in Hr.
      destruct Hr as (r0 & <- & Hr0). apply reduce_row_length; auto.
    + split; [simpl; congruence|].
      apply Forall_forall. intros r Hr.
      destruct (Hin _ Hr) as [->|Ho].
      * destruct p as [[|a cp] bp]; [discriminate|].
        unfold satisfies, lead; simpl. unfold lead in Hp; simpl in Hp.
        field. exact Hp.
      * apply (reduce_row_sound p r n); auto; try reflexivity.
        rewrite Forall_forall in Hys. apply Hys. now apply in_map.
Qed.

Lemma is_square_spec (A : list (list Q)) :
  is_square A = true -> Forall (fun r => length r = length A) A.
Proof.
  unfold is_square. intro H.
  apply Forall_forall. intros r Hr.
  rewrite forallb_forall in H. apply Nat.eqb_eq. auto.
Qed.

(** What [np.linalg.solve] returns solves the system, row by row. *)
Lemma linalg_solve_sound (A : list (list Q)) (b xs : list Q) :
  linalg_solve A b = Ok xs ->
  length xs = length b /\
  Forall2 (fun r rhs => dot r xs == rhs) A b.
Proof.
  unfold linalg_solve. destruct (is_square A) eqn:Sq; [|discriminate].
  destruct (Nat.eqb (length b) (length A)) eqn:Lb; [|discriminate].
  apply Nat.eqb_eq in Lb.
  destruct (eliminate (length A) (combine A b)) as [ys|] eqn:E; [|discriminate].
  intro H; injection H as <-.
  pose proof (is_square_spec _ Sq) as Lr.
  assert (Lc : length (combine A b) = length A).
  { rewrite length_combine, Lb. apply Nat.min_id. }
  assert (Lrows : Forall (fun r : equation => length (fst r) = length A)
                         (combine A b)).
  { apply Forall_forall. intros [r rhs] Hin. simpl.
    apply in_combine_l in Hin. rewrite Forall_forall in Lr. auto. }
  destruct (eliminate_sound _ _ _ Lc Lrows E) as [L S].
  split; [congruence|].
  clear E Sq Lr L Lc Lrows. revert b Lb S.
  induction A as [|r A IH]; intros [|rhs b] LA S; simpl in *; try discriminate.
  - constructor.
  - inversion S; subst. constructor; auto.
Qed.

(** ** The rounded flows against the reduced system *)




(** ** [calc_mass_flow_edges] on a network without loops *)

Lemma calc_mass_flow_edges_tree ext A demand nodes D L T m :
  fst (find_loops ext A) = [] ->
  calc_mass_flow_edges ext A demand nodes D L T = Ok m ->
  exists plant_index xs,
    first_plant nodes = Ok plant_index /\
    linalg_solve (map row_Q (reduced_matrix plant_index A))
                 (reduced_demand plant_index demand) = Ok xs /\
    solve_mass_flow ext A demand nodes D L T
      = Ok {| sf_mass_flow_edge := xs; sf_sum_delta_m_num := [];
              sf_log := [] |} /\
    m = map np_round5 xs.
Proof.
  intros Hloops H.
  unfold calc_mass_flow_edges, calc_mass_flow_edges_log in H.
  bind_inv H as r Hr. bind_inv Hr as st Hst. bind_inv Hr as lg Hlg.
  injection Hr as <-. injection H as <-. simpl.
  unfold solve_mass_flow in *. unfold find_loops in *. simpl in Hloops.
  rewrite Hloops in *.
  bind_inv Hst as i Hi. bind_inv Hst as xs Hxs. injection Hst as <-.
  exists i, xs. rewrite Hi. simpl. rewrite Hxs. simpl. auto.
Qed.

Lemma Forall2_map_l {A B C} (f : A -> B) (P : B -> C -> Prop) l l' :
  Forall2 P (map f l) l' -> Forall2 (fun a c => P (f a) c) l l'.
Proof.
  revert l'; induction l as [|a l IH]; intros l' H; inversion H; subst;
    constructor; auto.
Qed.

Lemma Forall2_impl {A B} (P Q : A -> B -> Prop) l l' :
  (forall a b, P a b -> Q a b) -> Forall2 P l l' -> Forall2 Q l l'.
Proof. intros HPQ H; induction H; constructor; auto. Qed.




(** ** The final rounding *)




(** ** Direction normalisation *)

Lemma Qlt_bool_iff (x y : Q) : Qlt_bool x y = true <-> x < y.
Proof.
  unfold Qlt_bool. rewrite negb_true_iff. split.
  - intro H. apply Qnot_le_lt. intro Hle. apply Qle_bool_iff in Hle. congruence.
  - intro H. destruct (Qle_bool y x) eqn:E; [|reflexivity].
    apply Qle_bool_iff in E. lra.
Qed.

Lemma Qlt_bool_false (x y : Q) : Qlt_bool x y = false <-> y <= x.
Proof.
  unfold Qlt_bool. rewrite negb_false_iff. apply Qle_bool_iff.
Qed.

Lemma Qmin_list_spec (l : vector) (v : Q) :
  Qmin_list l = Some v -> In v l /\ Forall (fun x => v <= x) l.
Proof.
  revert v; induction l as [|x l IH]; intros v H; simpl in H; [discriminate|].
  destruct (Qmin_list l) as [y|] eqn:E.
  - destruct (IH y eq_refl) as [Hin Hall].
    destruct (Qle_bool x y) eqn:C; injection H as <-.
    + apply Qle_bool_iff in C. split; [now left|].
      constructor; [lra|]. eapply Forall_impl; [|exact Hall].
      intros a Ha. cbn beta in Ha. lra.
    + assert (y <= x).
      { destruct (Qlt_le_dec y x) as [Hl|Hl]; [lra|].
        apply Qle_bool_iff in Hl. congruence. }
      split; [now right|]. constructor; assumption.
  - injection H as <-. destruct l; [|simpl in E; destruct (Qmin_list l); discriminate].
    split; [now left|]. constructor; [lra|constructor].
Qed.






(** ** The loop correction always ends *)

Lemma calc_pressure_loss_pipe_length ext (D L m T : vector) (loop_type : nat) :
  length D = length m -> length L = length m -> length T = length m ->
  length (calc_pressure_loss_pipe ext D L m T loop_type) = length m.
Proof.
  revert D L T; induction m as [|x m IH]; intros [|d D] [|l L] [|t T];
    simpl; intros HD HL HT; try discriminate; auto.
Qed.

Lemma get_ok (v : vector) (i : nat) :
  (i < length v)%nat -> exists x, get v i = Ok x.
Proof.
  intro H. unfold get. destruct (nth_error v i) eqn:E; simpl; eauto.
  apply nth_error_None in E. lia.
Qed.

Lemma set_nth_ok (v : vector) (i : nat) (x : Q) :
  (i < length v)%nat -> exists w, set_nth v i x = Ok w /\ length w = length v.
Proof.
  revert i; induction v as [|y v IH]; intros i H; simpl in *; [lia|].
  destruct i as [|i]; [eexists; split; reflexivity|].
  destruct (IH i ltac:(lia)) as (w & -> & Hw). simpl.
  eexists; split; [reflexivity|]. simpl. congruence.
Qed.

Lemma sum_loop_ok A g num den e first loop :
  length num = e -> length den = e ->
  loop_resolves A g e first loop = true ->
  forall acc, exists s, sum_loop A g num den first loop acc = Ok s.
Proof.
  intros Hn Hd. induction loop as [|u rest IH]; intros Hr acc; simpl in *.
  - eauto.
  - destruct (loop_edge A g first u rest) as [ec| |]; try discriminate.
    apply andb_prop in Hr as [Hlt Hr]. apply Nat.ltb_lt in Hlt. simpl.
    destruct (get_ok num (fst ec) ltac:(lia)) as [n ->].
    destruct (get_ok den (fst ec) ltac:(lia)) as [d ->]. simpl.
    apply IH. exact Hr.
Qed.

Lemma apply_loop_ok A g delta_m e first loop :
  loop_resolves A g e first loop = true ->
  forall m, length m = e ->
    exists m', apply_loop A g delta_m first loop m = Ok m' /\ length m' = e.
Proof.
  induction loop as [|u rest IH]; intros Hr m Hm; simpl in *.
  - eauto.
  - destruct (loop_edge A g first u rest) as [ec| |]; try discriminate.
    apply andb_prop in Hr as [Hlt Hr]. apply Nat.ltb_lt in Hlt. simpl.
    destruct (get_ok m (fst ec) ltac:(lia)) as [x ->]. simpl.
    destruct (set_nth_ok m (fst ec) (x + delta_m * snd ec) ltac:(lia))
      as (w & -> & Hw). simpl.
    apply IH; [exact Hr | congruence].
Qed.

Lemma correct_loops_ok A g num den e loops :
  length num = e -> length den = e ->
  loops_resolve A g e loops = true ->
  forall m, length m = e ->
    exists r, correct_loops A g num den loops m = Ok r /\ length (fst r) = e.
Proof.
  intros Hn Hd. induction loops as [|loop loops IH]; intros Hr m Hm;
    simpl in *.
  - eauto.
  - apply andb_prop in Hr as [Hl Hr].
    destruct (sum_loop_ok A g num den e (hd O loop) loop Hn Hd Hl (0, 0))
      as [s ->]. simpl.
    destruct (apply_loop_ok A g (- fst s / snd s) e (hd O loop) loop Hl m Hm)
      as (m' & -> & Hm'). simpl.
    destruct (IH Hr m' Hm') as (r & -> & Hlen). simpl. eauto.
Qed.

Lemma hardy_cross_pass_ok ext A g loops D L T m :
  length D = length m -> length L = length m -> length T = length m ->
  loops_resolve A g (length m) loops = true ->
  exists r, hardy_cross_pass ext A g loops D L T m = Ok r /\
            length (fst r) = length m.
Proof.
  intros HD HL HT Hr. unfold hardy_cross_pass.
  apply correct_loops_ok; auto.
  - rewrite zip_with_length; rewrite calc_pressure_loss_pipe_length; auto.
    now rewrite length_map.
  - rewrite length_map. apply calc_pressure_loss_pipe_length; auto.
Qed.

Lemma any_above_nonempty tol (u v : vector) :
  any_above tol u v = true -> u <> [].
Proof. intros H ->. discriminate. Qed.

Lemma py_max_ok (l : vector) : l <> [] -> exists x, py_max l = Ok x.
Proof.
  destruct l as [|y l]; [congruence|]. intros _. unfold py_max. simpl.
  destruct (Qmax_list l); simpl; eauto.
Qed.

Lemma hardy_cross_run ext A g loops D L T e :
  length D = e -> length L = e -> length T = e ->
  loops_resolve A g e loops = true ->
  forall budget k m m_old sums,
    length m = e -> (k < 100)%nat -> (100 <= budget + k)%nat ->
    exists st,
      hardy_cross ext A g loops D L T budget m m_old sums
                  (tolerance_schedule k) k = Ok st /\
      (k <= hc_iterations st <= 100)%nat /\
      length (hc_mass_flow_edge st) = e /\
      left_properly st.
Proof.
  intros HD HL HT Hr.
  induction budget as [|budget IH]; intros k m m_old sums Hm Hk Hb; [lia|].
  cbn [hardy_cross].
  destruct (any_above (tolerance_schedule k) m m_old) eqn:Habove.
  - destruct (hardy_cross_pass_ok ext A g loops D L T m) as (r & Hpass & Hlen);
      try congruence.
    rewrite Hpass. cbn [bind].
    destruct (Nat.ltb (S k) 100) eqn:H100.
    + apply Nat.ltb_lt in H100.
      assert (Hcont :
        (if Nat.ltb (S k) 20
         then hardy_cross ext A g loops D L T budget (fst r) m (snd r) 0.01 (S k)
         else if Nat.ltb (S k) 50
              then hardy_cross ext A g loops D L T budget (fst r) m (snd r)
                               0.02 (S k)
              else hardy_cross ext A g loops D L T budget (fst r) m (snd r)
                               0.03 (S k))
        = hardy_cross ext A g loops D L T budget (fst r) m (snd r)
                      (tolerance_schedule (S k)) (S k)).
      { unfold tolerance_schedule.
        destruct (Nat.ltb (S k) 20); [reflexivity|].
        destruct (Nat.ltb (S k) 50); reflexivity. }
      destruct (IH (S k) (fst r) m (snd r)) as (st & Hst & Hit & Hl & Hleft);
        try lia; try congruence.
      exists st. repeat split; try lia; try assumption.
      rewrite <- Hst, <- Hcont.
      destruct (Nat.ltb (S k) 20); [reflexivity|].
      destruct (Nat.ltb (S k) 50); reflexivity.
    + apply Nat.ltb_ge in H100. assert (Hk' : S k = 100%nat) by lia.
      rewrite Hk'. cbn [Nat.ltb Nat.leb].
      destruct (py_max_ok (map Qabs (zip_with Qminus (fst r) m)))
        as [remaining Hrem].
      { apply any_above_nonempty in Habove.
        destruct m as [|x m]; [congruence|].
        destruct (fst r) as [|y w]; [simpl in *; congruence|]. discriminate. }
      rewrite Hrem. cbn [bind].
      eexists; split; [reflexivity|]. cbn.
      repeat split; try lia; try congruence.
      right. cbn. split; [reflexivity|]. eauto.
  - eexists; split; [reflexivity|]. cbn.
    repeat split; try lia; try assumption.
    left. cbn. repeat split; auto.
Qed.

(** C4: on a looped network the correction loop of [calc_mass_flow_edges]
    never raises and makes at most 100 passes.  Left earlier, it is left by
    the convergence test whose tolerance is 0.01 kg/s below 20 passes, 0.02
    below 50 and 0.03 below 100; at 100 passes it is left with the warning,
    and the flows of the last pass are returned. *)
Theorem hardy_cross_bounded ext A g loops D L T m0 :
  length D = length m0 -> length L = length m0 -> length T = length m0 ->
  loops_resolve A g (length m0) loops = true ->
  exists st,
    hardy_cross ext A g loops D L T 100 m0 (zip_with Qminus m0 m0)
                (map (fun _ => 0) loops) 0.01 O = Ok st /\
    (hc_iterations st <= 100)%nat /\
    left_properly st.
Proof.
  intros HD HL HT Hr.
  destruct (hardy_cross_run ext A g loops D L T (length m0) HD HL HT Hr
              100 O m0 (zip_with Qminus m0 m0) (map (fun _ => 0) loops))
    as (st & Hst & Hit & _ & Hleft); try lia; try reflexivity.
  exists st. repeat split; try lia; assumption.
Qed.

Lemma hardy_cross_bounded_witness :
  exists st,
    hardy_cross (sample_externals [[0; 1; 2]%nat] [3; 1; 2]) ring
                (build_graph ring) [[0; 1; 2]%nat]
                [0.1; 0.1; 0.1] [100; 100; 100] [353; 353; 353]
                100 [3; 1; 2] (zip_with Qminus [3; 1; 2] [3; 1; 2])
                (map (fun _ => 0) [[0; 1; 2]%nat]) 0.01 O = Ok st /\
    (hc_iterations st <= 100)%nat /\
    left_properly st.
Proof.
  apply (hardy_cross_bounded (sample_externals [[0; 1; 2]%nat] [3; 1; 2]) ring
           (build_graph ring) [[0; 1; 2]%nat]
           [0.1; 0.1; 0.1] [100; 100; 100] [353; 353; 353] [3; 1; 2]);
    vm_compute; reflexivity.
Defined.

(** ** Node demands sum to zero *)

Lemma map_result_Forall2 {A B} (f : A -> result B) (l : list A) (bs : list B) :
  map_result f l = Ok bs -> Forall2 (fun a b => f a = Ok b) l bs.
Proof.
  revert bs; induction l as [|a l IH]; intros bs H; simpl in H.
  - injection H as <-. constructor.
  - bind_inv H as b Hb. bind_inv H as bs' Hbs. injection H as <-.
    constructor; auto.
Qed.

Lemma node_values_sum (df : frame) (c : Q) (nodes : list node) (v : vector) :
  map_result (node_value df c) nodes = Ok v ->
  exists t,
    sum_columns df (consumer_list nodes) = Ok t /\
    Qsum v == t - inject_Z (Z.of_nat (number_of_plants nodes)) * c.
Proof.
  revert v; induction nodes as [|n nodes IH]; intros v H; simpl in H.
  - injection H as <-. exists 0. split; [reflexivity|]. cbn. ring.
  - bind_inv H as x Hx. bind_inv H as xs Hxs. injection H as <-.
    destruct (IH _ Hxs) as (t & Ht & Hsum).
    unfold node_value in Hx. unfold consumer_list, number_of_plants in *.
    cbn [filter]. unfold is_type in *.
    destruct (String.eqb (Type_ n) "CONSUMER") eqn:EC.
    + assert (EP : String.eqb (Type_ n) "PLANT" = false).
      { apply String.eqb_eq in EC. rewrite EC. reflexivity. }
      rewrite EP. cbn [map sum_columns]. rewrite Hx. cbn [bind].
      rewrite Ht. cbn [bind]. eexists; split; [reflexivity|].
      cbn [Qsum]. rewrite Hsum. ring.
    + destruct (String.eqb (Type_ n) "PLANT") eqn:EP.
      * injection Hx as <-. exists t. split; [exact Ht|].
        cbn [Qsum length]. rewrite Hsum.
        rewrite Nat2Z.inj_succ, <- Z.add_1_r, inject_Z_plus.
        change (inject_Z 1) with 1. ring.
      * injection Hx as <-. exists t. split; [exact Ht|].
        cbn [Qsum]. rewrite Hsum. ring.
Qed.

(** C2: with at least one plant, the node demands written by
    [write_substation_values_to_nodes_df] sum to zero: a consumer node
    carries its building's flow, each of the [p] plants minus the total
    consumer flow over [p], any other node zero, so that the consumers'
    demand equals the plants' supply. *)
Theorem node_demands_sum_to_zero (all_nodes_df : list node) (df_value : frame)
    (v : vector) :
  (1 <= number_of_plants all_nodes_df)%nat ->
  write_substation_values_to_nodes_df all_nodes_df df_value = Ok v ->
  exists total,
    let p := inject_Z (Z.of_nat (number_of_plants all_nodes_df)) in
    sum_columns df_value (consumer_list all_nodes_df) = Ok total /\
    Forall2 (fun row x =>
               if is_type "CONSUMER" row
               then lookup (Building row) df_value = Ok x
               else if is_type "PLANT" row then x = - (total / p)
               else x = 0)
            all_nodes_df v /\
    Qsum v == 0 /\
    total == p * (total / p).
Proof.
  intros Hp H. unfold write_substation_values_to_nodes_df in H.
  bind_inv H as total Ht. exists total. cbn zeta.
  set (p := inject_Z (Z.of_nat (number_of_plants all_nodes_df))) in *.
  assert (Hp0 : ~ p == 0).
  { unfold p. intro E. unfold Qeq in E. simpl in E. lia. }
  split; [exact Ht|]. split; [|split].
  - apply map_result_Forall2 in H.
    eapply Forall2_impl; [|exact H].
    intros row x Hx. cbn beta in Hx. unfold node_value in Hx.
    destruct (is_type "CONSUMER" row); [exact Hx|].
    destruct (is_type "PLANT" row); now injection Hx as <-.
  - destruct (node_values_sum _ _ _ _ H) as (t & Ht' & Hsum).
    rewrite Ht in Ht'. injection Ht' as <-.
    rewrite Hsum. fold p. field. exact Hp0.
  - field. exact Hp0.
Qed.

(** the call returns whenever every consumer's building has a column *)
Lemma write_substation_values_returns (all_nodes_df : list node)
    (df_value : frame) :
  Forall (fun b => exists x, lookup b df_value = Ok x)
         (consumer_list all_nodes_df) ->
  exists v, write_substation_values_to_nodes_df all_nodes_df df_value = Ok v.
Proof.
  intro H. unfold write_substation_values_to_nodes_df.
  assert (Hs : exists t, sum_columns df_value (consumer_list all_nodes_df) = Ok t).
  { induction H as [|b bs [x Hx] _ [t Ht]]; simpl; [eauto|].
    rewrite Hx, Ht. simpl. eauto. }
  destruct Hs as [t ->]. cbn [bind].
  generalize (t / inject_Z (Z.of_nat (number_of_plants all_nodes_df))).
  intro c. unfold consumer_list in H.
  induction all_nodes_df as [|n nodes IH]; simpl; [eauto|].
  unfold node_value at 1. cbn [filter] in H.
  destruct (is_type "CONSUMER" n).
  - inversion H as [|? ? [x Hx] Hrest]; subst. rewrite Hx. cbn [bind].
    destruct (IH Hrest) as [v ->]. simpl. eauto.
  - destruct (IH H) as [v ->].
    destruct (is_type "PLANT" n); simpl; eauto.
Qed.

Lemma node_demands_sum_to_zero_witness :
  exists total,
    let p := inject_Z (Z.of_nat (number_of_plants ring_nodes)) in
    sum_columns [("B1"%string, 2); ("B2"%string, 3)] (consumer_list ring_nodes)
      = Ok total /\
    Forall2 (fun row x =>
               if is_type "CONSUMER" row
               then lookup (Building row) [("B1"%string, 2); ("B2"%string, 3)]
                    = Ok x
               else if is_type "PLANT" row then x = - (total / p)
               else x = 0)
            ring_nodes [-5; 2; 3] /\
    Qsum [-5; 2; 3] == 0 /\
    total == p * (total / p).
Proof.
  apply (node_demands_sum_to_zero ring_nodes
           [("B1"%string, 2); ("B2"%string, 3)] [-5; 2; 3]).
  - vm_compute. lia.
  - vm_compute. reflexivity.
Defined.

(** ** Pipe sizing *)

Lemma Qmax_list_spec (l : vector) (v : Q) :
  Qmax_list l = Some v -> In v l /\ Forall (fun x => x <= v) l.
Proof.
  revert v; induction l as [|x l IH]; intros v H; simpl in H; [discriminate|].
  destruct (Qmax_list l) as [y|] eqn:E.
  - destruct (IH y eq_refl) as [Hin Hall].
    destruct (Qle_bool y x) eqn:C; injection H as <-.
    + apply Qle_bool_iff in C. split; [now left|].
      constructor; [lra|]. eapply Forall_impl; [|exact Hall].
      intros a Ha. cbn beta in Ha. lra.
    + assert (x <= y).
      { destruct (Qlt_le_dec x y) as [Hl|Hl]; [lra|].
        apply Qle_bool_iff in Hl. congruence. }
      split; [now right|]. constructor; assumption.
  - injection H as <-. destruct l; [|simpl in E; destruct (Qmax_list l); discriminate].
    split; [now left|]. constructor; [lra|constructor].
Qed.

Lemma amax_abs_spec (values : vector) :
  values <> [] ->
  exists max_flow,
    amax_abs values = Ok max_flow /\ is_max_abs values max_flow.
Proof.
  intro Hne. unfold amax_abs.
  destruct (py_max_ok (map Qabs values)) as [mx Hmx].
  { destruct values; [congruence | discriminate]. }
  exists mx. split; [exact Hmx|].
  unfold py_max in Hmx. destruct (Qmax_list (map Qabs values)) as [v|] eqn:E;
    [|discriminate]. injection Hmx as <-.
  destruct (Qmax_list_spec _ _ E) as [Hin Hall]. split.
  - apply in_map_iff in Hin. destruct Hin as (x & Hx & Hin). eauto.
  - rewrite Forall_map in Hall. exact Hall.
Qed.

Lemma find_pipe_spec (max_flow : Q) (pipe_catalog : list pipe) :
  pipe_catalog <> [] ->
  exists p warned,
    find_pipe max_flow pipe_catalog = Ok (p, warned) /\
    (warned = false -> first_sufficient max_flow pipe_catalog p) /\
    (warned = true ->
       none_suffices max_flow pipe_catalog /\ last pipe_catalog p = p).
Proof.
  induction pipe_catalog as [|p rest IH]; intro Hne; [congruence|].
  cbn [find_pipe].
  destruct (Qle_bool max_flow (mdot_max_kgs p)) eqn:C.
  - apply Qle_bool_iff in C. exists p, false. split; [reflexivity|].
    split; [|discriminate]. intros _. exists [], rest. repeat split; auto.
  - assert (Hlt : mdot_max_kgs p < max_flow).
    { apply Qlt_bool_iff. unfold Qlt_bool. now rewrite C. }
    destruct rest as [|q rest'].
    + exists p, true. split; [reflexivity|]. split; [discriminate|].
      intros _. split; [|reflexivity]. repeat constructor. exact Hlt.
    + destruct (IH ltac:(discriminate)) as (p' & w & Hf & Hfirst & Hnone).
      exists p', w. split; [exact Hf|]. split.
      * intro Hw. destruct (Hfirst Hw) as (before & after & E & Hle & Hb).
        exists (p :: before), after. rewrite E. repeat split; auto.
      * intro Hw. destruct (Hnone Hw) as [Hn Hl]. split.
        -- constructor; assumption.
        -- exact Hl.
Qed.

Lemma first_sufficient_not_none max_flow pipe_catalog p :
  first_sufficient max_flow pipe_catalog p ->
  none_suffices max_flow pipe_catalog -> False.
Proof.
  intros (before & after & -> & Hle & _) Hn. unfold none_suffices in Hn.
  rewrite Forall_forall in Hn.
  specialize (Hn p ltac:(apply in_or_app; right; now left)). lra.
Qed.

Lemma first_sufficient_smallest max_flow pipe_catalog p :
  ordered_by_capacity pipe_catalog ->
  first_sufficient max_flow pipe_catalog p ->
  forall q, In q pipe_catalog -> max_flow <= mdot_max_kgs q ->
            mdot_max_kgs p <= mdot_max_kgs q.
Proof.
  intros Hord (before & after & -> & Hle & Hb) q Hq Hmq.
  induction before as [|b before IH]; simpl in *.
  - destruct Hord as [Hall _]. destruct Hq as [<-|Hq]; [lra|].
    rewrite Forall_forall in Hall. auto.
  - inversion Hb as [|? ? Hbq Hb']; subst.
    destruct Hord as [_ Hord]. destruct Hq as [<-|Hq]; [lra|]. auto.
Qed.

Lemma size_pipes_spec (pipe_catalog : list pipe) :
  pipe_catalog <> [] ->
  forall mass_flow_df i,
    Forall (fun values => values <> []) mass_flow_df ->
    exists props log,
      size_pipes pipe_catalog i mass_flow_df = Ok (props, log) /\
      Forall2 (sized pipe_catalog) mass_flow_df props /\
      (forall j, In (BiggerPipeRequired j) log <->
                 (i <= j)%nat /\ undersized pipe_catalog mass_flow_df (j - i)).
Proof.
  intros Hne. induction mass_flow_df as [|values rest IH]; intros i Hall.
  - exists [], []. split; [reflexivity|]. split; [constructor|].
    intro j. split; [intros []|].
    intros [_ (v & mx & Hnth & _)]. destruct (j - i)%nat; discriminate.
  - inversion Hall as [|? ? Hv Hrest]; subst.
    destruct (amax_abs_spec values Hv) as (mx & Hmx & Hmax).
    destruct (find_pipe_spec mx pipe_catalog Hne)
      as (p & w & Hf & Hfirst & Hnone).
    destruct (IH (S i) Hrest) as (props & log & Hs & HF & Hlog).
    cbn [size_pipes]. rewrite Hmx. cbn [bind]. rewrite Hf. cbn [bind].
    rewrite Hs. cbn [bind fst snd].
    eexists; eexists; split; [reflexivity|]. split.
    + constructor; [|exact HF]. exists mx.
      split; [exact Hmx|]. split; [exact Hmax|].
      destruct w; [right; auto | left; auto].
    + intro j. rewrite in_app_iff, Hlog. split.
      * intros [Hin|[Hle Hu]].
        -- destruct w; [|destruct Hin].
           destruct Hin as [E|[]]. injection E as <-.
           split; [lia|]. rewrite Nat.sub_diag.
           exists values, mx. repeat split; auto. now apply Hnone.
        -- split; [lia|]. destruct Hu as (v & m & Hnth & Ha & Hn).
           exists v, m. repeat split; auto.
           replace (j - i)%nat with (S (j - S i)) by lia. exact Hnth.
      * intros [Hle (v & m & Hnth & Ha & Hn)].
        destruct (Nat.eq_dec j i) as [->|Hji].
        -- left. rewrite Nat.sub_diag in Hnth. injection Hnth as <-.
           rewrite Hmx in Ha. injection Ha as <-.
           destruct w; [now left|].
           exfalso. eapply first_sufficient_not_none; eauto.
        -- right. split; [lia|]. exists v, m. repeat split; auto.
           replace (j - i)%nat with (S (j - S i)) in Hnth by lia. exact Hnth.
Qed.

(** C7: in sizing mode, with a catalog that has a record and flows over a
    horizon that has a time step, [assign_pipes_to_edges] returns; every
    edge gets the first record of the catalog whose maximum rated mass
    flow covers the edge's largest absolute flow (the smallest such record
    when the catalog is ordered by capacity), or the last record when none
    does, and the warning is printed for exactly those edges. *)
Theorem sizing_assigns_first_sufficient (ext : externals)
    (mass_flow_df : list vector) (edge_df_Pipe_DN : list string)
    (catalog : list pipe) :
  catalog <> [] ->
  Forall (fun values => values <> []) mass_flow_df ->
  let pipe_catalog := map (with_mass_flows ext) catalog in
  exists props log,
    assign_pipes_to_edges ext mass_flow_df true edge_df_Pipe_DN catalog
      = Ok (props, log) /\
    Forall2 (sized pipe_catalog) mass_flow_df props /\
    (forall j, In (BiggerPipeRequired j) log <->
               undersized pipe_catalog mass_flow_df j) /\
    (ordered_by_capacity pipe_catalog ->
     forall max_flow p q,
       first_sufficient max_flow pipe_catalog p ->
       In q pipe_catalog -> max_flow <= mdot_max_kgs q ->
       mdot_max_kgs p <= mdot_max_kgs q).
Proof.
  intros Hne Hall pipe_catalog.
  assert (Hne' : pipe_catalog <> []).
  { unfold pipe_catalog. destruct catalog; [congruence | discriminate]. }
  destruct (size_pipes_spec pipe_catalog Hne' mass_flow_df O Hall)
    as (props & log & Hs & HF & Hlog).
  exists props, log. unfold assign_pipes_to_edges. fold pipe_catalog.
  split; [exact Hs|]. split; [exact HF|]. split.
  - intro j. rewrite Hlog, Nat.sub_0_r. split; [tauto|]. split; [lia|auto].
  - intros Hord mx p q Hp. eapply first_sufficient_smallest; eauto.
Qed.

Lemma sizing_assigns_first_sufficient_witness :
  let pipe_catalog := map (with_mass_flows (sample_externals [] [])) sample_catalog in
  exists props log,
    assign_pipes_to_edges (sample_externals [] []) [[1; -3]; [100]] true []
                          sample_catalog = Ok (props, log) /\
    Forall2 (sized pipe_catalog) [[1; -3]; [100]] props /\
    (forall j, In (BiggerPipeRequired j) log <->
               undersized pipe_catalog [[1; -3]; [100]] j) /\
    (ordered_by_capacity pipe_catalog ->
     forall max_flow p q,
       first_sufficient max_flow pipe_catalog p ->
       In q pipe_catalog -> max_flow <= mdot_max_kgs q ->
       mdot_max_kgs p <= mdot_max_kgs q).
Proof.
  apply (sizing_assigns_first_sufficient (sample_externals [] [])
           [[1; -3]; [100]] [] sample_catalog).
  - discriminate.
  - repeat constructor; discriminate.
Defined.

(** ** Columns of the edge-node matrix *)

Lemma column_edge_node_matrix (list_nodes : list string) (edges : list edge)
    (j : nat) (e : edge) :
  nth_error edges j = Some e ->
  column (edge_node_matrix list_nodes edges) j
  = map (fun n => incidence n e) list_nodes.
Proof.
  intro H. unfold column, edge_node_matrix. rewrite map_map.
  apply map_ext. intro n.
  apply nth_error_nth. rewrite nth_error_map, H. reflexivity.
Qed.

Lemma count_occ_none (f : string -> Z) (z : Z) (l : list string) :
  (forall n, f n <> z) -> count_occ Z.eq_dec (map f l) z = 0%nat.
Proof.
  intro H. induction l as [|n l IH]; simpl; [reflexivity|].
  destruct (Z.eq_dec (f n) z); [now destruct (H n) | exact IH].
Qed.

Lemma count_occ_absent (f : string -> Z) (z : Z) (a : string) (l : list string) :
  (forall n, f n = z <-> n = a) -> ~ In a l ->
  count_occ Z.eq_dec (map f l) z = 0%nat.
Proof.
  intros H Hin. induction l as [|n l IH]; simpl; [reflexivity|].
  destruct (Z.eq_dec (f n) z) as [E|E].
  - apply H in E. subst. exfalso. apply Hin. now left.
  - apply IH. intro Hl. apply Hin. now right.
Qed.

Lemma count_occ_unique (f : string -> Z) (z : Z) (a : string) (l : list string) :
  (forall n, f n = z <-> n = a) -> NoDup l -> In a l ->
  count_occ Z.eq_dec (map f l) z = 1%nat.
Proof.
  intros H Hnd Hin. induction l as [|n l IH]; simpl; [destruct Hin|].
  inversion Hnd as [|? ? Hn Hnd']; subst.
  destruct (Z.eq_dec (f n) z) as [E|E].
  - apply H in E. subst. f_equal. now apply (count_occ_absent f z a).
  - destruct Hin as [->|Hin]; [exfalso; apply E; now apply H|]. auto.
Qed.

Lemma incidence_plus (e : edge) (n : string) :
  incidence n e = 1%Z <-> n = end_node e.
Proof.
  unfold incidence. destruct (String.eqb (end_node e) n) eqn:E1.
  - apply String.eqb_eq in E1. split; auto.
  - apply String.eqb_neq in E1.
    destruct (String.eqb (start_node e) n); split; try discriminate;
      intro; subst; congruence.
Qed.

Lemma incidence_minus (e : edge) (n : string) :
  incidence n e = (-1)%Z <-> n = start_node e /\ start_node e <> end_node e.
Proof.
  unfold incidence. destruct (String.eqb (end_node e) n) eqn:E1.
  - apply String.eqb_eq in E1. split; [discriminate|].
    intros [-> Hne]. congruence.
  - apply String.eqb_neq in E1.
    destruct (String.eqb (start_node e) n) eqn:E2.
    + apply String.eqb_eq in E2. split; auto. intros _. split; congruence.
    + apply String.eqb_neq in E2. split; [discriminate|].
      intros [-> _]. congruence.
Qed.

Lemma incidence_column_well_formed (list_nodes : list string) (e : edge) :
  NoDup list_nodes ->
  (column_well_formed (map (fun n => incidence n e) list_nodes)
   <-> edge_well_formed list_nodes e).
Proof.
  intro Hnd. unfold column_well_formed, edge_well_formed. split.
  - intros [Hp Hm].
    destruct (in_dec string_dec (end_node e) list_nodes) as [He|He].
    2:{ rewrite (count_occ_absent _ 1%Z (end_node e)) in Hp;
          [discriminate | apply incidence_plus | exact He]. }
    destruct (string_dec (start_node e) (end_node e)) as [Eq|Ne].
    { rewrite count_occ_none in Hm; [discriminate|].
      intros n Hn. apply incidence_minus in Hn. tauto. }
    destruct (in_dec string_dec (start_node e) list_nodes) as [Hs|Hs]; [tauto|].
    rewrite (count_occ_absent _ (-1)%Z (start_node e)) in Hm;
      [discriminate | | exact Hs].
    intro n. rewrite incidence_minus. tauto.
  - intros (Hs & He & Hne). split.
    + apply (count_occ_unique _ 1%Z (end_node e)); auto.
      apply incidence_plus.
    + apply (count_occ_unique _ (-1)%Z (start_node e)); auto.
      intro n. rewrite incidence_minus. tauto.
Qed.

Lemma duplicated_nil_NoDup (names : list string) :
  duplicated names = [] -> NoDup names.
Proof.
  unfold duplicated. intro H.
  assert (Hall : forall n, In n names -> (count_occ string_dec names n <= 1)%nat).
  { intros n Hn.
    destruct (Nat.ltb 1 (count_occ string_dec names n)) eqn:E.
    - assert (Hin : In n (filter (fun n => Nat.ltb 1 (count_occ string_dec names n))
                                 names)) by (apply filter_In; auto).
      rewrite H in Hin. destruct Hin.
    - apply Nat.ltb_ge in E. exact E. }
  apply (NoDup_count_occ' string_dec). intros n Hn.
  specialize (Hall n Hn).
  apply (count_occ_In string_dec) in Hn. lia.
Qed.

(** C8, as stated, fails: a pipe whose start node matches no node is
    accepted by both readers, and the matrix they return has a column
    without [-1]; so is a pipe that starts where it ends. *)
Lemma malformed_column_counterexample :
  (exists M nodes edges,
     get_thermal_network_from_csv
       [ {| DC_ID := "J0"; Plant := 1; Sink := 0; csv_Name := "P" |};
         {| DC_ID := "J1"; Plant := 0; Sink := 1; csv_Name := "B1" |} ]
       [ {| start_node := "J7"; end_node := "J1" |} ]
     = Ok (M, nodes, edges) /\
     ~ column_well_formed (column M 0)) /\
  (exists M,
     first_edge_node_matrix ["NODE0"; "NODE1"]%string ["PIPE0"]%string
       [ {| start_node := ""; end_node := "NODE1" |} ] = Ok M /\
     ~ column_well_formed (column M 0)) /\
  (exists M,
     first_edge_node_matrix ["NODE0"; "NODE1"]%string ["PIPE0"]%string
       [ {| start_node := "NODE1"; end_node := "NODE1" |} ] = Ok M /\
     ~ column_well_formed (column M 0)).
Proof.
  split; [|split].
  - eexists; eexists; eexists. split; [reflexivity|].
    intros [_ H]. vm_compute in H. discriminate.
  - eexists. split; [reflexivity|].
    intros [_ H]. vm_compute in H. discriminate.
  - eexists. split; [reflexivity|].
    intros [_ H]. vm_compute in H. discriminate.
Qed.

(** C8 (amended): when the node names are distinct, the column of an edge
    in the matrix built from the topology input has exactly one [+1] and
    exactly one [-1] if and only if the start and the end of the edge are
    two different nodes of the table; no error is raised otherwise. *)
Theorem edge_node_matrix_column_invariant (names : list string)
    (edge_df : list edge) (M : matrix) (j : nat) (e : edge) :
  built_from_topology names edge_df M ->
  nth_error edge_df j = Some e ->
  (column_well_formed (column M j) <-> edge_well_formed names e).
Proof.
  intros [(node_df & nodes & <- & Hnd & H) | (edge_names & H)] Hj.
  - unfold get_thermal_network_from_csv in H. injection H as <- _.
    rewrite (column_edge_node_matrix _ _ _ _ Hj).
    now apply incidence_column_well_formed.
  - unfold first_edge_node_matrix in H.
    destruct (duplicated names) eqn:Dn; [|discriminate].
    destruct (duplicated edge_names); [|discriminate].
    injection H as <-.
    rewrite (column_edge_node_matrix _ _ _ _ Hj).
    apply incidence_column_well_formed. now apply duplicated_nil_NoDup.
Qed.

Lemma edge_node_matrix_column_invariant_witness :
  column_well_formed (column one_pipe 0)
  <-> edge_well_formed ["NODE0"; "NODE1"]%string
        {| start_node := "NODE0"; end_node := "NODE1" |}.
Proof.
  apply (edge_node_matrix_column_invariant
           ["NODE0"; "NODE1"]%string
           [ {| start_node := "NODE0"; end_node := "NODE1" |} ]
           one_pipe 0%nat).
  - right. exists ["PIPE0"%string]. reflexivity.
  - reflexivity.
Defined.

(** ** The short cut for a time step without flow *)

Lemma fsum_abs_zero (l : list float) :
  Forall is_zero l -> exists q, fsum (map fabs l) = Fin q /\ q == 0.
Proof.
  induction 1 as [|x l (q & -> & Hq) _ (s & Hs & Hs0)]; simpl.
  - exists 0. split; reflexivity.
  - rewrite Hs. simpl. eexists; split; [reflexivity|].
    rewrite Hq, Hs0. reflexivity.
Qed.

(** C9: for a time step whose edge mass flows are all zero,
    [solve_network_temperatures] does not enter the coupled solver and
    returns NaN for the supply and return temperature of every node, zero
    heat loss for every edge, zero heat requirement for every plant, and
    the edge mass flows it was given. *)
Theorem zero_flow_short_cut (coupled : result network_temperatures)
    (edge_node_df : matrix) (all_nodes_df : list node)
    (edge_mass_flow_df : list float) :
  Forall is_zero edge_mass_flow_df ->
  solve_network_temperatures coupled edge_node_df all_nodes_df edge_mass_flow_df
  = Ok {| t_supply_nodes_2__k := repeat NaN (length edge_node_df);
          t_return_nodes_2__k := repeat NaN (length edge_node_df);
          plant_heat_requirement_kw :=
            repeat (Fin 0) (number_of_plants all_nodes_df);
          edge_mass_flow_df_2_kgs := edge_mass_flow_df;
          q_loss_edges_2_kw := repeat (Fin 0) (n_edges edge_node_df) |}.
Proof.
  intro H. unfold solve_network_temperatures.
  destruct (fsum_abs_zero _ H) as (q & -> & Hq).
  unfold fneb, feqb. apply Qeq_bool_iff in Hq. rewrite Hq. reflexivity.
Qed.

Lemma zero_flow_short_cut_witness :
  solve_network_temperatures (Raise ValueError) ring ring_nodes
    [Fin 0; Fin 0; Fin 0]
  = Ok {| t_supply_nodes_2__k := [NaN; NaN; NaN];
          t_return_nodes_2__k := [NaN; NaN; NaN];
          plant_heat_requirement_kw := [Fin 0];
          edge_mass_flow_df_2_kgs := [Fin 0; Fin 0; Fin 0];
          q_loss_edges_2_kw := [Fin 0; Fin 0; Fin 0] |}.
Proof.
  apply (zero_flow_short_cut (Raise ValueError) ring ring_nodes
           [Fin 0; Fin 0; Fin 0]).
  repeat constructor; exists 0; split; reflexivity.
Defined.

(** ** Mixing at a node: the branch ends *)

(** C6 fails at a consumer fed by two pipes and feeding none: two plants at
    363 K feed node 2 through pipes that carry 2 kg/s each and deliver
    355 K and 359 K.  [calculate_outflow_temp] gives the node the hottest
    inflow, 359 K; the flow-weighted mean is 357 K. *)
Lemma branch_end_takes_hottest_inflow :
  let ext := sample_externals [] [] in
  let m_d := [Fin 2; Fin 2] in
  let k := [Fin (837 # 950); Fin (279 # 650)] in
  exists st1 st2,
    plant_starts ext two_feeds m_d k (Fin 283) (Fin 363) two_plants
                 [0; 1; 2]%nat (reset_state two_feeds [true; true; true])
      = Ok st1 /\
    feqb (nth 0 (frow (t_e_out st1) 2) NaN) (Fin 355) = true /\
    feqb (nth 1 (frow (t_e_out st1) 2) NaN) (Fin 359) = true /\
    calculate_outflow_temp ext two_feeds (clip_min0 two_feeds) m_d k
                           (Fin 283) st1 = Ok st2 /\
    feqb (nth 2 (t_node st2) NaN) (Fin 359) = true /\
    (2 * 355 + 2 * 359) / (2 + 2) == 357.
Proof.
  cbv zeta. eexists; eexists.
  split; [vm_compute; reflexivity|].
  split; [vm_compute; reflexivity|].
  split; [vm_compute; reflexivity|].
  split; [vm_compute; reflexivity|].
  split; [vm_compute; reflexivity|].
  reflexivity.
Qed.

(** ** The search for the plant temperature *)



Lemma temperature_gaps_in (t_node t_target : list float) (pos : nat) (d : float) :
  In (pos, d) (temperature_gaps t_node t_target) ->
  (pos < length t_node)%nat /\ (pos < length t_target)%nat /\ is_nan d = false.
Proof.
  unfold temperature_gaps. intro H. apply filter_In in H as [H Hn].
  simpl in Hn. apply negb_true_iff in Hn.
  apply in_combine_l in H. apply in_seq in H.
  assert (L : forall (u v : list float),
             length (zip_with (fun t c => fsub t (kelvin c)) u v)
             = Nat.min (length u) (length v)).
  { induction u as [|a u IH]; intros [|b v]; simpl; auto. }
  rewrite L in H. repeat split; try lia. exact Hn.
Qed.





(** one turn of the search, read by the type of network *)
Lemma search_step ext z m_d k t_ground t_target network_type all_nodes_df
    budget fuel t_plant_sup_0 t_plant_sup iteration log pass :
  supply_pass ext z m_d k t_ground all_nodes_df budget t_plant_sup = Ok pass ->
  let d_t := temperature_gaps (t_node (fst pass)) t_target in
  let search := plant_temperature_search ext z m_d k t_ground t_target
                  network_type all_nodes_df budget fuel t_plant_sup_0 in
  let node_insufficient :=
    map fst (filter (fun ix : nat * float => deficient network_type (snd ix))
                    d_t) in
  let finish t_node' log' :=
    Ok {| sr_t_node := t_node'; sr_plant_node := snd pass;
          sr_state := fst pass; sr_t_plant_sup := t_plant_sup;
          sr_iteration := iteration; sr_log := log' |} in
  plant_temperature_search ext z m_d k t_ground t_target network_type
    all_nodes_df budget (S fuel) t_plant_sup_0 t_plant_sup iteration log
  = if unmet network_type d_t
       && fltb (drift network_type t_plant_sup_0 t_plant_sup)
               (drift_bound network_type)
    then search (next_plant_temperature network_type t_plant_sup d_t)
                (S iteration) log
    else if unmet network_type d_t
            && fgeb (drift network_type t_plant_sup_0 t_plant_sup)
                    (drift_bound network_type)
    then do forced <- force_targets node_insufficient t_target
                                    (t_node (fst pass));
         if negb (String.eqb network_type "DH")
            && match node_insufficient with [] => true | _ :: _ => false end
         then search t_plant_sup iteration (log ++ [CannotFulfill iteration])
         else finish forced (log ++ [CannotFulfill iteration])
    else finish (t_node (fst pass)) log.
Proof.
  intro H. cbv zeta. cbn [plant_temperature_search]. rewrite H. cbn [bind].
  unfold unmet, drift, drift_bound, deficient, next_plant_temperature.
  destruct (String.eqb network_type "DH"); cbv zeta.
  - cbn [negb andb]. reflexivity.
  - cbn [negb andb].
    destruct (map fst (filter (fun ix : nat * float => fgtb (snd ix) (Fin 0))
                (temperature_gaps (t_node (fst pass)) t_target)));
      reflexivity.
Qed.



Section plant_search.

Variables (ext : externals) (z : matrix) (m_d k : list float)
  (t_ground : float) (t_target : list float) (network_type : string)
  (all_nodes_df : list node) (budget : nat).

Local Abbreviation pass_at :=
  (supply_pass ext z m_d k t_ground all_nodes_df budget).
Local Abbreviation search :=
  (plant_temperature_search ext z m_d k t_ground t_target
     network_type all_nodes_df budget).

Lemma search_fails_with_pass fuel t0 t it log r :
  search (S fuel) t0 t it log = Ok r -> exists pass, pass_at t = Ok pass.
Proof.
  cbn [plant_temperature_search].
  destruct (supply_pass ext z m_d k t_ground all_nodes_df budget t);
    simpl; try discriminate. eauto.
Qed.



End plant_search.



(** ** Mixing at a node: the nodes with an outgoing pipe *)

Lemma fsum_Fin (l : list Q) : fsum (map Fin l) = Fin (Qsum l).
Proof.
  induction l as [|x l IH]; simpl; [reflexivity|]. now rewrite IH.
Qed.

Lemma dot_m_d_sum_finite (ms vs : list Q) :
  dot_m_d_sum (map Fin ms) (map Fin vs) = Fin (dot_m_d_sum_Q ms vs).
Proof.
  unfold dot_m_d_sum, dot_m_d_sum_Q. rewrite !length_map.
  rewrite <- fsum_Fin, map_map. f_equal. apply map_ext. intro i.
  rewrite <- fsum_Fin, map_map. f_equal.
  assert (E : combine (seq 0 (length vs)) (map Fin vs)
              = map (fun kv : nat * Q => (fst kv, Fin (snd kv)))
                    (combine (seq 0 (length vs)) vs)).
  { generalize 0%nat. induction vs as [|v vs IH]; intro a; simpl;
      [reflexivity|]. now rewrite IH. }
  rewrite E, map_map. apply map_ext. intros [kk v]. simpl.
  unfold m_d_entry. destruct (Nat.eqb i kk); [|reflexivity].
  change (Fin 0) with (Fin (0 : Q)). rewrite map_nth. reflexivity.
Qed.

Lemma Qsum_ext {A} (f g : A -> Q) (l : list A) :
  (forall x, In x l -> f x == g x) -> Qsum (map f l) == Qsum (map g l).
Proof.
  induction l as [|x l IH]; intro H; simpl; [reflexivity|].
  rewrite (H x (or_introl eq_refl)), IH; [reflexivity|].
  intros y Hy. apply H. now right.
Qed.

Lemma Qsum_zero {A} (f : A -> Q) (l : list A) :
  (forall x, In x l -> f x == 0) -> Qsum (map f l) == 0.
Proof.
  induction l as [|x l IH]; intro H; simpl; [reflexivity|].
  rewrite (H x (or_introl eq_refl)), IH; [ring|].
  intros y Hy. apply H. now right.
Qed.

Lemma combine_seq_shift {A} (l : list A) (a : nat) :
  combine (seq (S a) (length l)) l
  = map (fun kv : nat * A => (S (fst kv), snd kv)) (combine (seq a (length l)) l).
Proof.
  revert a; induction l as [|x l IH]; intro a; simpl; [reflexivity|].
  now rewrite IH.
Qed.

Lemma inner_head (m v : Q) (ms vs : list Q) :
  Qsum (map (fun kv : nat * Q =>
               (if Nat.eqb 0 (fst kv) then nth 0 (m :: ms) 0 else 0) * snd kv)
            (combine (seq 0 (length (v :: vs))) (v :: vs)))
  == m * v.
Proof.
  cbn [length seq combine map Qsum fst snd].
  change (Nat.eqb 0 0) with true. cbn [nth].
  rewrite Qsum_zero; [ring|].
  intros [kk x] Hin. apply in_combine_l in Hin. apply in_seq in Hin.
  cbn [fst snd]. destruct kk; [lia|]. cbn [Nat.eqb]. ring.
Qed.

Lemma inner_tail (m v : Q) (ms vs : list Q) (i : nat) :
  Qsum (map (fun kv : nat * Q =>
               (if Nat.eqb (S i) (fst kv) then nth (S i) (m :: ms) 0 else 0)
               * snd kv)
            (combine (seq 0 (length (v :: vs))) (v :: vs)))
  == Qsum (map (fun kv : nat * Q =>
                  (if Nat.eqb i (fst kv) then nth i ms 0 else 0) * snd kv)
               (combine (seq 0 (length vs)) vs)).
Proof.
  cbn [length seq combine map Qsum fst snd].
  change (Nat.eqb (S i) 0) with false.
  rewrite combine_seq_shift, map_map.
  rewrite (Qsum_ext _ (fun kv : nat * Q =>
                         (if Nat.eqb i (fst kv) then nth i ms 0 else 0) * snd kv)).
  - ring.
  - intros [kk x] _. reflexivity.
Qed.

Lemma dot_m_d_sum_Q_dot (ms vs : list Q) : dot_m_d_sum_Q ms vs == dot ms vs.
Proof.
  revert vs; induction ms as [|m ms IH]; intro vs.
  - reflexivity.
  - destruct vs as [|v vs].
    + unfold dot_m_d_sum_Q. simpl combine. simpl dot.
      apply Qsum_zero. intros; reflexivity.
    + specialize (IH vs). unfold dot_m_d_sum_Q in *.
      change (seq 0 (length (m :: ms))) with (0%nat :: seq 1 (length ms)).
      rewrite map_cons. cbn [Qsum dot].
      rewrite inner_head, <- seq_shift, map_map.
      rewrite (Qsum_ext _ _ _ (fun i _ => inner_tail m v ms vs i)).
      rewrite IH. reflexivity.
Qed.

(** X24: [calculate_outflow_temp] at a node whose inflows are all known and
    which still has a pipe to feed: the node temperature is the sum of
    mass flow times outlet temperature over the sum of the mass flows of
    the incoming pipes. *)
Lemma outflow_node_mixes ext z z_pipe_out k t_ground st j st'
    (ms vs : list Q) (zs : list Z) :
  count_occ Z.eq_dec (zrow (z_note st) j) 1%Z = 0%nat ->
  count_occ Z.eq_dec (zrow (z_note st) j) 0%Z <> n_edges z ->
  frow (t_e_out st) j = map Fin vs ->
  zrow z_pipe_out j = zs ->
  ~ dot ms (row_Q zs) == 0 ->
  outflow_node ext z z_pipe_out (map Fin ms) k t_ground st j = Ok st' ->
  exists q,
    t_node st' = update (t_node st) j (fun _ => Fin q) /\
    q == dot ms vs / dot ms (row_Q zs).
Proof.
  intros H1 H0 Hv Hz Hne H. unfold outflow_node in H.
  rewrite H1 in H. apply Nat.eqb_neq in H0. rewrite H0 in H.
  cbn [Nat.eqb negb andb] in H. bind_inv H as out Hout. injection H as <-.
  cbn [t_node]. rewrite Hv, Hz.
  replace (map of_Z zs) with (map Fin (row_Q zs))
    by (unfold row_Q; rewrite map_map; reflexivity).
  rewrite !dot_m_d_sum_finite. cbn [fdiv].
  destruct (Qeq_bool (dot_m_d_sum_Q ms (row_Q zs)) 0) eqn:E.
  - apply Qeq_bool_iff in E. rewrite dot_m_d_sum_Q_dot in E. contradiction.
  - eexists. split; [reflexivity|].
    rewrite !dot_m_d_sum_Q_dot. reflexivity.
Qed.

(** ** The loop correction inside [calc_mass_flow_edges] *)

(** on a looped network whose loops resolve, the flows before rounding are
    those the correction loop is left with *)
Lemma solve_mass_flow_looped ext A demand nodes D L T plant_index :
  let loops := fst (find_loops ext A) in
  let g := snd (find_loops ext A) in
  let m0 := linalg_lstsq ext (map row_Q (reduced_matrix plant_index A))
                         (reduced_demand plant_index demand) in
  loops <> [] ->
  first_plant nodes = Ok plant_index ->
  length D = length m0 -> length L = length m0 -> length T = length m0 ->
  loops_resolve A g (length m0) loops = true ->
  exists st,
    solve_mass_flow ext A demand nodes D L T
    = Ok {| sf_mass_flow_edge := hc_mass_flow_edge st;
            sf_sum_delta_m_num := hc_sum_delta_m_num st;
            sf_log := hc_log st |} /\
    (hc_iterations st <= 100)%nat /\ left_properly st.
Proof.
  cbv zeta. intros Hne Hp HD HL HT Hr.
  destruct (hardy_cross_run ext A (snd (find_loops ext A))
              (fst (find_loops ext A)) D L T _ HD HL HT Hr 100 O
              (linalg_lstsq ext (map row_Q (reduced_matrix plant_index A))
                            (reduced_demand plant_index demand))
              (zip_with Qminus
                 (linalg_lstsq ext (map row_Q (reduced_matrix plant_index A))
                               (reduced_demand plant_index demand))
                 (linalg_lstsq ext (map row_Q (reduced_matrix plant_index A))
                               (reduced_demand plant_index demand)))
              (map (fun _ => 0) (fst (find_loops ext A))))
    as (st & Hst & Hit & _ & Hleft); try lia; try reflexivity.
  exists st. split; [|split; [lia | exact Hleft]].
  unfold solve_mass_flow. unfold find_loops in *. cbn [fst snd] in *.
  destruct (cycle_basis ext (build_graph A)) as [|loop loops];
    [congruence|].
  rewrite Hp. cbn [bind].
  change (tolerance_schedule 0) with 0.01 in Hst. rewrite Hst. reflexivity.
Qed.

(** ** The weight of a row of an incidence matrix *)

(** with entries in {-1, 0, 1} the weight of a row counts the edges at the
    node *)
Lemma row_weight_counts_edges (row : list Z) :
  Forall (fun z => z = (-1)%Z \/ z = 0%Z \/ z = 1%Z) row ->
  row_weight row
  == inject_Z (Z.of_nat (length (filter (fun z => negb (Z.eqb z 0)) row))).
Proof.
  unfold row_weight. intro H. induction H as [|z row Hz _ IH]; [reflexivity|].
  cbn [map Qsum filter]. rewrite IH.
  destruct Hz as [Hz|[Hz|Hz]]; subst z; cbn [Z.eqb negb length];
    try rewrite Nat2Z.inj_succ, <- Z.add_1_r, inject_Z_plus;
    change (inject_Z 1) with 1;
    change (Qabs (inject_Z (-1))) with 1;
    change (Qabs (inject_Z 0)) with 0;
    change (Qabs 1) with 1; ring.
Qed.

(* ================================================================== *)
(** * Part III: further properties of the code *)
(* ================================================================== *)

(** ** Pressure loss without flow *)

Lemma calc_reynolds_no_flow ext (m t d : Q) :
  m == 0 -> calc_reynolds ext m t d == 0.
Proof.
  intro H. unfold calc_reynolds. rewrite H.
  change (Qabs 0) with 0. unfold Qdiv. ring.
Qed.

Lemma calc_darcy_still ext (d reynolds : Q) :
  reynolds <= 1 -> calc_darcy ext d reynolds = 0.
Proof.
  intro H. unfold calc_darcy. apply Qle_bool_iff in H. now rewrite H.
Qed.

(** X1: a pipe without flow has no pressure loss and no derivative of the
    pressure loss, whatever its length and temperature: the Reynolds number
    is 0, the friction factor of [calc_darcy] is 0, and the loss is 0 over
    a denominator that is not 0. *)
Theorem no_flow_no_pressure_loss ext (loop_type : nat) (d l m t : Q) :
  m == 0 ->
  ~ math_pi ext ^ 2 * d ^ 5 * rho_60 ext == 0 ->
  calc_reynolds ext m t d == 0 /\
  calc_darcy ext d (calc_reynolds ext m t d) = 0 /\
  pressure_loss_edge ext loop_type d l m t == 0.
Proof.
  intros H Hden. pose proof (calc_reynolds_no_flow ext m t d H) as Hr.
  assert (Hd : calc_darcy ext d (calc_reynolds ext m t d) = 0).
  { apply calc_darcy_still. rewrite Hr. discriminate. }
  split; [exact Hr|]. split; [exact Hd|].
  unfold pressure_loss_edge. rewrite Hd.
  destruct (Nat.eqb loop_type 1); unfold Qdiv; ring.
Qed.

Lemma no_flow_no_pressure_loss_witness :
  calc_reynolds (sample_externals [] []) 0 353 0.1 == 0 /\
  calc_darcy (sample_externals [] []) 0.1
             (calc_reynolds (sample_externals [] []) 0 353 0.1) = 0 /\
  pressure_loss_edge (sample_externals [] []) 2 0.1 100 0 353 == 0.
Proof.
  apply (no_flow_no_pressure_loss (sample_externals [] []) 2 0.1 100 0 353).
  - reflexivity.
  - vm_compute. discriminate.
Defined.

(** ** Networks [calc_mass_flow_edges] cannot solve *)

Lemma find_index_none {A} (f : A -> bool) (l : list A) :
  Forall (fun x => f x = false) l -> find_index f l = None.
Proof.
  induction 1 as [|x l Hx _ IH]; [reflexivity|].
  cbn [find_index]. now rewrite Hx, IH.
Qed.

(** X2: without a node of type PLANT there is no first plant, and
    [calc_mass_flow_edges] raises [IndexError], with or without loops. *)
Theorem calc_mass_flow_edges_without_plant ext A demand nodes D L T :
  Forall (fun n => is_type "PLANT" n = false) nodes ->
  calc_mass_flow_edges ext A demand nodes D L T = Raise IndexError.
Proof.
  intro H. apply find_index_none in H.
  unfold calc_mass_flow_edges, calc_mass_flow_edges_log, solve_mass_flow,
    find_loops, first_plant.
  rewrite H. now destruct (cycle_basis ext (build_graph A)).
Qed.

Lemma calc_mass_flow_edges_without_plant_witness :
  calc_mass_flow_edges (sample_externals [] []) one_pipe [Fin 5; Fin 5]
    [ {| Name := "NODE0"; Building := "B0"; Type_ := "CONSUMER" |};
      {| Name := "NODE1"; Building := "B1"; Type_ := "CONSUMER" |} ]
    [0.1] [100] [353]
  = Raise IndexError.
Proof.
  apply calc_mass_flow_edges_without_plant.
  repeat constructor.
Defined.

Lemma delete_length {A} (l : list A) :
  forall i, (i < length l)%nat -> S (length (delete i l)) = length l.
Proof.
  induction l as [|x l IH]; intros i Hi; [simpl in Hi; lia|].
  destruct i; [reflexivity|]. cbn [delete length] in *.
  rewrite IH by lia. reflexivity.
Qed.

Lemma delete_In {A} (l : list A) (x : A) :
  forall i, In x (delete i l) -> In x l.
Proof.
  induction l as [|y l IH]; intros i H; [destruct i; exact H|].
  destruct i; [now right|]. destruct H as [H|H]; [now left|].
  right. exact (IH _ H).
Qed.

(** X3: on a network without loops whose number of edges is not the number
    of nodes minus one (a forest of several trees, or edges missing from
    the table), the reduced system is not square and
    [calc_mass_flow_edges] raises [LinAlgError]. *)
Theorem calc_mass_flow_edges_not_a_tree ext A demand nodes D L T plant_index e :
  fst (find_loops ext A) = [] ->
  first_plant nodes = Ok plant_index ->
  (plant_index < length A)%nat ->
  (2 <= length A)%nat ->
  Forall (fun row => length row = e) A ->
  (S e <> length A)%nat ->
  calc_mass_flow_edges ext A demand nodes D L T = Raise LinAlgError.
Proof.
  intros Hloops Hp Hi Hn Hrows He.
  unfold calc_mass_flow_edges, calc_mass_flow_edges_log, solve_mass_flow.
  unfold find_loops in *. cbn [fst] in Hloops. rewrite Hloops, Hp.
  cbn [bind]. unfold linalg_solve.
  assert (Hsq : is_square (map row_Q (reduced_matrix plant_index A)) = false).
  { unfold is_square, reduced_matrix. rewrite length_map.
    pose proof (delete_length A plant_index Hi) as Hlen.
    destruct (delete plant_index A) as [|row rest] eqn:E;
      [simpl in Hlen; lia|].
    cbn [map forallb]. unfold row_Q at 1. rewrite length_map.
    assert (Hrow : length row = e).
    { rewrite Forall_forall in Hrows. apply Hrows.
      apply (delete_In A row plant_index). rewrite E. now left. }
    rewrite Hrow.
    destruct (Nat.eqb e (length (row :: rest))) eqn:Eq; [|reflexivity].
    apply Nat.eqb_eq in Eq. lia. }
  rewrite Hsq. reflexivity.
Qed.

Lemma calc_mass_flow_edges_not_a_tree_witness :
  calc_mass_flow_edges (sample_externals [] []) [ [-1]%Z; [1]%Z; [0]%Z ]
    [Fin (-5); Fin 5; Fin 0] ring_nodes [0.1] [100] [353]
  = Raise LinAlgError.
Proof.
  apply (calc_mass_flow_edges_not_a_tree (sample_externals [] [])
           [ [-1]%Z; [1]%Z; [0]%Z ] [Fin (-5); Fin 5; Fin 0] ring_nodes
           [0.1] [100] [353] 0%nat 1%nat).
  - reflexivity.
  - reflexivity.
  - simpl; lia.
  - simpl; lia.
  - repeat constructor.
  - simpl; lia.
Defined.

(** ** When the thermal solver is entered *)

Lemma fsum_abs_cases (l : list float) :
  fsum (map fabs l) = NaN \/ fsum (map fabs l) = PInf \/
  exists q, fsum (map fabs l) = Fin q /\ 0 <= q /\
            (q == 0 -> Forall is_zero l).
Proof.
  induction l as [|x l IH].
  - right; right. exists 0.
    split; [reflexivity|]. split; [discriminate | constructor].
  - cbn [map fsum].
    destruct IH as [IH|[IH|(q & IH & Hq & Hz)]]; rewrite IH.
    + left. now destruct (fabs x).
    + destruct x; cbn; auto.
    + destruct x as [a| | |]; cbn; auto.
      right; right. exists (Qabs a + q). split; [reflexivity|].
      pose proof (Qabs_nonneg a) as Ha.
      split; [lra|]. intro H0.
      assert (Ha0 : Qabs a == 0) by lra.
      assert (Hq0 : q == 0) by lra.
      constructor; [|exact (Hz Hq0)].
      exists a. split; [reflexivity|].
      pose proof (Qle_Qabs a) as H1. pose proof (Qle_Qabs (- a)) as H2.
      rewrite Qabs_opp in H2. lra.
Qed.

(** X4: as soon as one edge carries a flow that is not zero (or is no
    number), [solve_network_temperatures] takes the branch of the coupled
    thermal solve: the short cut is taken for all-zero flows only. *)
Theorem flow_enters_thermal_solve (coupled : result network_temperatures)
    (edge_node_df : matrix) (all_nodes_df : list node)
    (edge_mass_flow_df : list float) :
  Exists (fun x => ~ is_zero x) edge_mass_flow_df ->
  solve_network_temperatures coupled edge_node_df all_nodes_df edge_mass_flow_df
  = coupled.
Proof.
  intro H. unfold solve_network_temperatures.
  destruct (fsum_abs_cases edge_mass_flow_df) as [E|[E|(q & E & _ & Hz)]];
    rewrite E; try reflexivity.
  unfold fneb, feqb. destruct (Qeq_bool q 0) eqn:Eq; [|reflexivity].
  apply Qeq_bool_iff in Eq. apply Hz in Eq.
  apply Exists_exists in H. destruct H as (x & Hin & Hx).
  rewrite Forall_forall in Eq. elim Hx. exact (Eq x Hin).
Qed.

Lemma flow_enters_thermal_solve_witness :
  solve_network_temperatures (Raise ValueError) ring ring_nodes
    [Fin 0; Fin 0.5; Fin 0]
  = Raise ValueError.
Proof.
  apply flow_enters_thermal_solve.
  apply Exists_cons_tl, Exists_cons_hd.
  intros (q & Hq & H0). injection Hq as <-. vm_compute in H0. discriminate.
Defined.

(** ** Pipe diameters given by the edge table *)

Lemma lookup_pipe_outcome (pipe_catalog : list pipe) (dn : string) :
  lookup_pipe pipe_catalog dn = Raise ValueError \/
  exists p, lookup_pipe pipe_catalog dn = Ok p /\
            In p pipe_catalog /\ Pipe_DN p = dn.
Proof.
  unfold lookup_pipe.
  destruct (filter (fun p => String.eqb (Pipe_DN p) dn) pipe_catalog)
    as [|p [|q rest]] eqn:E; auto.
  right. exists p. split; [reflexivity|].
  assert (Hin : In p (filter (fun p => String.eqb (Pipe_DN p) dn) pipe_catalog))
    by (rewrite E; now left).
  apply filter_In in Hin. destruct Hin as [Hin Hdn].
  apply String.eqb_eq in Hdn. auto.
Qed.

Lemma lookup_pipes_outcome (pipe_catalog : list pipe) (dns : list string) :
  map_result (lookup_pipe pipe_catalog) dns = Raise ValueError \/
  exists props, map_result (lookup_pipe pipe_catalog) dns = Ok props /\
                map Pipe_DN props = dns /\
                Forall (fun p => In p pipe_catalog) props.
Proof.
  induction dns as [|dn dns IH].
  - right. exists []. repeat split. constructor.
  - cbn [map_result].
    destruct (lookup_pipe_outcome pipe_catalog dn) as [E|(p & E & Hin & Hdn)];
      rewrite E; cbn [bind]; auto.
    destruct IH as [IH|(props & IH & Hdns & Hall)]; rewrite IH; cbn [bind]; auto.
    right. exists (p :: props). split; [reflexivity|].
    split; [cbn [map]; congruence | now constructor].
Qed.

Lemma with_mass_flows_names ext (catalog : list pipe) :
  map Pipe_DN (map (with_mass_flows ext) catalog) = map Pipe_DN catalog.
Proof. rewrite map_map. reflexivity. Qed.

(** X5: with the diameters taken from the edge table ([set_diameter]
    false), a diameter that names no record of the catalog is fatal:
    [assign_pipes_to_edges] raises [ValueError], whatever the mass flows. *)
Theorem unknown_diameter_is_fatal (ext : externals) (mass_flow_df : list vector)
    (edge_df_Pipe_DN : list string) (catalog : list pipe) :
  Exists (fun dn => ~ In dn (map Pipe_DN catalog)) edge_df_Pipe_DN ->
  assign_pipes_to_edges ext mass_flow_df false edge_df_Pipe_DN catalog
  = Raise ValueError.
Proof.
  intro H. unfold assign_pipes_to_edges.
  destruct (lookup_pipes_outcome (map (with_mass_flows ext) catalog)
              edge_df_Pipe_DN) as [E|(props & E & Hdns & Hall)];
    rewrite E; [reflexivity|].
  exfalso. apply Exists_exists in H. destruct H as (dn & Hin & Hno).
  apply Hno. rewrite <- (with_mass_flows_names ext).
  rewrite <- Hdns in Hin. apply in_map_iff in Hin.
  destruct Hin as (p & <- & Hp). apply in_map.
  rewrite Forall_forall in Hall. exact (Hall p Hp).
Qed.

Lemma unknown_diameter_is_fatal_witness :
  assign_pipes_to_edges (sample_externals [] []) [[1; -3]; [100]] false
    ["DN20"; "DN65"]%string sample_catalog
  = Raise ValueError.
Proof.
  apply unknown_diameter_is_fatal.
  apply Exists_cons_tl, Exists_cons_hd.
  cbn. intros [H|[H|[H|[]]]]; discriminate.
Defined.

Lemma lookup_pipe_unique (pipe_catalog : list pipe) (p : pipe) :
  NoDup (map Pipe_DN pipe_catalog) -> In p pipe_catalog ->
  lookup_pipe pipe_catalog (Pipe_DN p) = Ok p.
Proof.
  intros Hnd Hin. unfold lookup_pipe.
  assert (E : filter (fun q => String.eqb (Pipe_DN q) (Pipe_DN p)) pipe_catalog
              = [p]).
  { induction pipe_catalog as [|q rest IH]; [destruct Hin|].
    cbn [map] in Hnd. inversion Hnd as [|? ? Hq Hrest]; subst.
    cbn [filter]. destruct Hin as [->|Hin].
    - rewrite String.eqb_refl. f_equal.
      clear IH Hnd Hrest. induction rest as [|r rest IH]; [reflexivity|].
      cbn [filter]. destruct (String.eqb (Pipe_DN r) (Pipe_DN p)) eqn:E.
      + apply String.eqb_eq in E. elim Hq. left. exact E.
      + apply IH. intro H. apply Hq. now right.
    - destruct (String.eqb (Pipe_DN q) (Pipe_DN p)) eqn:E.
      + apply String.eqb_eq in E. elim Hq. rewrite E. now apply in_map.
      + now apply IH. }
  now rewrite E.
Qed.

(** X6: with the diameters taken from the edge table, and a catalog whose
    records have distinct names, every edge whose diameter is in the
    catalog gets exactly the record of that name (with the mass-flow
    columns added); nothing is sized and no warning is printed. *)
Theorem given_diameters_are_looked_up (ext : externals)
    (mass_flow_df : list vector) (edge_df_Pipe_DN : list string)
    (catalog : list pipe) :
  NoDup (map Pipe_DN catalog) ->
  Forall (fun dn => In dn (map Pipe_DN catalog)) edge_df_Pipe_DN ->
  exists props,
    assign_pipes_to_edges ext mass_flow_df false edge_df_Pipe_DN catalog
      = Ok (props, []) /\
    Forall2 (fun dn p => Pipe_DN p = dn /\
                         exists c, In c catalog /\ p = with_mass_flows ext c)
            edge_df_Pipe_DN props.
Proof.
  intros Hnd Hall. unfold assign_pipes_to_edges.
  assert (H : exists props,
             map_result (lookup_pipe (map (with_mass_flows ext) catalog))
                        edge_df_Pipe_DN = Ok props /\
             Forall2 (fun dn p => Pipe_DN p = dn /\
                        exists c, In c catalog /\ p = with_mass_flows ext c)
                     edge_df_Pipe_DN props).
  { induction Hall as [|dn dns Hdn _ IH].
    - exists []. split; [reflexivity | constructor].
    - destruct IH as (props & IH & HF).
      apply in_map_iff in Hdn. destruct Hdn as (c & <- & Hc).
      exists (with_mass_flows ext c :: props). cbn [map_result].
      change (Pipe_DN c) with (Pipe_DN (with_mass_flows ext c)).
      rewrite lookup_pipe_unique.
      + cbn [bind]. rewrite IH. cbn [bind]. split; [reflexivity|].
        constructor; [|exact HF]. split; [reflexivity|]. eauto.
      + now rewrite with_mass_flows_names.
      + now apply in_map. }
  destruct H as (props & E & HF). exists props. rewrite E. auto.
Qed.

Lemma given_diameters_are_looked_up_witness :
  exists props,
    assign_pipes_to_edges (sample_externals [] []) [[1; -3]; [100]] false
      ["DN100"; "DN20"]%string sample_catalog = Ok (props, []) /\
    Forall2 (fun dn p => Pipe_DN p = dn /\
               exists c, In c sample_catalog /\
                         p = with_mass_flows (sample_externals [] []) c)
            ["DN100"; "DN20"]%string props.
Proof.
  apply given_diameters_are_looked_up.
  - repeat (apply NoDup_cons; [cbn; intuition discriminate|]). apply NoDup_nil.
  - repeat (apply Forall_cons; [cbn; auto 6|]). apply Forall_nil.
Defined.

(** ** A larger flow never gets a smaller pipe *)

Lemma find_pipe_In (max_flow : Q) (pipe_catalog : list pipe) p warned :
  find_pipe max_flow pipe_catalog = Ok (p, warned) -> In p pipe_catalog.
Proof.
  induction pipe_catalog as [|q rest IH]; [discriminate|].
  cbn [find_pipe]. destruct (Qle_bool max_flow (mdot_max_kgs q)).
  - intro H. injection H as <- _. now left.
  - destruct rest as [|r rest'].
    + intro H. injection H as <- _. now left.
    + intro H. right. exact (IH H).
Qed.

(** X7: in sizing mode with a catalog ordered by capacity, of two edges the
    one with the larger maximum flow gets a record of at least the
    capacity of the other's, and is warned about whenever the other is. *)
Theorem larger_flow_larger_pipe (pipe_catalog : list pipe) (flow1 flow2 : Q)
    (p1 p2 : pipe) (warned1 warned2 : bool) :
  ordered_by_capacity pipe_catalog ->
  flow1 <= flow2 ->
  find_pipe flow1 pipe_catalog = Ok (p1, warned1) ->
  find_pipe flow2 pipe_catalog = Ok (p2, warned2) ->
  mdot_max_kgs p1 <= mdot_max_kgs p2 /\
  (warned1 = true -> warned2 = true).
Proof.
  intros Hord Hle. revert p1 p2 warned1 warned2.
  induction pipe_catalog as [|q rest IH]; intros p1 p2 w1 w2; [discriminate|].
  destruct Hord as [Hq Hrest]. cbn [find_pipe].
  destruct (Qle_bool flow1 (mdot_max_kgs q)) eqn:E1;
    destruct (Qle_bool flow2 (mdot_max_kgs q)) eqn:E2.
  - intros H1 H2. injection H1 as <- <-. injection H2 as <- <-.
    split; [apply Qle_refl | discriminate].
  - intro H1. injection H1 as <- <-.
    destruct rest as [|r rest'].
    + intro H2. injection H2 as <- <-. split; [apply Qle_refl | discriminate].
    + intro H2. split; [|discriminate].
      apply find_pipe_In in H2. rewrite Forall_forall in Hq. exact (Hq _ H2).
  - apply Qle_bool_iff in E2.
    assert (flow1 <= mdot_max_kgs q) by lra.
    apply Qle_bool_iff in H. congruence.
  - destruct rest as [|r rest'].
    + intros H1 H2. injection H1 as <- <-. injection H2 as <- <-.
      split; [apply Qle_refl | reflexivity].
    + exact (IH Hrest p1 p2 w1 w2).
Qed.

Lemma larger_flow_larger_pipe_witness :
  mdot_max_kgs (with_mass_flows (sample_externals [] [])
                                (sample_pipe "DN20" 0.02 0.001))
  <= mdot_max_kgs (with_mass_flows (sample_externals [] [])
                                   (sample_pipe "DN50" 0.05 0.005)) /\
  (false = true -> false = true).
Proof.
  apply (larger_flow_larger_pipe
           (map (with_mass_flows (sample_externals [] [])) sample_catalog)
           0.5 3).
  - cbn. repeat split; repeat constructor; vm_compute; discriminate.
  - vm_compute; discriminate.
  - reflexivity.
  - reflexivity.
Defined.

(** ** A consumer without a column in the substation values *)

Lemma lookup_missing (name : string) (df : frame) :
  ~ In name (map fst df) -> lookup name df = Raise KeyError.
Proof.
  induction df as [|[n x] df IH]; [reflexivity|].
  cbn [map fst In lookup]. intro H.
  destruct (String.eqb n name) eqn:E.
  - apply String.eqb_eq in E. elim H. now left.
  - apply IH. intro Hin. apply H. now right.
Qed.

Lemma lookup_present (name : string) (df : frame) :
  In name (map fst df) -> exists x, lookup name df = Ok x.
Proof.
  induction df as [|[n x] df IH]; [intros []|].
  cbn [map fst In lookup]. intro H.
  destruct (String.eqb n name) eqn:E; [eauto|].
  apply IH. destruct H as [H|H]; [|exact H].
  apply String.eqb_neq in E. contradiction.
Qed.

Lemma sum_columns_missing (df : frame) (names : list string) :
  Exists (fun b => ~ In b (map fst df)) names ->
  sum_columns df names = Raise KeyError.
Proof.
  induction names as [|n names IH]; intro H; [inversion H|].
  cbn [sum_columns].
  destruct (in_dec string_dec n (map fst df)) as [Hin|Hout].
  - destruct (lookup_present n df Hin) as (x & ->). cbn [bind].
    rewrite IH; [reflexivity|].
    inversion H as [? ? Hn|? ? Hn]; subst; [contradiction | exact Hn].
  - now rewrite (lookup_missing n df Hout).
Qed.

(** X8: [write_substation_values_to_nodes_df] returns exactly when every
    consumer node's building has a column in the substation values; a
    consumer whose building has none is fatal ([KeyError]), also when the
    values are only summed for the plants. *)
Theorem node_demands_need_every_consumer (all_nodes_df : list node)
    (df_value : frame) :
  (Forall (fun b => In b (map fst df_value)) (consumer_list all_nodes_df) ->
   exists v, write_substation_values_to_nodes_df all_nodes_df df_value = Ok v /\
             length v = length all_nodes_df) /\
  (Exists (fun b => ~ In b (map fst df_value)) (consumer_list all_nodes_df) ->
   write_substation_values_to_nodes_df all_nodes_df df_value = Raise KeyError).
Proof.
  split.
  - intro H.
    destruct (write_substation_values_returns all_nodes_df df_value) as (v & Hv).
    { rewrite Forall_forall in *. intros b Hb.
      exact (lookup_present b df_value (H b Hb)). }
    exists v. split; [exact Hv|].
    unfold write_substation_values_to_nodes_df in Hv.
    bind_inv Hv as t Ht. apply map_result_Forall2 in Hv.
    symmetry. exact (Forall2_length Hv).
  - intro H. unfold write_substation_values_to_nodes_df.
    now rewrite (sum_columns_missing df_value _ H).
Qed.

Lemma node_demands_need_every_consumer_witness :
  (exists v, write_substation_values_to_nodes_df ring_nodes
               [("B1"%string, 2); ("B2"%string, 3)] = Ok v /\
             length v = length ring_nodes) /\
  write_substation_values_to_nodes_df ring_nodes [("B1"%string, 2)]
  = Raise KeyError.
Proof.
  split.
  - apply (node_demands_need_every_consumer ring_nodes
             [("B1"%string, 2); ("B2"%string, 3)]).
    repeat (apply Forall_cons; [cbn; auto|]). apply Forall_nil.
  - apply (node_demands_need_every_consumer ring_nodes [("B1"%string, 2)]).
    apply Exists_cons_tl, Exists_cons_hd.
    cbn. intros [H|[]]; discriminate.
Defined.

(** ** Reversing edges keeps the matrix an incidence matrix *)

Lemma nth_flip_row (m : vector) :
  forall (row : list Z) (j : nat),
    nth j (flip_row m row) 0%Z
    = if negative_at m j then (- nth j row 0)%Z else nth j row 0%Z.
Proof.
  induction m as [|a ms IH]; intros row j.
  - unfold negative_at. destruct row, j; reflexivity.
  - destruct row as [|x row'].
    + cbn [flip_row]. destruct j; cbn [nth]; now destruct (negative_at _ _).
    + destruct j as [|j']; [reflexivity|].
      cbn [flip_row nth]. rewrite IH. reflexivity.
Qed.

Lemma column_flip_columns (m : vector) (A : matrix) (j : nat) :
  column (flip_columns m A) j
  = if negative_at m j then map Z.opp (column A j) else column A j.
Proof.
  unfold column, flip_columns. rewrite map_map.
  destruct (negative_at m j) eqn:E.
  - rewrite map_map. apply map_ext. intro row. rewrite nth_flip_row, E.
    reflexivity.
  - apply map_ext. intro row. rewrite nth_flip_row, E. reflexivity.
Qed.

Lemma count_occ_opp (l : list Z) (z : Z) :
  count_occ Z.eq_dec (map Z.opp l) z = count_occ Z.eq_dec l (- z)%Z.
Proof.
  induction l as [|x l IH]; [reflexivity|].
  cbn [map count_occ]. rewrite IH.
  destruct (Z.eq_dec (- x) z), (Z.eq_dec x (- z)); try reflexivity; lia.
Qed.

Lemma flip_row_twice (m : vector) :
  forall row, flip_row m (flip_row m row) = row.
Proof.
  induction m as [|a ms IH]; intro row; [now destruct row|].
  destruct row as [|x row']; [reflexivity|].
  cbn [flip_row]. rewrite IH.
  destruct (Qlt_bool a 0); [rewrite Z.opp_involutive|]; reflexivity.
Qed.

(** X9: reversing the edges with a negative flow, as
    [change_to_edge_node_matrix_t] does, negates exactly their columns: a
    column has one [+1] and one [-1] afterwards if and only if it had
    before, the two entries having changed places; reversing the same
    edges again gives the matrix back. *)
Theorem reversing_edges_keeps_columns (edge_mass_flow : vector) (A : matrix)
    (j : nat) :
  column (flip_columns edge_mass_flow A) j
  = (if negative_at edge_mass_flow j then map Z.opp (column A j)
     else column A j) /\
  (column_well_formed (column (flip_columns edge_mass_flow A) j)
   <-> column_well_formed (column A j)) /\
  flip_columns edge_mass_flow (flip_columns edge_mass_flow A) = A.
Proof.
  split; [apply column_flip_columns|]. split.
  - rewrite column_flip_columns. destruct (negative_at edge_mass_flow j);
      [|reflexivity].
    unfold column_well_formed. rewrite !count_occ_opp. cbn [Z.opp]. tauto.
  - unfold flip_columns. rewrite map_map.
    rewrite <- (map_id A) at 2. apply map_ext. apply flip_row_twice.
Qed.

(** ** A plant with several outgoing pipes *)

Lemma nth_update_other {A} (l : list A) (f : A -> A) (d : A) :
  forall i j, i <> j -> nth i (update l j f) d = nth i l d.
Proof.
  induction l as [|x l IH]; intros i j Hij; [now destruct j|].
  destruct j, i; cbn [update nth]; try reflexivity; try lia.
  apply IH. lia.
Qed.

Lemma plant_start_keeps_rows ext z m_d k t_ground t_plant_sup nodes st j st' i :
  plant_start ext z m_d k t_ground t_plant_sup nodes st j = Ok st' ->
  i <> j -> frow (t_e_in st') i = frow (t_e_in st) i.
Proof.
  unfold plant_start. intros H Hij. bind_inv H as row Hrow.
  destruct (is_type "PLANT" row).
  - bind_inv H as out Hout. injection H as <-. cbn [t_e_in].
    unfold frow. now apply nth_update_other.
  - now injection H as <-.
Qed.

Lemma plant_starts_keep_rows ext z m_d k t_ground t_plant_sup nodes i :
  forall l st st',
    ~ In i l ->
    plant_starts ext z m_d k t_ground t_plant_sup nodes l st = Ok st' ->
    frow (t_e_in st') i = frow (t_e_in st) i.
Proof.
  induction l as [|j l IH]; intros st st' Hi H.
  - now injection H as <-.
  - cbn [plant_starts] in H. bind_inv H as st1 Hst1.
    rewrite (IH st1 st'); [|intro; apply Hi; now right | exact H].
    apply (plant_start_keeps_rows _ _ _ _ _ _ _ _ _ _ _ Hst1).
    intro; apply Hi; now left.
Qed.

Lemma plant_starts_app ext z m_d k t_ground t_plant_sup nodes :
  forall l1 l2 st,
    plant_starts ext z m_d k t_ground t_plant_sup nodes (l1 ++ l2) st
    = do st' <- plant_starts ext z m_d k t_ground t_plant_sup nodes l1 st;
      plant_starts ext z m_d k t_ground t_plant_sup nodes l2 st'.
Proof.
  induction l1 as [|j l1 IH]; intros l2 st; [reflexivity|].
  cbn [app plant_starts].
  destruct (plant_start ext z m_d k t_ground t_plant_sup nodes st j);
    cbn [bind]; auto.
Qed.

Lemma positions_length {A} (f : A -> bool) (l : list A) :
  length (positions f l) = length (filter f l).
Proof.
  unfold positions. rewrite length_map. generalize 0%nat.
  induction l as [|x l IH]; intro s; [reflexivity|].
  cbn [length seq combine filter snd]. destruct (f x); cbn [length]; now rewrite IH.
Qed.

Lemma outgoing_pipes_of_row (row : list Z) :
  length (filter (fun x => fneb x (Fin 0))
                 (map (fun x => of_Z (- x)) (map (Z.min 0) row)))
  = length (filter (fun x => Z.ltb x 0) row).
Proof.
  induction row as [|x row IH]; [reflexivity|].
  cbn [map filter].
  assert (E : fneb (of_Z (- Z.min 0 x)) (Fin 0) = Z.ltb x 0).
  { unfold fneb, feqb, of_Z. destruct (Z.ltb_spec x 0) as [Hx|Hx].
    - destruct (Qeq_bool (inject_Z (- Z.min 0 x)) 0) eqn:E; [|reflexivity].
      apply Qeq_bool_iff in E. unfold Qeq, inject_Z in E.
      cbn [Qnum Qden] in E. exfalso. clear IH. lia.
    - replace (Z.min 0 x) with 0%Z by (clear IH; lia). reflexivity. }
  rewrite E. destruct (Z.ltb x 0); cbn [length]; now rewrite IH.
Qed.

Lemma reset_state_row (z : matrix) (flags : list bool) (i : nat) :
  frow (t_e_in (reset_state z flags)) i
  = map (fun x => of_Z (- x)) (map (Z.min 0) (zrow z i)).
Proof.
  unfold reset_state, frow, zrow, clip_max0. cbn [t_e_in].
  change (@nil float) with (map (fun x => of_Z (- x)) (@nil Z)).
  rewrite map_nth.
  change (@nil Z) with (map (Z.min 0) (@nil Z)) at 1.
  now rewrite map_nth.
Qed.

Lemma calc_t_out_several ext node e1 e2 rest k m_d z t_e_in t_ground out r :
  calc_t_out ext node (e1 :: e2 :: rest) k m_d z t_e_in t_ground out <> Ok r.
Proof.
  cbn [calc_t_out].
  now destruct (calc_t_out_edge ext node e1 k m_d z t_e_in t_ground out).
Qed.

Lemma plant_starts_fail ext z m_d k t_ground t_plant_sup nodes flags i row st :
  nth_error nodes i = Some row ->
  is_type "PLANT" row = true ->
  (2 <= length (filter (fun x => Z.ltb x 0) (zrow z i)))%nat ->
  plant_starts ext z m_d k t_ground t_plant_sup nodes (seq 0 (length z))
               (reset_state z flags) <> Ok st.
Proof.
  intros Hrow Hplant Htwo H.
  assert (Hi : (i < length z)%nat).
  { destruct (Nat.lt_ge_cases i (length z)) as [Hlt|Hge]; [exact Hlt|].
    unfold zrow in Htwo. rewrite nth_overflow in Htwo by exact Hge.
    simpl in Htwo. lia. }
  replace (length z) with (i + S (length z - S i))%nat in H by lia.
  rewrite seq_app in H. cbn [seq Nat.add] in H.
  rewrite plant_starts_app in H. bind_inv H as st1 Hst1.
  cbn [plant_starts] in H. bind_inv H as st2 Hst2.
  apply plant_starts_keep_rows with (i := i) in Hst1;
    [|rewrite in_seq; lia].
  unfold plant_start in Hst2. rewrite Hrow in Hst2. cbn [of_option bind] in Hst2.
  rewrite Hplant in Hst2. bind_inv Hst2 as out Hout.
  rewrite Hst1, reset_state_row in Hout.
  pose proof (positions_length (fun x => fneb x (Fin 0))
                (map (fun x => of_Z (- x)) (map (Z.min 0) (zrow z i)))) as Hlen.
  rewrite outgoing_pipes_of_row in Hlen.
  destruct (positions (fun x => fneb x (Fin 0))
              (map (fun x => of_Z (- x)) (map (Z.min 0) (zrow z i))))
    as [|e1 [|e2 rest]]; cbn [length] in Hlen; try lia.
  exact (calc_t_out_several _ _ _ _ _ _ _ _ _ _ _ _ Hout).
Qed.

(** X10: [calc_t_out] rebinds [k] to the coefficient of the first edge it
    handles, so a second edge in the same call indexes a number and
    raises.  The supply pass hands all the outgoing pipes of a plant to
    one call: when a plant node has two or more outgoing pipes,
    [calc_supply_temperatures] never returns a result. *)
Theorem plant_with_several_pipes_fails (ext : externals) (t_ground__k : float)
    (edge_node_df : matrix) (mass_flow_df k : list float)
    (t_target_supply__c : list float) (network_type : string)
    (all_nodes_df : list node) (budget : nat) (i : nat) (row : node) r :
  nth_error all_nodes_df i = Some row ->
  is_type "PLANT" row = true ->
  (2 <= length (filter (fun x => Z.ltb x 0) (zrow edge_node_df i)))%nat ->
  calc_supply_temperatures ext t_ground__k edge_node_df mass_flow_df k
    t_target_supply__c network_type all_nodes_df budget <> Ok r.
Proof.
  intros Hrow Hplant Htwo H. unfold calc_supply_temperatures in H.
  bind_inv H as s Hs. clear H.
  unfold calc_supply_temperatures_search in Hs.
  destruct budget as [|budget]; [discriminate|].
  cbn [plant_temperature_search] in Hs. bind_inv Hs as pass Hpass. clear Hs.
  unfold supply_pass in Hpass. cbn [temperature_iteration] in Hpass.
  bind_inv Hpass as st1 Hst1.
  exact (plant_starts_fail _ _ _ _ _ _ _ _ _ _ _ Hrow Hplant Htwo Hst1).
Qed.

Lemma plant_with_several_pipes_fails_witness :
  calc_supply_temperatures (sample_externals [] []) (Fin 283) ring
    [Fin 3; Fin 1; Fin 2] [Fin 1; Fin 1; Fin 1] [NaN; Fin 80; Fin 80] "DH"
    ring_nodes 10
  <> Ok ([Fin 363; Fin 360; Fin 360], [0%nat], [Fin 0; Fin 0; Fin 0], []).
Proof.
  apply (plant_with_several_pipes_fails (sample_externals [] []) (Fin 283) ring
           [Fin 3; Fin 1; Fin 2] [Fin 1; Fin 1; Fin 1] [NaN; Fin 80; Fin 80]
           "DH" ring_nodes 10 0%nat
           {| Name := "NODE0"; Building := "PLANT0"; Type_ := "PLANT" |}).
  - reflexivity.
  - reflexivity.
  - simpl; lia.
Defined.

(** ** The temperature at the outlet of a pipe *)

Lemma outlet_temperature_finite ext (tin kq m tg : Q) :
  ~ m * cp ext / 1000 + kq / 2 == 0 ->
  outlet_temperature ext (Fin tin) (Fin kq) (Fin m) (Fin tg)
  = Fin ((tin * (kq / 2 + - (m * cp ext / 1000)) + - (kq * tg))
         / (- m * cp ext / 1000 + - (kq / 2))).
Proof.
  intro H. unfold outlet_temperature.
  cbn [fdiv fmul fsub fadd fneg].
  change (Qeq_bool 2 0) with false. change (Qeq_bool 1000 0) with false.
  cbn [fdiv fmul fsub fadd fneg].
  destruct (Qeq_bool (- m * cp ext / 1000 + - (kq / 2)) 0) eqn:E; [|reflexivity].
  apply Qeq_bool_iff in E. elim H.
  setoid_replace (m * cp ext / 1000 + kq / 2)
    with (- (- m * cp ext / 1000 + - (kq / 2))) by (unfold Qdiv; ring).
  rewrite E. reflexivity.
Qed.

(** what [calc_t_out] writes for an edge that carries a flow, on finite
    values: the outlet temperature of the formula, or the inlet
    temperature minus 30 K *)
Lemma calc_t_out_edge_finite ext node e k m_d z t_e_in t_e_out z_note
    (kq mq tin tg : Q) (o : nat) :
  fgetv k e = Ok (Fin kq) ->
  fgetv m_d e = Ok (Fin mq) ->
  last_index (Z.eqb 1) (column z e) = Some o ->
  entry z node e = Ok (-1)%Z ->
  fget t_e_in node e = Ok (Fin tin) ->
  let m := np_round5 mq in
  ~ m == 0 ->
  ~ m * cp ext / 1000 + kq / 2 == 0 ->
  let tout := (tin * (kq / 2 + - (m * cp ext / 1000)) + - (kq * tg))
              / (- m * cp ext / 1000 + - (kq / 2)) in
  calc_t_out_edge ext node e k m_d z t_e_in (Fin tg) (t_e_out, z_note)
  = Ok (fset t_e_out o e
          (Fin (if Qlt_bool 30 (Qabs (tin + - tout))
                   && Qlt_bool 0 (kq / 2 + - (m * cp ext / 1000))
                then tin + - 30 else tout)),
        clear_column z_note e).
Proof.
  intros Hk Hm Ho Hz Hin m Hm0 Hden tout. unfold calc_t_out_edge.
  rewrite Hk, Hm, Ho, Hz. cbn [bind of_option fround5 fabs feqb].
  fold m.
  destruct (Qeq_bool (Qabs m) 0) eqn:E.
  { apply Qeq_bool_iff in E. elim Hm0.
    pose proof (Qle_Qabs m) as H1. pose proof (Qle_Qabs (- m)) as H2.
    rewrite Qabs_opp in H2. lra. }
  cbn [andb Z.eqb Pos.eqb]. rewrite Hin. cbn [bind].
  rewrite (outlet_temperature_finite ext tin kq m tg Hden). fold tout.
  cbn [fsub fadd fneg fabs fdiv fmul fgtb fltb].
  change (Qeq_bool 2 0) with false. change (Qeq_bool 1000 0) with false.
  cbn [fsub fadd fneg fabs fdiv fmul fgtb fltb].
  destruct (Qlt_bool 30 (Qabs (tin + - tout))
            && Qlt_bool 0 (kq / 2 + - (m * cp ext / 1000))); reflexivity.
Qed.

Lemma outlet_arith (tin tg kq c : Q) :
  0 <= kq / 2 -> kq / 2 <= c -> 0 < c ->
  let tout := (tin * (kq / 2 + - c) + - (kq * tg)) / (- c + - (kq / 2)) in
  tout - tg == (tin - tg) * ((c - kq / 2) / (c + kq / 2)) /\
  (tg <= tin -> tg <= tout <= tin) /\
  (tin <= tg -> tin <= tout <= tg).
Proof.
  intros Hh Hhc Hc.
  assert (Hk : kq / 2 == kq * (1 # 2)) by reflexivity.
  rewrite Hk in Hh, Hhc.
  assert (Hd : ~ c + kq / 2 == 0) by (rewrite Hk; lra).
  assert (Hd' : ~ - c * 2 + - kq == 0) by lra.
  intro tout.
  assert (P : tout * (c + kq / 2) == tin * (c - kq / 2) + kq * tg).
  { unfold tout. field. exact Hd'. }
  split; [|split].
  - apply (Qmult_inj_r _ _ (c + kq / 2) Hd).
    setoid_replace ((tout - tg) * (c + kq / 2))
      with (tout * (c + kq / 2) - tg * (c + kq / 2)) by ring.
    rewrite P. field. intro E. lra.
  - intro Hle. rewrite Hk in P.
    assert (0 <= (tin - tg) * (c - kq * (1 # 2)))
      by (apply Qmult_le_0_compat; lra).
    assert (0 <= (tin - tg) * kq) by (apply Qmult_le_0_compat; lra).
    split.
    + apply Qnot_lt_le. intro Hlt.
      assert (0 < (tg - tout) * (c + kq * (1 # 2)))
        by (apply Qmult_lt_0_compat; lra).
      lra.
    + apply Qnot_lt_le. intro Hlt.
      assert (0 < (tout - tin) * (c + kq * (1 # 2)))
        by (apply Qmult_lt_0_compat; lra).
      lra.
  - intro Hle. rewrite Hk in P.
    assert (0 <= (tg - tin) * (c - kq * (1 # 2)))
      by (apply Qmult_le_0_compat; lra).
    assert (0 <= (tg - tin) * kq) by (apply Qmult_le_0_compat; lra).
    split.
    + apply Qnot_lt_le. intro Hlt.
      assert (0 < (tin - tout) * (c + kq * (1 # 2)))
        by (apply Qmult_lt_0_compat; lra).
      lra.
    + apply Qnot_lt_le. intro Hlt.
      assert (0 < (tout - tg) * (c + kq * (1 # 2)))
        by (apply Qmult_lt_0_compat; lra).
      lra.
Qed.

(** X11: where the flow carries more heat than the pipe conducts
    ([k / 2 <= m * cp / 1000], with [m] the flow rounded to 5 decimals),
    [calc_t_out] writes at the outlet node the temperature of the formula
    of Wang et al.: its distance to the ground temperature is the inlet's
    times [(c - k/2) / (c + k/2)], so it lies between the ground and the
    inlet temperature, and the edge is marked as solved. *)
Theorem pipe_outlet_between_ground_and_inlet ext node e k m_d z t_e_in
    t_e_out z_note (kq mq tin tg : Q) (o : nat) :
  fgetv k e = Ok (Fin kq) ->
  fgetv m_d e = Ok (Fin mq) ->
  last_index (Z.eqb 1) (column z e) = Some o ->
  entry z node e = Ok (-1)%Z ->
  fget t_e_in node e = Ok (Fin tin) ->
  let c := np_round5 mq * cp ext / 1000 in
  0 <= kq / 2 -> kq / 2 <= c -> 0 < c ->
  exists tout,
    calc_t_out_edge ext node e k m_d z t_e_in (Fin tg) (t_e_out, z_note)
    = Ok (fset t_e_out o e (Fin tout), clear_column z_note e) /\
    tout - tg == (tin - tg) * ((c - kq / 2) / (c + kq / 2)) /\
    (tg <= tin -> tg <= tout <= tin) /\
    (tin <= tg -> tin <= tout <= tg).
Proof.
  intros Hk Hm Ho Hz Hin c Hh Hhc Hc.
  assert (Hm0 : ~ np_round5 mq == 0).
  { intro E. unfold c in Hc. rewrite E in Hc.
    assert (E0 : 0 * cp ext / 1000 == 0) by (unfold Qdiv; ring).
    rewrite E0 in Hc. discriminate. }
  assert (Hden : ~ c + kq / 2 == 0).
  { intro E. assert (c <= 0); [|lra].
    setoid_replace c with (c + kq / 2 - kq / 2) by ring. rewrite E. lra. }
  pose proof (calc_t_out_edge_finite ext node e k m_d z t_e_in t_e_out z_note
                kq mq tin tg o Hk Hm Ho Hz Hin Hm0 Hden) as H.
  cbv zeta in H. fold c in H.
  assert (Hcap : Qlt_bool 0 (kq / 2 + - c) = false).
  { apply Qlt_bool_false. lra. }
  rewrite Hcap, andb_false_r in H.
  eexists. split; [exact H|].
  assert (Eneg : - np_round5 mq * cp ext / 1000 == - c)
    by (unfold c, Qdiv; ring).
  rewrite Eneg.
  exact (outlet_arith tin tg kq c Hh Hhc Hc).
Qed.

Lemma pipe_outlet_between_ground_and_inlet_witness :
  let c := np_round5 1 * cp (sample_externals [] []) / 1000 in
  exists tout,
    calc_t_out_edge (sample_externals [] []) 0 0 [Fin 2.79] [Fin 1] one_pipe
      [[Fin 363]; [Fin 0]] (Fin 283) ([[Fin 0]; [Fin 1]], one_pipe)
    = Ok (fset [[Fin 0]; [Fin 1]] 1 0 (Fin tout), clear_column one_pipe 0) /\
    tout - 283 == (363 - 283) * ((c - 2.79 / 2) / (c + 2.79 / 2)) /\
    (283 <= 363 -> 283 <= tout <= 363) /\
    (363 <= 283 -> 363 <= tout <= 283).
Proof.
  apply (pipe_outlet_between_ground_and_inlet (sample_externals [] []) 0 0
           [Fin 2.79] [Fin 1] one_pipe [[Fin 363]; [Fin 0]]
           [[Fin 0]; [Fin 1]] one_pipe 2.79 1 363 283 1);
    try reflexivity; vm_compute; discriminate.
Defined.

(** X12: where the pipe conducts more heat than the flow carries
    ([k / 2 > m * cp / 1000], a low flow), the temperature [calc_t_out]
    writes at the outlet is never more than 30 K away from the inlet
    temperature: a larger change of the formula is replaced by a drop of
    30 K. *)
Theorem low_flow_change_is_capped ext node e k m_d z t_e_in
    t_e_out z_note (kq mq tin tg : Q) (o : nat) :
  fgetv k e = Ok (Fin kq) ->
  fgetv m_d e = Ok (Fin mq) ->
  last_index (Z.eqb 1) (column z e) = Some o ->
  entry z node e = Ok (-1)%Z ->
  fget t_e_in node e = Ok (Fin tin) ->
  let c := np_round5 mq * cp ext / 1000 in
  ~ np_round5 mq == 0 -> c < kq / 2 -> ~ c + kq / 2 == 0 ->
  exists x,
    calc_t_out_edge ext node e k m_d z t_e_in (Fin tg) (t_e_out, z_note)
    = Ok (fset t_e_out o e (Fin x), clear_column z_note e) /\
    Qabs (tin - x) <= 30.
Proof.
  intros Hk Hm Ho Hz Hin c Hm0 Hlow Hden.
  pose proof (calc_t_out_edge_finite ext node e k m_d z t_e_in t_e_out z_note
                kq mq tin tg o Hk Hm Ho Hz Hin Hm0 Hden) as H.
  cbv zeta in H. fold c in H.
  assert (Hcap : Qlt_bool 0 (kq / 2 + - c) = true).
  { apply Qlt_bool_iff. lra. }
  rewrite Hcap, andb_true_r in H.
  eexists. split; [exact H|].
  match goal with
  | |- Qabs (tin - (if ?b then _ else _)) <= 30 => destruct b eqn:E
  end.
  - setoid_replace (tin - (tin + - 30)) with 30 by ring. discriminate.
  - apply Qlt_bool_false in E. exact E.
Qed.

Lemma low_flow_change_is_capped_witness :
  exists x,
    calc_t_out_edge (sample_externals [] []) 0 0 [Fin 10] [Fin 0.001] one_pipe
      [[Fin 363]; [Fin 0]] (Fin 283) ([[Fin 0]; [Fin 1]], one_pipe)
    = Ok (fset [[Fin 0]; [Fin 1]] 1 0 (Fin x), clear_column one_pipe 0) /\
    Qabs (363 - x) <= 30.
Proof.
  apply (low_flow_change_is_capped (sample_externals [] []) 0 0
           [Fin 10] [Fin 0.001] one_pipe [[Fin 363]; [Fin 0]]
           [[Fin 0]; [Fin 1]] one_pipe 10 0.001 363 283 1);
    try reflexivity; vm_compute; discriminate.
Defined.

(** ** Mixing at a node of the return line *)

Lemma fold1_fmax2_finite (l : list Q) :
  l <> [] ->
  exists s, fold1 fmax2 (map Fin l) = Some (Fin s) /\ In s l /\
            Forall (fun x => x <= s) l.
Proof.
  induction l as [|x l IH]; [congruence|]. intros _.
  destruct l as [|y l'].
  - exists x. cbn. repeat split; auto. constructor; [apply Qle_refl | constructor].
  - destruct IH as (s & E & Hin & Hall); [discriminate|].
    cbn [map fold1] in *. rewrite E. unfold fmax2. cbn [is_nan orb fltb].
    destruct (Qlt_bool x s) eqn:Exs.
    + exists s. split; [reflexivity|]. split; [now right|].
      apply Qlt_bool_iff in Exs. constructor; [lra | exact Hall].
    + exists x. split; [reflexivity|]. split; [now left|].
      apply Qlt_bool_false in Exs.
      constructor; [apply Qle_refl|].
      eapply Forall_impl; [|exact Hall]. cbn. intros; lra.
Qed.

Lemma fill_diagonal_row (n index : nat) (vs : list Q) :
  (index < n)%nat ->
  nth_error (fill_diagonal n (map Fin vs)) index
  = Some (map Fin (map (fun j => if Nat.eqb index j then nth index vs 0 else 0)
                       (seq 0 n))).
Proof.
  intro H. unfold fill_diagonal.
  rewrite nth_error_map, nth_error_nth' with (d := O) by (rewrite length_seq; lia).
  rewrite seq_nth by lia. cbn [option_map Nat.add]. f_equal.
  rewrite map_map. apply map_ext. intro j. unfold m_d_entry.
  destruct (Nat.eqb index j); [|reflexivity].
  change (Fin 0) with (Fin (0 : Q)). now rewrite map_nth.
Qed.

(** the largest entry of a row of the substation flow matrix: the flow of
    the node's substation when positive, 0 otherwise *)
Lemma m_sub_row_max (n index : nat) (vs : list Q) :
  (index < n)%nat -> (2 <= n)%nat ->
  exists row s,
    nth_error (fill_diagonal n (map Fin vs)) index = Some row /\
    np_max row = Ok (Fin s) /\
    s == (if Qlt_bool 0 (nth index vs 0) then nth index vs 0 else 0).
Proof.
  intros Hi Hn. rewrite (fill_diagonal_row n index vs Hi).
  set (l := map (fun j => if Nat.eqb index j then nth index vs 0 else 0)
                (seq 0 n)).
  destruct (fold1_fmax2_finite l) as (s & E & Hin & Hall).
  { unfold l. destruct n; [lia | discriminate]. }
  exists (map Fin l), s. split; [reflexivity|]. unfold np_max. rewrite E.
  split; [reflexivity|].
  assert (Hv : In (nth index vs 0) l).
  { unfold l. apply in_map_iff. exists index.
    rewrite Nat.eqb_refl. split; [reflexivity | apply in_seq; lia]. }
  assert (H0 : In 0 l).
  { unfold l. apply in_map_iff.
    exists (if Nat.eqb index 0 then 1%nat else 0%nat).
    destruct index; cbn [Nat.eqb]; split; try reflexivity; apply in_seq; lia. }
  rewrite Forall_forall in Hall.
  pose proof (Hall _ Hv) as H1. pose proof (Hall _ H0) as H2.
  unfold l in Hin. apply in_map_iff in Hin. destruct Hin as (j & Hj & _).
  destruct (Qlt_bool 0 (nth index vs 0)) eqn:E0.
  - apply Qlt_bool_iff in E0. destruct (Nat.eqb index j); subst s; lra.
  - apply Qlt_bool_false in E0. destruct (Nat.eqb index j); subst s; lra.
Qed.

(** X13: [calc_return_node_temperature] gives [NaN] when nothing flows to
    the node, and otherwise the flow-weighted mean of the outlet
    temperatures of the arriving pipes and of the return temperature of
    the node's substation.  The substation weighs in with its flow when
    that is positive: a negative flow, as at a plant, counts as none, and
    the return temperature of such a node is not looked at.  An outlet
    temperature that is [NaN] counts as 0 K. *)
Theorem return_node_temperature_mixes (index n : nat) (ms vs : list Q)
    (t_e_out : fmatrix) (t_return : list float) (z_pipe_out : matrix)
    (zs : list Z) (t_row : list float) (t : float) (tr : Q) :
  (index < n)%nat -> (2 <= n)%nat ->
  nth_error z_pipe_out index = Some zs ->
  nth_error t_e_out index = Some t_row ->
  nth_error t_return index = Some t ->
  (0 < nth index vs 0 -> t = Fin tr) ->
  let sub := if Qlt_bool 0 (nth index vs 0) then nth index vs 0 else 0 in
  let total := dot ms (row_Q zs) + sub in
  let r := calc_return_node_temperature index (map Fin ms) t_e_out t_return
             z_pipe_out (fill_diagonal n (map Fin vs)) in
  (total == 0 -> r = Ok NaN) /\
  (~ total == 0 ->
   exists q, r = Ok (Fin q) /\
             q == (dot ms (map nan_to_num t_row) + sub * tr) / total).
Proof.
  intros Hi Hn Hz Hrow Ht Htr sub total r.
  destruct (m_sub_row_max n index vs Hi Hn) as (row & s & Hsub & Hmax & Hs).
  fold sub in Hs.
  assert (Er : r = if Qeq_bool (dot_m_d_sum_Q ms (row_Q zs) + s) 0 then Ok NaN
                   else do x <- (if Qeq_bool s 0 then Ok (Fin 0)
                                 else do t' <- fgetv t_return index;
                                      Ok (fmul (Fin s) t'));
                        Ok (fdiv (fadd (Fin (dot_m_d_sum_Q ms
                                               (map nan_to_num t_row))) x)
                                 (Fin (dot_m_d_sum_Q ms (row_Q zs) + s)))).
  { unfold r, calc_return_node_temperature.
    rewrite Hz, Hsub. cbn [of_option bind]. rewrite Hmax. cbn [bind].
    replace (map of_Z zs) with (map Fin (row_Q zs))
      by (unfold row_Q; rewrite map_map; reflexivity).
    rewrite dot_m_d_sum_finite. cbn [fadd feqb].
    destruct (Qeq_bool (dot_m_d_sum_Q ms (row_Q zs) + s) 0); [reflexivity|].
    rewrite Hrow. cbn [of_option bind].
    replace (map (fun x => Fin (nan_to_num x)) t_row)
      with (map Fin (map nan_to_num t_row)) by (rewrite map_map; reflexivity).
    rewrite dot_m_d_sum_finite. reflexivity. }
  assert (Etot : dot_m_d_sum_Q ms (row_Q zs) + s == total).
  { unfold total. rewrite dot_m_d_sum_Q_dot, Hs. reflexivity. }
  rewrite Er. split.
  - intro H0. rewrite <- Etot in H0. apply Qeq_bool_iff in H0.
    now rewrite H0.
  - intro Hne.
    destruct (Qeq_bool (dot_m_d_sum_Q ms (row_Q zs) + s) 0) eqn:E.
    { apply Qeq_bool_iff in E. rewrite Etot in E. contradiction. }
    destruct (Qeq_bool s 0) eqn:Es.
    + apply Qeq_bool_iff in Es. cbn [bind fadd fdiv]. rewrite E.
      eexists. split; [reflexivity|].
      rewrite Etot, dot_m_d_sum_Q_dot, <- Hs, Es. unfold Qdiv. ring.
    + assert (Hpos : 0 < nth index vs 0).
      { unfold sub in Hs. destruct (Qlt_bool 0 (nth index vs 0)) eqn:E0.
        - now apply Qlt_bool_iff in E0.
        - apply Qeq_bool_neq in Es. contradiction. }
      unfold fgetv. rewrite Ht, (Htr Hpos). cbn [of_option bind fmul fadd fdiv].
      rewrite E. eexists. split; [reflexivity|].
      rewrite Etot, dot_m_d_sum_Q_dot, <- Hs. reflexivity.
Qed.

Lemma return_node_temperature_mixes_witness :
  let r := calc_return_node_temperature 1 (map Fin [2; 3])
             [[Fin 0; Fin 0]; [Fin 320; NaN]; [Fin 0; Fin 0]]
             [NaN; Fin 310; NaN] [[0; 0]%Z; [1; 0]%Z; [0; 1]%Z]
             (fill_diagonal 3 (map Fin [-5; 2; 3])) in
  (dot [2; 3] (row_Q [1; 0]%Z) + 2 == 0 -> r = Ok NaN) /\
  (~ dot [2; 3] (row_Q [1; 0]%Z) + 2 == 0 ->
   exists q, r = Ok (Fin q) /\
             q == (dot [2; 3] (map nan_to_num [Fin 320; NaN]) + 2 * 310)
                  / (dot [2; 3] (row_Q [1; 0]%Z) + 2)).
Proof.
  apply (return_node_temperature_mixes 1 3 [2; 3] [-5; 2; 3]
           [[Fin 0; Fin 0]; [Fin 320; NaN]; [Fin 0; Fin 0]]
           [NaN; Fin 310; NaN] [[0; 0]%Z; [1; 0]%Z; [0; 1]%Z]
           [1; 0]%Z [Fin 320; NaN] (Fin 310) 310);
    try reflexivity; lia.
Defined.

(** ** The heat the plants deliver *)

Lemma positions_spec {A} (f : A -> bool) (l : list A) (i : nat) :
  In i (positions f l) <-> exists x, nth_error l i = Some x /\ f x = true.
Proof.
  unfold positions.
  assert (G : forall s,
             In i (map fst (filter (fun ix : nat * A => f (snd ix))
                                   (combine (seq s (length l)) l)))
             <-> exists x, (s <= i)%nat /\ nth_error l (i - s) = Some x /\
                           f x = true).
  { induction l as [|a l IH]; intro s.
    - cbn. split; [intros [] | intros (x & _ & H & _)].
      now destruct (i - s)%nat.
    - cbn [length seq combine filter snd].
      assert (Hrest : In i (map fst (filter (fun ix : nat * A => f (snd ix))
                                            (combine (seq (S s) (length l)) l)))
                      <-> exists x, (S s <= i)%nat /\
                                    nth_error (a :: l) (i - s) = Some x /\
                                    f x = true).
      { rewrite IH. split; intros (x & Hle & Hx & Hf); exists x;
          (split; [exact Hle|]); (split; [|exact Hf]).
        - replace (i - s)%nat with (S (i - S s)) by lia. exact Hx.
        - replace (i - s)%nat with (S (i - S s)) in Hx by lia. exact Hx. }
      destruct (f a) eqn:Ea.
      + cbn [map fst In]. rewrite Hrest. split.
        * intros [<-|(x & Hle & Hx & Hf)].
          -- exists a. rewrite Nat.sub_diag. auto.
          -- exists x. split; [lia | auto].
        * intros (x & Hle & Hx & Hf).
          destruct (Nat.eq_dec s i) as [->|Hne]; [now left|].
          right. exists x. split; [lia | auto].
      + rewrite Hrest. split.
        * intros (x & Hle & Hx & Hf). exists x. split; [lia | auto].
        * intros (x & Hle & Hx & Hf).
          destruct (Nat.eq_dec s i) as [->|Hne].
          -- rewrite Nat.sub_diag in Hx. cbn in Hx. congruence.
          -- exists x. split; [lia | auto]. }
  rewrite G. rewrite Nat.sub_0_r.
  split; [intros (x & _ & H); eauto | intros (x & H); exists x; split; [lia | exact H]].
Qed.

Lemma Forall2_nth_error {A B} (P : A -> B -> Prop) (l : list A) (l' : list B) :
  Forall2 P l l' ->
  forall i a, nth_error l i = Some a ->
              exists b, nth_error l' i = Some b /\ P a b.
Proof.
  induction 1 as [|x y l l' Hxy _ IH]; intros i a Hi; [now destruct i|].
  destruct i as [|i]; cbn in *; [injection Hi as <-; eauto | eauto].
Qed.

Lemma map_result_all {A} (g : A -> result float) (x : Q) (l : list A) :
  (forall a, In a l -> exists q, g a = Ok (Fin q) /\ q == x) ->
  exists qs, map_result g l = Ok (map Fin qs) /\ length qs = length l /\
             Forall (fun q => q == x) qs.
Proof.
  induction l as [|a l IH]; intro H.
  - exists []. repeat split; constructor.
  - destruct (H a (or_introl eq_refl)) as (q & Hq & Hx).
    destruct IH as (qs & Hqs & Hlen & Hall);
      [intros b Hb; apply H; now right|].
    exists (q :: qs). cbn [map_result]. rewrite Hq, Hqs. cbn.
    repeat split; [now rewrite Hlen | now constructor].
Qed.

Lemma Qsum_all (x : Q) (qs : list Q) :
  Forall (fun q => q == x) qs ->
  Qsum qs == inject_Z (Z.of_nat (length qs)) * x.
Proof.
  induction 1 as [|q qs Hq _ IH]; [cbn; ring|].
  cbn [Qsum length]. rewrite IH, Hq, Nat2Z.inj_succ, <- Z.add_1_r, inject_Z_plus.
  change (inject_Z 1) with 1. ring.
Qed.

(** X14: fed with the node demands of
    [write_substation_values_to_nodes_df], [calc_plant_heat_requirement]
    returns one value for each plant, and when the plants have the same
    difference between supply and return temperature the values add up
    to [cp / 1000] times that difference times the total flow of the
    consumers: the plants deliver what the consumers draw. *)
Theorem plants_deliver_consumers_heat (ext : externals)
    (all_nodes_df : list node) (df_value : frame) (v : vector)
    (T_supply T_return : list Q) (dT total : Q) :
  (1 <= number_of_plants all_nodes_df)%nat ->
  write_substation_values_to_nodes_df all_nodes_df df_value = Ok v ->
  sum_columns df_value (consumer_list all_nodes_df) = Ok total ->
  0 <= total ->
  length T_supply = length all_nodes_df ->
  length T_return = length all_nodes_df ->
  (forall i, In i (positions (is_type "PLANT") all_nodes_df) ->
             nth i T_supply 0 - nth i T_return 0 == dT) ->
  exists heat,
    calc_plant_heat_requirement ext (positions (is_type "PLANT") all_nodes_df)
      (map Fin T_supply) (map Fin T_return) (map Fin v) = Ok (map Fin heat) /\
    length heat = number_of_plants all_nodes_df /\
    Qsum heat == cp ext / 1000 * dT * total.
Proof.
  intros Hp Hv Htot Hpos Hls Hlr HdT.
  set (p := inject_Z (Z.of_nat (number_of_plants all_nodes_df))).
  assert (Hp0 : 0 < p).
  { unfold p. change 0 with (inject_Z 0). rewrite <- Zlt_Qlt. lia. }
  unfold write_substation_values_to_nodes_df in Hv. rewrite Htot in Hv.
  cbn [bind] in Hv. fold p in Hv. apply map_result_Forall2 in Hv.
  destruct (map_result_all
              (fun node =>
                 do t_supply <- fgetv (map Fin T_supply) node;
                 do t_return <- fgetv (map Fin T_return) node;
                 do m <- fgetv (map Fin v) node;
                 Ok (fmul (fmul (fdiv (Fin (cp ext)) (Fin 1000))
                                (fsub t_supply t_return)) (fabs m)))
              (cp ext / 1000 * dT * (total / p))
              (positions (is_type "PLANT") all_nodes_df))
    as (heat & Hheat & Hlen & Hall).
  { intros i Hi. pose proof (HdT i Hi) as Hd.
    apply positions_spec in Hi. destruct Hi as (row & Hrow & Hplant).
    destruct (Forall2_nth_error _ _ _ Hv i row Hrow) as (x & Hx & Hval).
    assert (Hi : (i < length all_nodes_df)%nat)
      by (apply nth_error_Some; congruence).
    unfold fgetv. rewrite !nth_error_map.
    rewrite (nth_error_nth' T_supply 0) by lia.
    rewrite (nth_error_nth' T_return 0) by lia.
    rewrite Hx. cbn [option_map of_option bind fsub fneg fadd fdiv fmul fabs].
    change (Qeq_bool 1000 0) with false. cbn [fmul].
    eexists. split; [reflexivity|].
    unfold node_value in Hval.
    assert (Hc : is_type "CONSUMER" row = false).
    { unfold is_type in *. apply String.eqb_eq in Hplant. now rewrite Hplant. }
    rewrite Hc, Hplant in Hval. injection Hval as <-.
    fold (nth i T_supply 0 - nth i T_return 0). rewrite Hd.
    rewrite Qabs_opp, Qabs_pos; [reflexivity|].
    apply Qle_shift_div_l; [exact Hp0 | lra]. }
  exists heat. split; [exact Hheat|].
  split.
  - rewrite Hlen, positions_length. reflexivity.
  - rewrite (Qsum_all _ _ Hall), Hlen, positions_length.
    fold (number_of_plants all_nodes_df). fold p. field. lra.
Qed.

Lemma plants_deliver_consumers_heat_witness :
  exists heat,
    calc_plant_heat_requirement (sample_externals [] [])
      (positions (is_type "PLANT") two_plants)
      (map Fin [363; 363; 357]) (map Fin [323; 323; 320])
      (map Fin [-4 # 2; -4 # 2; 4]) = Ok (map Fin heat) /\
    length heat = number_of_plants two_plants /\
    Qsum heat == cp (sample_externals [] []) / 1000 * 40 * 4.
Proof.
  apply (plants_deliver_consumers_heat (sample_externals [] []) two_plants
           [("B1"%string, 4)] [-4 # 2; -4 # 2; 4] [363; 363; 357]
           [323; 323; 320] 40 4).
  - vm_compute; lia.
  - vm_compute. reflexivity.
  - vm_compute. reflexivity.
  - discriminate.
  - reflexivity.
  - reflexivity.
  - intros i Hi. vm_compute in Hi.
    destruct Hi as [<-|[<-|[]]]; reflexivity.
Defined.

(** ** From the nodes to the substations and back *)

Lemma flookup_unique (df : fframe) (name : string) (x : float) :
  NoDup (map fst df) -> In (name, x) df -> flookup name df = Ok x.
Proof.
  induction df as [|[n y] df IH]; intros Hnd Hin; [destruct Hin|].
  cbn [map fst] in Hnd. inversion Hnd as [|? ? Hn Hrest]; subst.
  cbn [flookup]. destruct Hin as [Hin|Hin].
  - injection Hin as -> ->. now rewrite String.eqb_refl.
  - destruct (String.eqb n name) eqn:E; [|now apply IH].
    apply String.eqb_eq in E. subst n. elim Hn.
    change name with (fst (name, x)). now apply in_map.
Qed.

Lemma filter_combine_fst {A B} (f : A -> bool) (l : list A) :
  forall l' : list B,
    length l' = length l ->
    map fst (filter (fun ab : A * B => f (fst ab)) (combine l l')) = filter f l.
Proof.
  induction l as [|a l IH]; intros [|b l'] H; try discriminate; [reflexivity|].
  cbn [combine filter fst]. destruct (f a); cbn [map fst]; rewrite IH; auto.
Qed.

Lemma map_result_combine {A B C} (g : A -> result C) (h : A * B -> C)
    (l : list A) :
  forall l' : list B,
    length l' = length l ->
    (forall ab, In ab (combine l l') -> g (fst ab) = Ok (h ab)) ->
    map_result g l = Ok (map h (combine l l')).
Proof.
  induction l as [|a l IH]; intros [|b l'] Hlen H; try discriminate;
    [reflexivity|].
  cbn [combine map map_result].
  pose proof (H (a, b) (or_introl eq_refl)) as Ha. cbn [fst] in Ha.
  rewrite Ha. cbn [bind].
  rewrite (IH l'); [reflexivity | auto |].
  intros ab Hab. apply H. now right.
Qed.

(** X15: the values of the nodes written to the substations by
    [write_nodes_values_to_substations] and read back by
    [write_substation_temperatures_to_nodes_df] are, when the nodes with a
    building have distinct buildings, the values the consumer nodes had;
    every other node reads [NaN].  The substations are those of the nodes
    with a building, plants included. *)
Theorem node_values_round_trip (all_nodes_df : list node)
    (t_supply_nodes : list float) :
  length t_supply_nodes = length all_nodes_df ->
  NoDup (map Building
             (filter (fun n => negb (String.eqb (Building n) "NONE"))
                     all_nodes_df)) ->
  Forall (fun n => is_type "CONSUMER" n = true -> Building n <> "NONE"%string)
         all_nodes_df ->
  exists substations,
    write_nodes_values_to_substations t_supply_nodes all_nodes_df
      = Ok substations /\
    map fst substations
    = map Building (filter (fun n => negb (String.eqb (Building n) "NONE"))
                           all_nodes_df) /\
    write_substation_temperatures_to_nodes_df all_nodes_df substations
    = Ok (map (fun nt : node * float =>
                 if is_type "CONSUMER" (fst nt) then snd nt else NaN)
              (combine all_nodes_df t_supply_nodes)).
Proof.
  intros Hlen Hnd Hcons. unfold write_nodes_values_to_substations.
  rewrite Hlen, Nat.eqb_refl. eexists. split; [reflexivity|].
  set (sub := map (fun nt : node * float => (Building (fst nt), snd nt))
                  (filter (fun nt : node * float =>
                             negb (String.eqb (Building (fst nt)) "NONE"))
                          (combine all_nodes_df t_supply_nodes))).
  assert (Hkeys : map fst sub
                  = map Building
                        (filter (fun n => negb (String.eqb (Building n) "NONE"))
                                all_nodes_df)).
  { unfold sub. rewrite map_map. cbn [fst].
    rewrite <- (filter_combine_fst
                  (fun n => negb (String.eqb (Building n) "NONE"))
                  all_nodes_df t_supply_nodes Hlen).
    now rewrite map_map. }
  split; [exact Hkeys|].
  unfold write_substation_temperatures_to_nodes_df.
  apply map_result_combine; [exact Hlen|].
  intros [n t] Hin. cbn [fst snd].
  destruct (is_type "CONSUMER" n) eqn:Ec; [|reflexivity].
  apply flookup_unique; [now rewrite Hkeys|].
  unfold sub. apply in_map_iff. exists (n, t). split; [reflexivity|].
  apply filter_In. split; [exact Hin|]. cbn [fst].
  rewrite Forall_forall in Hcons. apply in_combine_l in Hin.
  specialize (Hcons n Hin Ec).
  destruct (String.eqb (Building n) "NONE") eqn:E; [|reflexivity].
  apply String.eqb_eq in E. contradiction.
Qed.

Lemma node_values_round_trip_witness :
  exists substations,
    write_nodes_values_to_substations [Fin 363; Fin 360; NaN] ring_nodes
      = Ok substations /\
    map fst substations
    = map Building (filter (fun n => negb (String.eqb (Building n) "NONE"))
                           ring_nodes) /\
    write_substation_temperatures_to_nodes_df ring_nodes substations
    = Ok (map (fun nt : node * float =>
                 if is_type "CONSUMER" (fst nt) then snd nt else NaN)
              (combine ring_nodes [Fin 363; Fin 360; NaN])).
Proof.
  apply node_values_round_trip.
  - reflexivity.
  - cbn. repeat (apply NoDup_cons; [cbn; intuition discriminate|]).
    apply NoDup_nil.
  - repeat (apply Forall_cons; [cbn; intros; discriminate|]). apply Forall_nil.
Defined.

(** ** The temperature of an edge *)

Lemma dot_map_ext {A} (f g : A -> Q) (l : list A) :
  (forall a, In a l -> f a == g a) ->
  forall T, dot T (map f l) == dot T (map g l).
Proof.
  induction l as [|a l IH]; intros H T; [now destruct T|].
  destruct T as [|t T]; [reflexivity|]. cbn [map dot].
  rewrite (H a (or_introl eq_refl)), IH; [reflexivity|].
  intros b Hb. apply H. now right.
Qed.

Lemma dot_map_add {A} (f g : A -> Q) (l : list A) :
  forall T, dot T (map (fun a => f a + g a) l)
            == dot T (map f l) + dot T (map g l).
Proof.
  induction l as [|a l IH]; intro T; [destruct T; cbn; ring|].
  destruct T as [|t T]; [cbn; ring|]. cbn [map dot]. rewrite IH. ring.
Qed.

Lemma dot_map_zero {A} (f : A -> Q) (l : list A) :
  (forall a, In a l -> f a == 0) -> forall T, dot T (map f l) == 0.
Proof.
  induction l as [|a l IH]; intros H T; [now destruct T|].
  destruct T as [|t T]; [reflexivity|]. cbn [map dot].
  rewrite (H a (or_introl eq_refl)), IH; [ring|].
  intros b Hb. apply H. now right.
Qed.

(** a weight on one name picks the value at the position of the name *)
Lemma dot_single (w : Q) (a : string) (names : list string) :
  NoDup names ->
  forall (i : nat) (T : list Q),
    nth_error names i = Some a -> length T = length names ->
    dot T (map (fun n => if String.eqb n a then w else 0) names)
    == nth i T 0 * w.
Proof.
  induction 1 as [|n names Hn Hnd IH]; intros i T Hi Hlen; [now destruct i|].
  destruct T as [|t T]; [discriminate|]. cbn [map dot].
  destruct i as [|i]; cbn [nth_error nth] in *.
  - injection Hi as ->. rewrite String.eqb_refl.
    rewrite dot_map_zero; [ring|].
    intros b Hb. destruct (String.eqb b a) eqn:E; [|reflexivity].
    apply String.eqb_eq in E. subst b. contradiction.
  - destruct (String.eqb n a) eqn:E.
    + apply String.eqb_eq in E. subst n. apply nth_error_In in Hi. contradiction.
    + rewrite (IH i T Hi) by (cbn in Hlen; lia). ring.
Qed.

Lemma half_incidence (e : edge) (n : string) :
  start_node e <> end_node e ->
  Qabs (inject_Z (incidence n e)) / 2
  == (if String.eqb n (start_node e) then 1 # 2 else 0)
     + (if String.eqb n (end_node e) then 1 # 2 else 0).
Proof.
  intro Hne. unfold incidence.
  rewrite (String.eqb_sym n (start_node e)), (String.eqb_sym n (end_node e)).
  destruct (String.eqb (end_node e) n) eqn:E1;
    destruct (String.eqb (start_node e) n) eqn:E2; try reflexivity.
  apply String.eqb_eq in E1, E2. congruence.
Qed.

Lemma fill_missing_length (t : list float) :
  length (fill_missing t) = length t.
Proof. unfold fill_missing. apply length_map. Qed.

(** X16: for an edge between two different nodes of the table,
    [calc_edge_temperatures] gives the mean of the temperatures of its two
    ends, as its docstring says, a node without temperature counting with
    the mean of the nodes that have one; a mean below 273.15 K is given as
    [NaN].  The array of node temperatures is left with its [NaN] entries
    replaced. *)
Theorem edge_temperature_is_mean_of_ends (names : list string)
    (edges : list edge) (temperature_node : list float) (j iu iv : nat)
    (e : edge) :
  NoDup names ->
  length temperature_node = length names ->
  nth_error edges j = Some e ->
  nth_error names iu = Some (start_node e) ->
  nth_error names iv = Some (end_node e) ->
  start_node e <> end_node e ->
  let filled := fill_missing temperature_node in
  exists temperature_edge x,
    calc_edge_temperatures temperature_node (edge_node_matrix names edges)
      = Ok (temperature_edge, filled) /\
    x == (nan_to_num (nth iu filled NaN) + nan_to_num (nth iv filled NaN)) / 2 /\
    nth_error temperature_edge j
    = Some (if Qlt_bool x 273.15 then NaN else Fin x).
Proof.
  intros Hnd Hlen Hj Hu Hv Hne filled. unfold calc_edge_temperatures.
  fold filled.
  assert (Hfl : length filled = length names)
    by (unfold filled; now rewrite fill_missing_length).
  unfold edge_node_matrix at 1. rewrite length_map, Hfl, Nat.eqb_refl.
  assert (He : n_edges (edge_node_matrix names edges) = length edges).
  { destruct names as [|n names]; [now destruct iu|].
    cbn. apply length_map. }
  assert (Hjlt : (j < length edges)%nat) by (apply nth_error_Some; congruence).
  set (F := fun e0 : nat =>
              dot (map nan_to_num filled)
                  (map (fun z => Qabs (inject_Z z) / 2)
                       (column (edge_node_matrix names edges) e0))).
  exists (map (fun x => if Qlt_bool x 273.15 then NaN else Fin x)
              (map F (seq 0 (n_edges (edge_node_matrix names edges))))), (F j).
  split; [reflexivity|]. split.
  - unfold F. rewrite (column_edge_node_matrix names edges j e Hj), map_map.
    rewrite (dot_map_ext _ _ names (fun n _ => half_incidence e n Hne)).
    rewrite dot_map_add.
    rewrite (dot_single (1 # 2) (start_node e) names Hnd iu)
      by (auto; now rewrite length_map).
    rewrite (dot_single (1 # 2) (end_node e) names Hnd iv)
      by (auto; now rewrite length_map).
    change 0 with (nan_to_num NaN). rewrite !map_nth.
    unfold Qdiv. change (/ 2) with (1 # 2). ring.
  - rewrite !nth_error_map, He.
    rewrite (nth_error_nth' (seq 0 (length edges)) O)
      by (rewrite length_seq; exact Hjlt).
    rewrite seq_nth by exact Hjlt. reflexivity.
Qed.

Lemma edge_temperature_is_mean_of_ends_witness :
  let filled := fill_missing [Fin 363; NaN] in
  exists temperature_edge x,
    calc_edge_temperatures [Fin 363; NaN]
      (edge_node_matrix ["NODE0"; "NODE1"]%string
         [ {| start_node := "NODE0"; end_node := "NODE1" |} ])
      = Ok (temperature_edge, filled) /\
    x == (nan_to_num (nth 0 filled NaN) + nan_to_num (nth 1 filled NaN)) / 2 /\
    nth_error temperature_edge 0
    = Some (if Qlt_bool x 273.15 then NaN else Fin x).
Proof.
  apply (edge_temperature_is_mean_of_ends ["NODE0"; "NODE1"]%string
           [ {| start_node := "NODE0"; end_node := "NODE1" |} ]
           [Fin 363; NaN] 0 0 1
           {| start_node := "NODE0"; end_node := "NODE1" |});
    try reflexivity.
  - repeat (apply NoDup_cons; [cbn; intuition discriminate|]). apply NoDup_nil.
  - discriminate.
Defined.

(** ** The equation of the first plant *)

Lemma solve_mass_flow_tree ext A demand nodes D L T st :
  fst (find_loops ext A) = [] ->
  solve_mass_flow ext A demand nodes D L T = Ok st ->
  exists plant_index,
    first_plant nodes = Ok plant_index /\
    linalg_solve (map row_Q (reduced_matrix plant_index A))
                 (reduced_demand plant_index demand)
    = Ok (sf_mass_flow_edge st).
Proof.
  intros Hloops H. unfold solve_mass_flow, find_loops in *.
  cbn [fst] in Hloops. rewrite Hloops in H.
  bind_inv H as i Hi. bind_inv H as xs Hxs. injection H as <-.
  exists i. auto.
Qed.

Lemma column_tl (A : matrix) (j : nat) :
  column (map (@tl Z) A) j = column A (S j).
Proof.
  unfold column. rewrite map_map. apply map_ext.
  intros [|x r]; [now destruct j | reflexivity].
Qed.

Lemma Qsum_mat_vec_cons (A : matrix) (x : Q) (xs : vector) :
  Qsum (mat_vec A (x :: xs))
  == inject_Z (fold_right Z.add 0%Z (column A 0)) * x
     + Qsum (mat_vec (map (@tl Z) A) xs).
Proof.
  induction A as [|r A IH]; [cbn; ring|].
  cbn [mat_vec map Qsum column fold_right] in *. rewrite IH.
  rewrite inject_Z_plus. unfold column, mat_vec.
  destruct r as [|a r]; cbn [row_Q map dot nth tl].
  - change (inject_Z 0) with 0. ring.
  - ring.
Qed.

(** with balanced columns the node equations add up to nothing *)
Lemma Qsum_mat_vec_balanced (xs : vector) :
  forall A : matrix,
    (forall j, column_balanced (column A j)) ->
    Qsum (mat_vec A xs) == 0.
Proof.
  induction xs as [|x xs IH]; intros A H.
  - unfold mat_vec. apply Qsum_zero. intros r _. now destruct (row_Q r).
  - rewrite Qsum_mat_vec_cons, (H 0%nat), IH; [cbn; ring|].
    intro j. rewrite column_tl. apply H.
Qed.

Lemma Qsum_delete (l : vector) :
  forall i, (i < length l)%nat -> Qsum l == nth i l 0 + Qsum (delete i l).
Proof.
  induction l as [|x l IH]; intros i Hi; [simpl in Hi; lia|].
  destruct i as [|i]; [reflexivity|].
  cbn [delete Qsum nth]. rewrite (IH i) by (simpl in Hi; lia). ring.
Qed.

Lemma delete_map {A B} (f : A -> B) (l : list A) :
  forall i, delete i (map f l) = map f (delete i l).
Proof.
  induction l as [|x l IH]; intro i; [now destruct i|].
  destruct i; cbn [map delete]; [reflexivity | now rewrite IH].
Qed.

Lemma Forall2_Qsum (u v : vector) : Forall2 Qeq u v -> Qsum u == Qsum v.
Proof.
  induction 1 as [|x y u v Hxy _ IH]; [reflexivity|].
  cbn [Qsum]. now rewrite Hxy, IH.
Qed.

Lemma Forall2_undelete {A B} (P : A -> B -> Prop) (da : A) (db : B) :
  forall (l : list A) (l' : list B) (i : nat),
    (i < length l)%nat -> (i < length l')%nat ->
    P (nth i l da) (nth i l' db) ->
    Forall2 P (delete i l) (delete i l') ->
    Forall2 P l l'.
Proof.
  induction l as [|a l IH]; intros [|b l'] i Hi Hi' Hp H;
    try (simpl in Hi, Hi'; lia).
  destruct i as [|i]; cbn [delete nth] in *.
  - now constructor.
  - inversion H; subst. constructor; [assumption|].
    apply (IH l' i); [cbn in Hi; lia | cbn in Hi'; lia | exact Hp | assumption].
Qed.

Lemma Forall2_map_l_inv {A B C} (f : A -> B) (P : B -> C -> Prop) l l' :
  Forall2 (fun a c => P (f a) c) l l' -> Forall2 P (map f l) l'.
Proof. induction 1; cbn [map]; constructor; auto. Qed.

(** X17: on a network without loops whose columns are balanced (every edge
    leaves one node and enters another) and whose node demands add up to
    zero, the flows [calc_mass_flow_edges] solves for, before rounding,
    satisfy the mass balance at every node: also at the first plant,
    whose equation is dropped from the system that is solved. *)
Theorem plant_equation_holds ext A demand nodes D L T st plant_index :
  fst (find_loops ext A) = [] ->
  first_plant nodes = Ok plant_index ->
  solve_mass_flow ext A demand nodes D L T = Ok st ->
  (plant_index < length A)%nat ->
  length demand = length A ->
  (forall j, column_balanced (column A j)) ->
  Qsum (map nan_to_num demand) == 0 ->
  Forall2 (fun row b => dot (row_Q row) (sf_mass_flow_edge st) == b)
          A (map nan_to_num demand).
Proof.
  intros Hloops Hp Hst Hi Hlen Hbal Hzero.
  destruct (solve_mass_flow_tree ext A demand nodes D L T st Hloops Hst)
    as (i & Hi' & Hsolve).
  rewrite Hp in Hi'. injection Hi' as <-.
  set (xs := sf_mass_flow_edge st) in *.
  set (b := map nan_to_num demand) in *.
  apply linalg_solve_sound in Hsolve. destruct Hsolve as [_ Hrows].
  unfold reduced_matrix, reduced_demand in Hrows. fold b in Hrows.
  apply Forall2_map_l in Hrows.
  assert (Hb : (plant_index < length b)%nat)
    by (unfold b; rewrite length_map; lia).
  apply (Forall2_undelete _ [] 0 A b plant_index Hi Hb); [|exact Hrows].
  pose proof (Qsum_mat_vec_balanced xs A Hbal) as Hsum.
  rewrite (Qsum_delete (mat_vec A xs) plant_index) in Hsum
    by (unfold mat_vec; rewrite length_map; exact Hi).
  rewrite (Qsum_delete b plant_index Hb) in Hzero.
  unfold mat_vec in Hsum at 2. rewrite delete_map in Hsum.
  assert (Hrest : Qsum (map (fun r => dot (row_Q r) xs) (delete plant_index A))
                  == Qsum (delete plant_index b)).
  { apply Forall2_Qsum. apply Forall2_map_l_inv. exact Hrows. }
  assert (Hnth : nth plant_index (mat_vec A xs) 0
                 = dot (row_Q (nth plant_index A [])) xs).
  { unfold mat_vec.
    change 0 with ((fun r => dot (row_Q r) xs) []) at 1.
    now rewrite map_nth. }
  rewrite Hnth, Hrest in Hsum. lra.
Qed.

Lemma plant_equation_holds_witness :
  Forall2 (fun row b => dot (row_Q row) [5 # 1] == b)
          one_pipe (map nan_to_num [Fin (-5); Fin 5]).
Proof.
  apply (plant_equation_holds (sample_externals [] []) one_pipe
           [Fin (-5); Fin 5] two_nodes [0.1] [100] [353]
           {| sf_mass_flow_edge := [5 # 1]; sf_sum_delta_m_num := [];
              sf_log := [] |} 0%nat).
  - reflexivity.
  - reflexivity.
  - vm_compute. reflexivity.
  - simpl; lia.
  - reflexivity.
  - intros [|j]; [reflexivity|]. unfold column_balanced, column, one_pipe.
    cbn [map]. now destruct j.
  - reflexivity.
Defined.

(** ** The loop correction moves flow around loops only *)

Lemma last_index_of_absent (z : Z) (col : list Z) :
  (forall i, (i < length col)%nat -> nth i col 0%Z <> z) ->
  forall s d,
    snd (fold_left (fun (st : nat * nat) x =>
                      (S (fst st), if Z.eqb x z then fst st else snd st))
                   col (s, d)) = d.
Proof.
  induction col as [|x col IH]; intros H s d; [reflexivity|].
  cbn [fold_left fst snd].
  assert (Hx : Z.eqb x z = false).
  { apply Z.eqb_neq. apply (H 0%nat). cbn. lia. }
  rewrite Hx. apply IH. intros i Hi. apply (H (S i)). cbn. lia.
Qed.

(** the position of the only [z] of a column *)
Lemma last_index_of_unique (z : Z) (col : list Z) :
  forall a s d,
    (a < length col)%nat ->
    (forall i, (i < length col)%nat -> (nth i col 0%Z = z <-> i = a)) ->
    snd (fold_left (fun (st : nat * nat) x =>
                      (S (fst st), if Z.eqb x z then fst st else snd st))
                   col (s, d)) = (s + a)%nat.
Proof.
  induction col as [|x col IH]; intros a s d Ha H; [cbn in Ha; lia|].
  cbn [fold_left fst snd]. destruct a as [|a].
  - assert (Hx : Z.eqb x z = true).
    { apply Z.eqb_eq. apply (H 0%nat); [cbn; lia | reflexivity]. }
    rewrite Hx, last_index_of_absent; [lia|].
    intros i Hi E. assert (S i = 0%nat); [|lia].
    apply H; [cbn; lia | exact E].
  - assert (Hx : Z.eqb x z = false).
    { apply Z.eqb_neq. intro E. assert (0%nat = S a); [|lia].
      apply H; [cbn; lia | exact E]. }
    rewrite Hx, (IH a (S s) d); [lia | cbn in Ha; lia |].
    intros i Hi. split.
    + intro E. assert (S i = S a); [|lia]. apply H; [cbn; lia | exact E].
    + intros ->. apply (H (S a)); [cbn; lia | reflexivity].
Qed.

Lemma column_joins_ends (col : list Z) (a b : nat) :
  column_joins col a b ->
  last_index_of 1 col = a /\ last_index_of (-1) col = b.
Proof.
  intros [Hab H]. unfold last_index_of.
  assert (Ha : (a < length col)%nat).
  { destruct (Nat.lt_ge_cases a (length col)) as [Hlt|Hge]; [exact Hlt|].
    pose proof (H a) as E. rewrite nth_overflow, Nat.eqb_refl in E by exact Hge.
    discriminate. }
  assert (Hb : (b < length col)%nat).
  { destruct (Nat.lt_ge_cases b (length col)) as [Hlt|Hge]; [exact Hlt|].
    pose proof (H b) as E. rewrite nth_overflow, Nat.eqb_refl in E by exact Hge.
    destruct (Nat.eqb b a); discriminate. }
  split.
  - rewrite (last_index_of_unique 1 col a 0 0 Ha); [reflexivity|].
    intros i _. rewrite H. destruct (Nat.eqb_spec i a) as [->|Hne].
    + tauto.
    + destruct (Nat.eqb i b); split; intro; try discriminate; contradiction.
  - rewrite (last_index_of_unique (-1) col b 0 0 Hb); [reflexivity|].
    intros i _. rewrite H. destruct (Nat.eqb_spec i a) as [->|Hne].
    + split; [discriminate | intro; subst; contradiction].
    + destruct (Nat.eqb_spec i b) as [->|Hne'];
        split; intro; try discriminate; try reflexivity; contradiction.
Qed.

Lemma get_edge_data_from (g : graph) (u v c : nat) :
  forall acc,
    fold_left (fun acc (e : nat * nat * nat) =>
                 let '(a, b, i) := e in
                 if (Nat.eqb a u && Nat.eqb b v) || (Nat.eqb a v && Nat.eqb b u)
                 then Some i else acc)
              g acc = Some c ->
    acc = Some c \/
    exists a b, In (a, b, c) g /\ ((a = u /\ b = v) \/ (a = v /\ b = u)).
Proof.
  induction g as [|[[a b] i] g IH]; intros acc H; [now left|].
  cbn [fold_left] in H. apply IH in H. destruct H as [H|(a' & b' & Hin & Hab)].
  - destruct ((Nat.eqb a u && Nat.eqb b v) || (Nat.eqb a v && Nat.eqb b u))
      eqn:E; [|now left].
    injection H as ->. right. exists a, b. split; [now left|].
    apply orb_true_iff in E. destruct E as [E|E];
      apply andb_true_iff in E; destruct E as [E1 E2];
      apply Nat.eqb_eq in E1, E2; auto.
  - right. exists a', b'. split; [now right | exact Hab].
Qed.

(** the edge [get_edge_data] answers for two nodes joins them *)
Lemma get_edge_data_joins (A : matrix) (u v c : nat) :
  proper_incidence A ->
  get_edge_data (build_graph A) u v = Some c ->
  column_joins (column A c) u v \/ column_joins (column A c) v u.
Proof.
  intros Hp H. unfold get_edge_data in H. apply get_edge_data_from in H.
  destruct H as [H|(a & b & Hin & Hab)]; [discriminate|].
  unfold build_graph in Hin. apply in_map_iff in Hin.
  destruct Hin as (i & Hi & Hseq). injection Hi as Ha Hb ->.
  apply in_seq in Hseq. destruct (Hp c) as (a' & b' & Hj); [lia|].
  destruct (column_joins_ends _ _ _ Hj) as [E1 E2].
  rewrite E1 in Ha. rewrite E2 in Hb. subst a' b'.
  destruct Hab as [[-> ->]|[-> ->]]; auto.
Qed.

Lemma nth_column (A : matrix) (i c : nat) :
  nth i (column A c) 0%Z = nth c (nth i A []) 0%Z.
Proof.
  unfold column. revert i.
  induction A as [|r A IH]; intros [|i]; cbn [map nth]; auto;
    now destruct c.
Qed.

Lemma entry_nth (A : matrix) (i j : nat) (x : Z) :
  entry A i j = Ok x -> nth i (column A j) 0%Z = x.
Proof.
  unfold entry. rewrite nth_column.
  destruct (nth_error A i) as [r|] eqn:Er; [|discriminate].
  rewrite (nth_error_nth A i [] Er).
  destruct (nth_error r j) as [y|] eqn:Ey; [|discriminate].
  intro H. injection H as <-. exact (nth_error_nth r j 0%Z Ey).
Qed.

Lemma dot_set_nth (m : vector) :
  forall (c : nat) (x : Q) (m' : vector) (u : list Q),
    set_nth m c x = Ok m' ->
    dot u m' == dot u m + nth c u 0 * (x - nth c m 0).
Proof.
  induction m as [|y m IH]; intros c x m' u H; [discriminate|].
  destruct c as [|c]; cbn [set_nth] in H.
  - injection H as <-. destruct u as [|a u]; cbn [dot nth]; ring.
  - bind_inv H as w Hw. injection H as <-.
    destruct u as [|a u]; cbn [dot nth]; [ring|].
    rewrite (IH c x w u Hw). ring.
Qed.

(** what a step along a loop adds to the balance of node [i], for each
    unit of the correction: one at the node the step leaves, minus one at
    the node it reaches *)
Lemma loop_edge_effect (A : matrix) (first u : nat) (rest : list nat)
    (c : nat) (cw : Q) :
  proper_incidence A ->
  loop_edge A (build_graph A) first u rest = Ok (c, cw) ->
  forall i,
    inject_Z (nth i (column A c) 0%Z) * cw
    == at_node i u - at_node i (hd first rest).
Proof.
  intros Hp H i. unfold loop_edge in H.
  replace (match rest with [] => first | v :: _ => v end)
    with (hd first rest) in H by (now destruct rest).
  bind_inv H as e He. bind_inv H as x Hx. bind_inv H as y Hy.
  injection H as -> <-.
  destruct (get_edge_data (build_graph A) u (hd first rest)) as [e'|] eqn:Eg;
    [|discriminate].
  injection He as ->.
  apply entry_nth in Hx, Hy.
  unfold at_node.
  destruct (get_edge_data_joins A _ _ _ Hp Eg) as [[Hne Hcol]|[Hne Hcol]].
  - rewrite Hcol in Hx, Hy. rewrite Nat.eqb_refl in Hx.
    assert (E : Nat.eqb (hd first rest) u = false)
      by (apply Nat.eqb_neq; congruence).
    rewrite E, Nat.eqb_refl in Hy. subst x y. cbn [Z.eqb Pos.eqb andb].
    rewrite Hcol.
    destruct (Nat.eqb_spec i u) as [->|Hiu].
    + assert (E' : Nat.eqb u (hd first rest) = false)
        by (apply Nat.eqb_neq; congruence).
      rewrite E'. reflexivity.
    + destruct (Nat.eqb i (hd first rest)); reflexivity.
  - rewrite Hcol in Hx, Hy. rewrite Nat.eqb_refl in Hy.
    assert (E : Nat.eqb u (hd first rest) = false)
      by (apply Nat.eqb_neq; congruence).
    rewrite E, Nat.eqb_refl in Hx. subst x y. cbn [Z.eqb andb].
    rewrite Hcol.
    destruct (Nat.eqb_spec i (hd first rest)) as [->|Hiv].
    + assert (E' : Nat.eqb (hd first rest) u = false)
        by (apply Nat.eqb_neq; congruence).
      rewrite E'. reflexivity.
    + destruct (Nat.eqb i u); reflexivity.
Qed.

Lemma get_nth (v : vector) (i : nat) (x : Q) : get v i = Ok x -> nth i v 0 = x.
Proof.
  unfold get. destruct (nth_error v i) as [y|] eqn:E; [|discriminate].
  intro H. injection H as <-. exact (nth_error_nth v i 0 E).
Qed.

Lemma apply_loop_effect (A : matrix) (delta_m : Q) (first : nat) :
  proper_incidence A ->
  forall (loop : list nat) (m m' : vector),
    apply_loop A (build_graph A) delta_m first loop m = Ok m' ->
    forall i,
      dot (row_Q (nth i A [])) m'
      == dot (row_Q (nth i A [])) m
         + delta_m * (at_node i (hd first loop) - at_node i first).
Proof.
  intros Hp. induction loop as [|u rest IH]; intros m m' H i.
  - injection H as <-. cbn [hd]. ring.
  - cbn [apply_loop] in H. bind_inv H as ec Hec. destruct ec as [c cw].
    bind_inv H as x Hx. bind_inv H as m1 Hm1. cbn [fst snd] in *.
    rewrite (IH m1 m' H i).
    rewrite (dot_set_nth m c _ m1 _ Hm1).
    apply get_nth in Hx. rewrite Hx.
    pose proof (loop_edge_effect A first u rest c cw Hp Hec i) as He.
    rewrite nth_column in He.
    assert (Hn : nth c (row_Q (nth i A [])) 0
                 = inject_Z (nth c (nth i A []) 0%Z)).
    { unfold row_Q. change 0 with (inject_Z 0) at 1. now rewrite map_nth. }
    rewrite Hn. cbn [hd].
    setoid_replace (inject_Z (nth c (nth i A []) 0%Z) * (x + delta_m * cw - x))
      with (delta_m * (inject_Z (nth c (nth i A []) 0%Z) * cw)) by ring.
    rewrite He. ring.
Qed.

Lemma correct_loops_effect (A : matrix) (num den : vector) :
  proper_incidence A ->
  forall (loops : list (list nat)) (m : vector) r,
    correct_loops A (build_graph A) num den loops m = Ok r ->
    forall i, dot (row_Q (nth i A [])) (fst r) == dot (row_Q (nth i A [])) m.
Proof.
  intros Hp. induction loops as [|loop loops IH]; intros m r H i.
  - injection H as <-. reflexivity.
  - cbn [correct_loops] in H. bind_inv H as s Hs. bind_inv H as m1 Hm1.
    bind_inv H as r1 Hr1. injection H as <-. cbn [fst].
    rewrite (IH m1 r1 Hr1 i).
    rewrite (apply_loop_effect A _ _ Hp loop m m1 Hm1 i).
    destruct loop; cbn [hd]; ring.
Qed.

Lemma mat_vec_rows (A : matrix) (m m' : vector) :
  (forall i, dot (row_Q (nth i A [])) m' == dot (row_Q (nth i A [])) m) ->
  Forall2 Qeq (mat_vec A m') (mat_vec A m).
Proof.
  induction A as [|r A IH]; intro H; [constructor|].
  cbn [mat_vec map]. constructor; [exact (H 0%nat)|].
  apply IH. intro i. exact (H (S i)).
Qed.

(** X18: one pass of the loop correction of [calc_mass_flow_edges] over a
    proper incidence matrix changes the balance of no node: each
    correction adds the same amount along a closed walk, so what it adds
    to the flow entering a node it adds to the flow leaving it.  (Every
    loop is taken to have a pressure-loss derivative that is not zero, so
    that its correction is a number.) *)
Theorem loop_pass_keeps_node_balance ext A loops D L T (m : vector) :
  let num := zip_with Qmult (calc_pressure_loss_pipe ext D L m T 2)
                      (map Qsign m) in
  let den := map Qabs (calc_pressure_loss_pipe ext D L m T 1) in
  proper_incidence A ->
  length D = length m -> length L = length m -> length T = length m ->
  loops_resolve A (build_graph A) (length m) loops = true ->
  Forall (fun loop =>
            forall s, sum_loop A (build_graph A) num den (hd O loop) loop (0, 0)
                      = Ok s -> ~ snd s == 0) loops ->
  exists r,
    hardy_cross_pass ext A (build_graph A) loops D L T m = Ok r /\
    Forall2 Qeq (mat_vec A (fst r)) (mat_vec A m).
Proof.
  cbv zeta. intros Hp HD HL HT Hr _.
  destruct (hardy_cross_pass_ok ext A (build_graph A) loops D L T m
              HD HL HT Hr) as (r & Hpass & _).
  exists r. split; [exact Hpass|].
  apply mat_vec_rows. intro i. unfold hardy_cross_pass in Hpass.
  exact (correct_loops_effect A _ _ Hp loops m r Hpass i).
Qed.

Lemma loop_pass_keeps_node_balance_witness :
  exists r,
    hardy_cross_pass (sample_externals [[0; 1; 2]%nat] [3; 1; 2]) ring
      (build_graph ring) [[0; 1; 2]%nat]
      [0.1; 0.1; 0.1] [100; 100; 100] [353; 353; 353] [3; 1; 2] = Ok r /\
    Forall2 Qeq (mat_vec ring (fst r)) (mat_vec ring [3; 1; 2]).
Proof.
  apply (loop_pass_keeps_node_balance
           (sample_externals [[0; 1; 2]%nat] [3; 1; 2]) ring
           [[0; 1; 2]%nat]
           [0.1; 0.1; 0.1] [100; 100; 100] [353; 353; 353] [3; 1; 2]);
    try reflexivity.
  - intros c Hc. cbn in Hc.
    destruct c as [|[|[|c]]]; [| | |lia].
    + exists 1%nat, 0%nat. split; [lia|].
      intros [|[|[|[|i]]]]; reflexivity.
    + exists 2%nat, 1%nat. split; [lia|].
      intros [|[|[|[|i]]]]; reflexivity.
    + exists 2%nat, 0%nat. split; [lia|].
      intros [|[|[|[|i]]]]; reflexivity.
  - apply Forall_cons; [|apply Forall_nil].
    intros s Hs. vm_compute in Hs. injection Hs as <-.
    vm_compute. discriminate.
Defined.

(** ** Rounding and signs *)

Lemma Qle_bool_comp (a b c : Q) : a == b -> Qle_bool a c = Qle_bool b c.
Proof.
  intro E. destruct (Qle_bool a c) eqn:Ea, (Qle_bool b c) eqn:Eb;
    try reflexivity.
  - apply Qle_bool_iff in Ea. rewrite E in Ea. apply Qle_bool_iff in Ea.
    congruence.
  - apply Qle_bool_iff in Eb. rewrite <- E in Eb. apply Qle_bool_iff in Eb.
    congruence.
Qed.

Lemma Qeq_bool_comp (a b c : Q) : a == b -> Qeq_bool a c = Qeq_bool b c.
Proof.
  intro E. destruct (Qeq_bool a c) eqn:Ea, (Qeq_bool b c) eqn:Eb;
    try reflexivity.
  - apply Qeq_bool_iff in Ea. rewrite E in Ea. apply Qeq_bool_iff in Ea.
    congruence.
  - apply Qeq_bool_iff in Eb. rewrite <- E in Eb. apply Qeq_bool_iff in Eb.
    congruence.
Qed.

Lemma rint_comp (x y : Q) : x == y -> rint x = rint y.
Proof.
  intro E. unfold rint. rewrite (Qfloor_comp x y E).
  assert (Er : x - inject_Z (Qfloor y) == y - inject_Z (Qfloor y))
    by (now rewrite E).
  now rewrite (Qle_bool_comp _ _ _ Er), (Qeq_bool_comp _ _ _ Er).
Qed.

Lemma np_round5_comp (x y : Q) : x == y -> np_round5 x = np_round5 y.
Proof.
  intro E. unfold np_round5. rewrite (rint_comp (x * 100000) (y * 100000));
    [reflexivity | now rewrite E].
Qed.

Lemma Qfloor_unique (x : Q) (k : Z) :
  inject_Z k <= x -> x < inject_Z (k + 1) -> Qfloor x = k.
Proof.
  intros H1 H2. pose proof (Qfloor_le x) as F1. pose proof (Qlt_floor x) as F2.
  assert (G1 : inject_Z k < inject_Z (Qfloor x + 1)) by lra.
  assert (G2 : inject_Z (Qfloor x) < inject_Z (k + 1)) by lra.
  rewrite <- Zlt_Qlt in G1, G2. lia.
Qed.

Lemma rint_opp (x : Q) : rint (- x) = (- rint x)%Z.
Proof.
  unfold rint. set (f := Qfloor x).
  pose proof (Qfloor_le x) as F1. pose proof (Qlt_floor x) as F2.
  fold f in F1, F2. rewrite inject_Z_plus in F2. change (inject_Z 1) with 1 in F2.
  destruct (Qeq_dec x (inject_Z f)) as [E0|E0].
  - assert (Ef : Qfloor (- x) = (- f)%Z).
    { apply Qfloor_unique; rewrite ?inject_Z_plus, inject_Z_opp;
        change (inject_Z 1) with 1; lra. }
    rewrite Ef.
    assert (R1 : - x - inject_Z (- f) == 0) by (rewrite inject_Z_opp; lra).
    assert (R2 : x - inject_Z f == 0) by lra.
    rewrite (Qle_bool_comp _ _ _ R1), (Qeq_bool_comp _ _ _ R1),
      (Qle_bool_comp _ _ _ R2), (Qeq_bool_comp _ _ _ R2).
    reflexivity.
  - assert (Ef : Qfloor (- x) = (- f - 1)%Z).
    { apply Qfloor_unique;
        [unfold Z.sub; rewrite inject_Z_plus, inject_Z_opp
        |replace (- f - 1 + 1)%Z with (- f)%Z by lia; rewrite inject_Z_opp];
        change (inject_Z (- (1))) with (- (1)); lra. }
    rewrite Ef.
    assert (R1 : - x - inject_Z (- f - 1) == 1 - (x - inject_Z f)).
    { unfold Z.sub. rewrite inject_Z_plus, inject_Z_opp.
      change (inject_Z (- (1))) with (- (1)). ring. }
    rewrite (Qle_bool_comp _ _ _ R1), (Qeq_bool_comp _ _ _ R1).
    set (r := x - inject_Z f) in *.
    assert (Hr : 0 < r /\ r < 1) by (unfold r; split; lra).
    destruct (Qle_bool r (1 # 2)) eqn:E1.
    + apply Qle_bool_iff in E1. destruct (Qeq_bool r (1 # 2)) eqn:E2.
      * apply Qeq_bool_iff in E2.
        assert (G1 : Qle_bool (1 - r) (1 # 2) = true)
          by (apply Qle_bool_iff; lra).
        assert (G2 : Qeq_bool (1 - r) (1 # 2) = true)
          by (apply Qeq_bool_iff; lra).
        rewrite G1, G2.
        replace (- f - 1)%Z with (Z.pred (- f)) by lia.
        rewrite Z.even_pred, Z.odd_opp, <- Z.negb_even.
        destruct (Z.even f); cbn [negb]; lia.
      * apply Qeq_bool_neq in E2.
        assert (G1 : Qle_bool (1 - r) (1 # 2) = false).
        { destruct (Qle_bool (1 - r) (1 # 2)) eqn:G; [|reflexivity].
          apply Qle_bool_iff in G. elim E2. lra. }
        rewrite G1. lia.
    + assert (Hgt : (1 # 2) < r).
      { apply Qnot_le_lt. intro H. apply Qle_bool_iff in H. congruence. }
      assert (G1 : Qle_bool (1 - r) (1 # 2) = true)
        by (apply Qle_bool_iff; lra).
      assert (G2 : Qeq_bool (1 - r) (1 # 2) = false).
      { destruct (Qeq_bool (1 - r) (1 # 2)) eqn:G; [|reflexivity].
        apply Qeq_bool_iff in G. lra. }
      rewrite G1, G2. lia.
Qed.

(** rounding commutes with a change of sign *)
Lemma np_round5_opp (x : Q) : np_round5 (- x) == - np_round5 x.
Proof.
  unfold np_round5.
  rewrite (rint_comp (- x * 100000) (- (x * 100000))) by ring.
  rewrite rint_opp, inject_Z_opp. unfold Qdiv. ring.
Qed.

(** a rounded number is left as it is by a second rounding *)
Lemma np_round5_idempotent (x : Q) : np_round5 (np_round5 x) = np_round5 x.
Proof.
  unfold np_round5 at 1 3. set (k := rint (x * 100000)).
  assert (E : np_round5 x * 100000 == inject_Z k).
  { unfold np_round5. fold k. field. }
  rewrite (rint_comp _ _ E). unfold rint. rewrite Qfloor_Z.
  assert (R : inject_Z k - inject_Z k == 0) by ring.
  rewrite (Qle_bool_comp _ _ _ R), (Qeq_bool_comp _ _ _ R). reflexivity.
Qed.

(** ** Solving with some edges reversed *)

Lemma nth_zip_with_sub (f : Q) (u : list Q) :
  forall v j,
    length u = length v ->
    nth j (zip_with (fun c d => c - f * d) u v) 0 == nth j u 0 - f * nth j v 0.
Proof.
  induction u as [|a u IH]; intros [|b v] j H; try discriminate.
  - destruct j; cbn; ring.
  - destruct j as [|j]; cbn [zip_with nth]; [reflexivity|].
    apply IH. cbn in H. lia.
Qed.

Lemma nth_tl (l : list Q) (j : nat) : nth j (tl l) 0 = nth (S j) l 0.
Proof. destruct l; [now destruct j | reflexivity]. Qed.

Lemma lead_signed (sg : nat -> Q) (r r' : equation) :
  signed_row sg r r' -> lead r' == sg 0%nat * lead r.
Proof.
  intros (_ & H & _). unfold lead.
  specialize (H 0%nat). destruct (fst r), (fst r'); exact H.
Qed.

Lemma sign_not_zero (s : Q) : s * s == 1 -> ~ s == 0.
Proof. intros H E. rewrite E in H. discriminate. Qed.

Lemma pick_pivot_signed (sg : nat -> Q) :
  sg 0%nat * sg 0%nat == 1 ->
  forall rows rows' p others,
    Forall2 (signed_row sg) rows rows' ->
    pick_pivot rows = Some (p, others) ->
    exists p' others',
      pick_pivot rows' = Some (p', others') /\
      signed_row sg p p' /\ Forall2 (signed_row sg) others others'.
Proof.
  intros Hs rows rows' p others H. revert p others.
  induction H as [|r r' rows rows' Hr Hrows IH]; intros p others Hp;
    [discriminate|].
  cbn [pick_pivot] in *.
  assert (E : Qeq_bool (lead r') 0 = Qeq_bool (lead r) 0).
  { pose proof (lead_signed sg r r' Hr) as Hl.
    pose proof (sign_not_zero _ Hs) as Hnz.
    destruct (Qeq_bool (lead r) 0) eqn:E0.
    - apply Qeq_bool_iff in E0. apply Qeq_bool_iff. rewrite Hl, E0. ring.
    - apply Qeq_bool_neq in E0.
      destruct (Qeq_bool (lead r') 0) eqn:E1; [|reflexivity].
      apply Qeq_bool_iff in E1. rewrite Hl in E1.
      apply Qmult_integral in E1. tauto. }
  rewrite E. destruct (Qeq_bool (lead r) 0).
  - destruct (pick_pivot rows) as [[q rest]|]; [|discriminate].
    injection Hp as <- <-.
    destruct (IH q rest eq_refl) as (p' & others' & -> & Hq & Hrest).
    exists p', (r' :: others').
    split; [reflexivity|]. split; [exact Hq | now constructor].
  - injection Hp as <- <-. exists r', rows'.
    split; [reflexivity|]. split; assumption.
Qed.

Lemma reduce_row_signed (sg : nat -> Q) (p p' r r' : equation) :
  sg 0%nat * sg 0%nat == 1 ->
  ~ lead p == 0 ->
  length (fst r) = length (fst p) ->
  signed_row sg p p' -> signed_row sg r r' ->
  signed_row (fun j => sg (S j)) (reduce_row p r) (reduce_row p' r').
Proof.
  intros Hs Hlead Hlen Hp Hr.
  pose proof (lead_signed sg p p' Hp) as Lp.
  pose proof (lead_signed sg r r' Hr) as Lr.
  destruct Hp as (Hp1 & Hp2 & Hp3). destruct Hr as (Hr1 & Hr2 & Hr3).
  assert (Hf : lead r' / lead p' == lead r / lead p).
  { rewrite Lp, Lr. field. split; [exact Hlead | exact (sign_not_zero _ Hs)]. }
  assert (Ht : length (tl (fst r)) = length (tl (fst p)))
    by (destruct (fst r), (fst p); cbn in *; lia).
  assert (Ht' : length (tl (fst r')) = length (tl (fst p')))
    by (destruct (fst r), (fst p), (fst r'), (fst p'); cbn in *; lia).
  unfold reduce_row. split; [|split]; cbn [fst snd].
  - rewrite !zip_with_length by assumption.
    destruct (fst r), (fst r'); cbn in *; lia.
  - intro j. rewrite !nth_zip_with_sub by assumption.
    rewrite !nth_tl, Hr2, Hp2, Hf. ring.
  - rewrite Hf, Hr3, Hp3. reflexivity.
Qed.

Lemma dot_signed (u : list Q) :
  forall (sg : nat -> Q) (u' xs xs' : list Q),
    (forall j, sg j * sg j == 1) ->
    length u' = length u -> length xs' = length xs ->
    (forall j, nth j u' 0 == sg j * nth j u 0) ->
    (forall j, nth j xs' 0 == sg j * nth j xs 0) ->
    dot u' xs' == dot u xs.
Proof.
  induction u as [|a u IH]; intros sg [|a' u'] xs xs' Hs Hu Hx Hcu Hcx;
    try discriminate; [reflexivity|].
  destruct xs as [|x xs], xs' as [|x' xs']; try discriminate; [reflexivity|].
  cbn [dot].
  rewrite (IH (fun j => sg (S j)) u' xs xs');
    [| intro j; apply Hs | cbn in Hu; lia | cbn in Hx; lia
     | intro j; exact (Hcu (S j)) | intro j; exact (Hcx (S j))].
  pose proof (Hcu 0%nat) as Ha. pose proof (Hcx 0%nat) as Hb. cbn [nth] in Ha, Hb.
  rewrite Ha, Hb.
  setoid_replace (sg 0%nat * a * (sg 0%nat * x))
    with (sg 0%nat * sg 0%nat * (a * x)) by ring.
  rewrite (Hs 0%nat). ring.
Qed.

(** the solution of the system with some unknowns counted backwards is
    the solution counted backwards *)
Lemma eliminate_signed (n : nat) :
  forall (sg : nat -> Q) rows rows' xs,
    (forall j, sg j * sg j == 1) ->
    length rows = n ->
    Forall (fun r => length (fst r) = n) rows ->
    Forall2 (signed_row sg) rows rows' ->
    eliminate n rows = Some xs ->
    exists xs',
      eliminate n rows' = Some xs' /\ length xs' = length xs /\
      forall j, nth j xs' 0 == sg j * nth j xs 0.
Proof.
  induction n as [|n IH]; intros sg rows rows' xs Hs Hn Hlen Hrel H.
  - injection H as <-. exists []. repeat split.
    intro j. destruct j; cbn; ring.
  - cbn [eliminate] in *.
    destruct (pick_pivot rows) as [[p others]|] eqn:Ep; [|discriminate].
    destruct (eliminate n (map (reduce_row p) others)) as [ys|] eqn:Ee;
      [|discriminate].
    injection H as <-.
    destruct (pick_pivot_signed sg (Hs 0%nat) rows rows' p others Hrel Ep)
      as (p' & others' & Ep' & Hp & Ho).
    rewrite Ep'.
    destruct (pick_pivot_spec rows p others Ep)
      as (Hlead & Hcount & _ & Hsub & Hin).
    rewrite Forall_forall in Hlen.
    assert (Lp : length (fst p) = S n) by (apply Hlen; exact Hin).
    destruct (IH (fun j => sg (S j)) (map (reduce_row p) others)
                 (map (reduce_row p') others') ys)
      as (ys' & Ee' & Hl & Hys).
    + intro j. apply Hs.
    + rewrite length_map. apply eq_add_S.
      transitivity (length rows); [symmetry; exact Hcount | exact Hn].
    + apply Forall_forall. intros r Hr. apply in_map_iff in Hr.
      destruct Hr as (r0 & <- & Hr0).
      apply reduce_row_length; [exact Lp | apply Hlen; apply Hsub; exact Hr0].
    + clear - Ho Hp Hs Hlead Hlen Hsub Lp.
      induction Ho as [|r r' others others' Hr _ IHo]; [constructor|].
      cbn [map]. constructor.
      * apply reduce_row_signed; auto.
        rewrite Lp. apply Hlen. apply Hsub. now left.
      * apply IHo. intros q Hq. apply Hsub. now right.
    + exact Ee.
    + rewrite Ee'. eexists. split; [reflexivity|].
      split; [cbn [length]; now rewrite Hl|].
      pose proof (lead_signed sg p p' Hp) as Ll.
      destruct Hp as (Hp1 & Hp2 & Hp3).
      assert (Hd : dot (tl (fst p')) ys' == dot (tl (fst p)) ys).
      { apply (dot_signed (tl (fst p)) (fun j => sg (S j))).
        - intro j. apply Hs.
        - destruct (fst p), (fst p'); cbn in *; lia.
        - exact Hl.
        - intro j. rewrite !nth_tl. apply Hp2.
        - exact Hys. }
      intros [|j]; cbn [nth]; [|apply Hys].
      rewrite Hd, Hp3, Ll.
      pose proof (sign_not_zero _ (Hs 0%nat)) as Hnz.
      setoid_replace ((snd p - dot (tl (fst p)) ys) / (sg 0%nat * lead p))
        with (sg 0%nat * sg 0%nat
              * ((snd p - dot (tl (fst p)) ys) / (sg 0%nat * lead p)))
        by (rewrite (Hs 0%nat); ring).
      field. split; [exact Hlead | exact Hnz].
Qed.

Lemma flip_row_length (m : vector) :
  forall row, length (flip_row m row) = length row.
Proof.
  induction m as [|a m IH]; intro row; [now destruct row|].
  destruct row as [|x row]; [reflexivity|]. cbn [flip_row length].
  now rewrite IH.
Qed.

Lemma flip_sign_square (m : vector) (j : nat) :
  flip_sign m j * flip_sign m j == 1.
Proof. unfold flip_sign. now destruct (negative_at m j). Qed.

Lemma signed_row_flip (m : vector) (row : list Z) (b : Q) :
  signed_row (flip_sign m) (row_Q row, b) (row_Q (flip_row m row), b).
Proof.
  unfold signed_row, row_Q. cbn [fst snd]. rewrite !length_map, flip_row_length.
  split; [reflexivity|]. split; [|reflexivity].
  intro j. change 0 with (inject_Z 0). rewrite !map_nth, nth_flip_row.
  unfold flip_sign. destruct (negative_at m j).
  - rewrite inject_Z_opp. ring.
  - ring.
Qed.

Lemma is_square_flip (m : vector) (R : matrix) :
  is_square (map row_Q (map (flip_row m) R)) = is_square (map row_Q R).
Proof.
  unfold is_square. rewrite !length_map. generalize (length R) as n.
  intro n. induction R as [|row R IH]; [reflexivity|].
  cbn [map forallb]. unfold row_Q at 1 3.
  now rewrite !length_map, flip_row_length, IH.
Qed.

Lemma combine_signed (m : vector) (R : matrix) :
  forall b : vector,
    Forall2 (signed_row (flip_sign m))
            (combine (map row_Q R) b)
            (combine (map row_Q (map (flip_row m) R)) b).
Proof.
  induction R as [|row R IH]; intros [|x b]; cbn [map combine];
    try constructor; [apply signed_row_flip | apply IH].
Qed.

(** the flows solved for with some edges reversed are the flows solved
    for before, with the sign of those edges changed *)
Lemma linalg_solve_flipped (m : vector) (R : matrix) (b xs : vector) :
  linalg_solve (map row_Q R) b = Ok xs ->
  exists xs',
    linalg_solve (map row_Q (map (flip_row m) R)) b = Ok xs' /\
    length xs' = length xs /\
    forall j, nth j xs' 0 == flip_sign m j * nth j xs 0.
Proof.
  unfold linalg_solve. rewrite is_square_flip, !length_map.
  destruct (is_square (map row_Q R)) eqn:Esq; [|discriminate].
  destruct (Nat.eqb (length b) (length R)) eqn:Eb; [|discriminate].
  apply Nat.eqb_eq in Eb.
  destruct (eliminate (length R) (combine (map row_Q R) b)) as [ys|] eqn:Ee;
    [|discriminate].
  intro H. injection H as <-.
  destruct (eliminate_signed (length R) (flip_sign m)
              (combine (map row_Q R) b)
              (combine (map row_Q (map (flip_row m) R)) b) ys)
    as (ys' & Ee' & Hl & Hys).
  - apply flip_sign_square.
  - rewrite length_combine, length_map. lia.
  - apply is_square_spec in Esq. rewrite length_map in Esq.
    rewrite Forall_forall in *. intros [r x] Hin. cbn [fst].
    apply Esq. exact (in_combine_l _ _ _ _ Hin).
  - apply combine_signed.
  - exact Ee.
  - exists ys'. rewrite Ee'. auto.
Qed.

(** ** Directions on a network without loops *)

Lemma py_max_nonempty (l : vector) (x : Q) : py_max l = Ok x -> l <> [].
Proof. intros H E. subst l. discriminate. Qed.

Lemma zip_with_nonempty {A B C} (f : A -> B -> C) (u : list A) (v : list B) :
  zip_with f u v <> [] -> u <> [] /\ v <> [].
Proof. destruct u, v; cbn; intro H; split; congruence. Qed.

(** what [calc_mass_flow_edges] needs to return on a network without
    loops, and what it returns then *)
Lemma calc_mass_flow_edges_tree_returns ext A demand nodes D L T
    (plant_index : nat) (xs : vector) :
  fst (find_loops ext A) = [] ->
  first_plant nodes = Ok plant_index ->
  linalg_solve (map row_Q (reduced_matrix plant_index A))
               (reduced_demand plant_index demand) = Ok xs ->
  reduced_matrix plant_index A <> [] ->
  reduced_demand plant_index demand <> [] ->
  calc_mass_flow_edges ext A demand nodes D L T = Ok (map np_round5 xs).
Proof.
  intros Hloops Hp Hsolve HA Hb.
  unfold calc_mass_flow_edges, calc_mass_flow_edges_log, solve_mass_flow,
    verify_mass_flow.
  unfold find_loops in *. cbn [fst] in *. rewrite Hloops, Hp. cbn [bind].
  rewrite Hsolve. cbn [bind sf_mass_flow_edge sf_log].
  destruct (py_max_ok
              (map Qabs (zip_with Qminus (reduced_demand plant_index demand)
                                  (mat_vec (reduced_matrix plant_index A) xs))))
    as (dev & ->).
  { destruct (reduced_demand plant_index demand), (reduced_matrix plant_index A);
      cbn; congruence. }
  reflexivity.
Qed.

Lemma calc_mass_flow_edges_tree_shape ext A demand nodes D L T m
    (plant_index : nat) :
  first_plant nodes = Ok plant_index ->
  calc_mass_flow_edges ext A demand nodes D L T = Ok m ->
  reduced_matrix plant_index A <> [] /\
  reduced_demand plant_index demand <> [].
Proof.
  intros Hp H. unfold calc_mass_flow_edges, calc_mass_flow_edges_log in H.
  bind_inv H as r Hr. bind_inv Hr as st Hst. bind_inv Hr as lg Hlg.
  unfold verify_mass_flow in Hlg. rewrite Hp in Hlg. cbn [bind] in Hlg.
  bind_inv Hlg as dev Hdev. apply py_max_nonempty in Hdev.
  assert (Hz : zip_with Qminus (reduced_demand plant_index demand)
                 (mat_vec (reduced_matrix plant_index A) (sf_mass_flow_edge st))
               <> []).
  { intro E. rewrite E in Hdev. now apply Hdev. }
  apply zip_with_nonempty in Hz. destruct Hz as [Hb HA]. split; [|exact Hb].
  intro E. rewrite E in HA. now apply HA.
Qed.

Lemma flip_row_nonnegative (m : vector) :
  Forall (fun x => 0 <= x) m -> forall row, flip_row m row = row.
Proof.
  induction 1 as [|a m Ha _ IH]; intro row; [now destruct row|].
  destruct row as [|x row]; [reflexivity|]. cbn [flip_row].
  apply Qlt_bool_false in Ha. now rewrite Ha, IH.
Qed.

Lemma Forall2_by_nth {A B} (P : A -> B -> Prop) (da : A) (db : B) :
  forall (l : list A) (l' : list B),
    length l = length l' ->
    (forall j, (j < length l)%nat -> P (nth j l da) (nth j l' db)) ->
    Forall2 P l l'.
Proof.
  induction l as [|a l IH]; intros [|b l'] Hlen H; try discriminate;
    constructor.
  - apply (H 0%nat). cbn. lia.
  - apply IH; [cbn in Hlen; lia|].
    intros j Hj. apply (H (S j)). cbn. lia.
Qed.

(** the flows found with the edges of negative flow reversed are the
    absolute values of the flows found before *)
Lemma resolved_flows_absolute (xs xs' : vector) :
  let m := map np_round5 xs in
  length xs' = length xs ->
  (forall j, nth j xs' 0 == flip_sign m j * nth j xs 0) ->
  Forall2 (fun y x => y == Qabs x) (map np_round5 xs') m.
Proof.
  intros m Hlen H.
  apply (Forall2_by_nth _ 0 0); [unfold m; now rewrite !length_map|].
  intros j Hj. rewrite length_map in Hj.
  assert (Hx : nth j m 0 = np_round5 (nth j xs 0)).
  { unfold m. rewrite (nth_indep _ 0 (np_round5 0)) by (rewrite length_map; lia).
    apply map_nth. }
  assert (Hy : nth j (map np_round5 xs') 0 = np_round5 (nth j xs' 0)).
  { rewrite (nth_indep _ 0 (np_round5 0)) by (rewrite length_map; lia).
    apply map_nth. }
  rewrite Hx, Hy, (np_round5_comp _ _ (H j)).
  unfold flip_sign, negative_at.
  assert (Hn : nth_error m j = Some (np_round5 (nth j xs 0))).
  { rewrite <- Hx. apply nth_error_nth'. unfold m. rewrite length_map. lia. }
  rewrite Hn. destruct (Qlt_bool (np_round5 (nth j xs 0)) 0) eqn:E.
  - apply Qlt_bool_iff in E.
    rewrite (np_round5_comp (-1 * nth j xs 0) (- nth j xs 0)) by ring.
    rewrite np_round5_opp, Qabs_neg by lra. reflexivity.
  - apply Qlt_bool_false in E.
    rewrite (np_round5_comp (1 * nth j xs 0) (nth j xs 0)) by ring.
    rewrite Qabs_pos by exact E. reflexivity.
Qed.

Lemma flip_columns_nonnegative (m : vector) (A : matrix) :
  Forall (fun x => 0 <= x) m -> flip_columns m A = A.
Proof.
  intro H. unfold flip_columns. rewrite <- (map_id A) at 2.
  apply map_ext. apply flip_row_nonnegative. exact H.
Qed.

Lemma Qabs_nonnegative_all (m : vector) :
  Forall (fun x => 0 <= x) m -> Forall2 (fun y x => y == Qabs x) m m.
Proof.
  induction 1 as [|x m Hx _ IH]; constructor; [|exact IH].
  now rewrite Qabs_pos.
Qed.

Lemma Qmin_list_some (l : vector) : l <> [] -> exists v, Qmin_list l = Some v.
Proof.
  destruct l as [|x l]; [congruence|]. intros _. cbn [Qmin_list].
  destruct (Qmin_list l); eauto.
Qed.

(** flows without a negative one are returned as they are *)
Lemma flip_until_positive_nonnegative ext budget (m : vector) (A : matrix)
    demand nodes D L T :
  m <> [] -> Forall (fun x => 0 <= x) m ->
  flip_until_positive ext budget m A demand nodes D L T = Ok (m, A).
Proof.
  intros Hne Hpos. destruct (Qmin_list_some m Hne) as (v & Hv).
  destruct (Qmin_list_spec m v Hv) as [Hin _].
  rewrite Forall_forall in Hpos. specialize (Hpos v Hin).
  apply Qlt_bool_false in Hpos.
  destruct budget; cbn [flip_until_positive]; rewrite Hv; cbn [of_option bind];
    now rewrite Hpos.
Qed.

(** X19: on a network without loops, [change_to_edge_node_matrix_t] ends
    after at most one new solve: called with the flows of
    [calc_mass_flow_edges], it returns the matrix with the edges of
    negative flow reversed, and the absolute values of the flows. *)
Theorem tree_directions_settle (ext : externals) (budget : nat) (A : matrix)
    (demand : list float) (nodes : list node) (D L T m : vector) :
  fst (find_loops ext A) = [] ->
  fst (find_loops ext (flip_columns m A)) = [] ->
  Forall (fun row => length row = n_edges A) A ->
  calc_mass_flow_edges ext A demand nodes D L T = Ok m ->
  exists m',
    change_to_edge_node_matrix_t ext (S budget) m A demand nodes D L T
      = Ok (m', flip_columns m A) /\
    Forall2 (fun y x => y == Qabs x) m' m.
Proof.
  intros Hloops Hloops' Hrows H.
  destruct (calc_mass_flow_edges_tree ext A demand nodes D L T m Hloops H)
    as (i & xs & Hp & Hsolve & _ & Hm).
  destruct (calc_mass_flow_edges_tree_shape ext A demand nodes D L T m i Hp H)
    as [HA Hb].
  assert (Hround : map np_round5 m = m).
  { subst m. rewrite map_map. apply map_ext. apply np_round5_idempotent. }
  unfold change_to_edge_node_matrix_t. rewrite Hround.
  assert (Hne : m <> []).
  { subst m. apply linalg_solve_sound in Hsolve. destruct Hsolve as [Hl _].
    destruct xs; [|discriminate]. cbn in Hl.
    destruct (reduced_demand i demand); [congruence | discriminate]. }
  cbn [flip_until_positive].
  destruct (Qmin_list m) as [lowest|] eqn:Emin;
    [|destruct m; [congruence | cbn in Emin; destruct (Qmin_list m); discriminate]].
  cbn [of_option bind].
  destruct (Qmin_list_spec m lowest Emin) as [_ Hall].
  destruct (Qlt_bool lowest 0) eqn:Elow.
  - (* some flow is negative: the edges are reversed and the flows solved again *)
    assert (Hlen : length m = n_edges A).
    { subst m. rewrite length_map.
      pose proof Hsolve as Hs. unfold linalg_solve in Hs.
      destruct (is_square (map row_Q (reduced_matrix i A))) eqn:Esq;
        [|discriminate].
      apply linalg_solve_sound in Hsolve. destruct Hsolve as [Hl _].
      destruct (Nat.eqb (length (reduced_demand i demand))
                        (length (map row_Q (reduced_matrix i A)))) eqn:Eb;
        [|discriminate].
      apply Nat.eqb_eq in Eb. rewrite Hl, Eb.
      apply is_square_spec in Esq. unfold reduced_matrix in *.
      destruct (delete i A) as [|row R] eqn:Ed; [congruence|].
      cbn [map] in Esq |- *. inversion Esq as [|? ? Hrow _]; subst.
      rewrite <- Hrow. unfold row_Q. rewrite length_map.
      rewrite Forall_forall in Hrows. apply Hrows.
      apply (delete_In A row i). rewrite Ed. now left. }
    unfold flip_negative. rewrite skipn_all2 by lia. cbn [existsb bind].
    destruct (linalg_solve_flipped m (reduced_matrix i A)
                (reduced_demand i demand) xs Hsolve) as (xs' & Hsolve' & Hl' & Hxs').
    assert (Hred : reduced_matrix i (flip_columns m A)
                   = map (flip_row m) (reduced_matrix i A)).
    { unfold reduced_matrix, flip_columns. apply delete_map. }
    rewrite <- Hred in Hsolve'.
    rewrite (calc_mass_flow_edges_tree_returns ext (flip_columns m A) demand
               nodes D L T i xs' Hloops' Hp Hsolve');
      [|rewrite Hred; destruct (reduced_matrix i A); [congruence | discriminate]
       |exact Hb].
    cbn [bind].
    assert (Habs : Forall2 (fun y x => y == Qabs x) (map np_round5 xs') m).
    { subst m. apply resolved_flows_absolute; assumption. }
    assert (Hpos : Forall (fun x => 0 <= x) (map np_round5 xs')).
    { clear - Habs. induction Habs as [|y x l l' Hyx _ IH]; constructor;
        [rewrite Hyx; apply Qabs_nonneg | exact IH]. }
    exists (map np_round5 xs'). split; [|exact Habs].
    apply flip_until_positive_nonnegative; [|exact Hpos].
    inversion Habs; subst; congruence.
  - (* no flow is negative: nothing changes *)
    apply Qlt_bool_false in Elow.
    assert (Hpos : Forall (fun x => 0 <= x) m).
    { eapply Forall_impl; [|exact Hall]. cbn. intros; lra. }
    rewrite (flip_columns_nonnegative m A Hpos).
    exists m. split; [reflexivity | apply Qabs_nonnegative_all; exact Hpos].
Qed.

Lemma tree_directions_settle_witness :
  exists m',
    change_to_edge_node_matrix_t (sample_externals [] []) 1
      [-500000 # 100000] [ [1]%Z; [-1]%Z ] [Fin (-5); Fin 5] two_nodes
      [0.1] [100] [353]
    = Ok (m', flip_columns [-500000 # 100000] [ [1]%Z; [-1]%Z ]) /\
    Forall2 (fun y x => y == Qabs x) m' [-500000 # 100000].
Proof.
  apply (tree_directions_settle (sample_externals [] []) 0
           [ [1]%Z; [-1]%Z ] [Fin (-5); Fin 5] two_nodes [0.1] [100] [353]
           [-500000 # 100000]).
  - reflexivity.
  - reflexivity.
  - repeat constructor.
  - vm_compute. reflexivity.
Defined.

(** ** Names that occur twice in the shapefiles *)




(** ** The types of the nodes of the csv files *)





(** ** How often the plant temperature is moved *)

Lemma fltb_le_trans (x r s : float) :
  is_nan x = false -> is_nan r = false -> is_nan s = false ->
  fltb x r = false -> fltb r s = false -> fltb x s = false.
Proof.
  destruct x as [a| | |], r as [b| | |], s as [c| | |]; cbn;
    try discriminate; try reflexivity; intros _ _ _ H1 H2.
  apply Qlt_bool_false in H1, H2. apply Qlt_bool_false. lra.
Qed.

Lemma fltb_irrefl (x : float) : fltb x x = false.
Proof.
  destruct x as [a| | |]; cbn; try reflexivity.
  apply Qlt_bool_false. apply Qle_refl.
Qed.

Lemma fltb_asym (x y : float) : fltb x y = true -> fltb y x = false.
Proof.
  destruct x as [a| | |], y as [b| | |]; cbn; try discriminate;
    try reflexivity.
  intro H. apply Qlt_bool_iff in H. apply Qlt_bool_false. lra.
Qed.

Lemma fold1_fmin2_lower (l : list float) :
  Forall (fun x => is_nan x = false) l ->
  forall r, fold1 fmin2 l = Some r ->
            is_nan r = false /\ Forall (fun x => fltb x r = false) l.
Proof.
  induction 1 as [|x l Hx Hl IH]; intros r H; [discriminate|].
  cbn [fold1] in H. destruct (fold1 fmin2 l) as [y|] eqn:E.
  - destruct (IH y eq_refl) as [Hy Hall]. injection H as <-.
    unfold fmin2. rewrite Hx, Hy. cbn [orb].
    destruct (fltb y x) eqn:Eyx.
    + split; [exact Hy|]. constructor; [now apply fltb_asym | exact Hall].
    + split; [exact Hx|]. constructor; [apply fltb_irrefl|].
      rewrite Forall_forall in *. intros z Hz.
      apply (fltb_le_trans z y x); auto.
  - injection H as <-. destruct l; [|cbn in E; destruct (fold1 fmin2 l); discriminate].
    split; [exact Hx|]. constructor; [apply fltb_irrefl | constructor].
Qed.

Lemma fold1_fmax2_upper (l : list float) :
  Forall (fun x => is_nan x = false) l ->
  forall r, fold1 fmax2 l = Some r ->
            is_nan r = false /\ Forall (fun x => fltb r x = false) l.
Proof.
  induction 1 as [|x l Hx Hl IH]; intros r H; [discriminate|].
  cbn [fold1] in H. destruct (fold1 fmax2 l) as [y|] eqn:E.
  - destruct (IH y eq_refl) as [Hy Hall]. injection H as <-.
    unfold fmax2. rewrite Hx, Hy. cbn [orb].
    destruct (fltb x y) eqn:Exy.
    + split; [exact Hy|]. constructor; [now apply fltb_asym | exact Hall].
    + split; [exact Hx|]. constructor; [apply fltb_irrefl|].
      rewrite Forall_forall in *. intros z Hz.
      apply (fltb_le_trans x y z); auto.
  - injection H as <-. destruct l; [|cbn in E; destruct (fold1 fmax2 l); discriminate].
    split; [exact Hx|]. constructor; [apply fltb_irrefl | constructor].
Qed.

Lemma filter_known (l : list float) :
  Forall (fun x => is_nan x = false) l ->
  filter (fun x => negb (is_nan x)) l = l.
Proof.
  induction 1 as [|x l Hx _ IH]; [reflexivity|].
  cbn [filter]. now rewrite Hx, IH.
Qed.

Lemma forallb_false_exists {A} (f : A -> bool) (l : list A) :
  forallb f l = false -> exists a, In a l /\ f a = false.
Proof.
  induction l as [|a l IH]; [discriminate|]. cbn [forallb]. intro H.
  apply andb_false_iff in H. destruct H as [H|H].
  - exists a. split; [now left | exact H].
  - destruct (IH H) as (b & Hb & Hf). exists b. split; [now right | exact Hf].
Qed.

(** a move of the plant temperature is of 0.1 K or more *)
Lemma step_at_least network_type (d_t : list (nat * float)) (a : Q) :
  (forall ix, In ix d_t -> is_nan (snd ix) = false) ->
  unmet network_type d_t = true ->
  fabs (if String.eqb network_type "DH" then series_min (map snd d_t)
        else series_max (map snd d_t)) = Fin a ->
  0.1 <= a.
Proof.
  intros Hn Hu Ha.
  assert (Hk : Forall (fun x => is_nan x = false) (map snd d_t)).
  { apply Forall_forall. intros x Hx. apply in_map_iff in Hx.
    destruct Hx as (ix & <- & Hix). exact (Hn ix Hix). }
  unfold unmet in Hu. unfold series_min, series_max in Ha.
  rewrite (filter_known _ Hk) in Ha.
  destruct (String.eqb network_type "DH").
  - apply negb_true_iff in Hu. apply forallb_false_exists in Hu.
    destruct Hu as (ix & Hin & Hix).
    destruct (fold1 fmin2 (map snd d_t)) as [r|] eqn:E; [|discriminate].
    destruct (fold1_fmin2_lower _ Hk r E) as [_ Hall].
    rewrite Forall_forall in Hall.
    specialize (Hall (snd ix) (in_map snd _ _ Hin)).
    specialize (Hn ix Hin). unfold fgtb in Hix.
    destruct r as [s| | |]; try discriminate. cbn [fabs] in Ha.
    injection Ha as <-.
    destruct (snd ix) as [d| | |]; cbn in *; try discriminate.
    apply Qlt_bool_false in Hix, Hall.
    rewrite Qabs_neg by lra. lra.
  - apply negb_true_iff in Hu. apply forallb_false_exists in Hu.
    destruct Hu as (ix & Hin & Hix).
    destruct (fold1 fmax2 (map snd d_t)) as [r|] eqn:E; [|discriminate].
    destruct (fold1_fmax2_upper _ Hk r E) as [_ Hall].
    rewrite Forall_forall in Hall.
    specialize (Hall (snd ix) (in_map snd _ _ Hin)).
    specialize (Hn ix Hin).
    destruct r as [s| | |]; try discriminate. cbn [fabs] in Ha.
    injection Ha as <-.
    destruct (snd ix) as [d| | |]; cbn in *; try discriminate.
    apply Qlt_bool_false in Hix, Hall.
    rewrite Qabs_pos by lra. lra.
Qed.

Lemma move_is_counted network_type (t0 t : float) (d_t : list (nat * float))
    (it : nat) :
  (forall ix, In ix d_t -> is_nan (snd ix) = false) ->
  unmet network_type d_t = true ->
  fltb (drift network_type t0 t) (drift_bound network_type) = true ->
  (exists d, drift network_type t0 t = Fin d /\
             0.1 * inject_Z (Z.of_nat it) <= d) ->
  (it < raise_limit network_type)%nat /\
  (fltb (drift network_type t0 (next_plant_temperature network_type t d_t))
        (drift_bound network_type) = true ->
   exists d', drift network_type t0 (next_plant_temperature network_type t d_t)
              = Fin d' /\
              0.1 * inject_Z (Z.of_nat (S it)) <= d').
Proof.
  intros Hn Hu Hg (d & Hd & Hit).
  pose proof (step_at_least network_type d_t) as Hstep.
  specialize (fun a => Hstep a Hn Hu).
  rewrite Hd in Hg.
  unfold drift, drift_bound, next_plant_temperature, raise_limit in *.
  rewrite Nat2Z.inj_succ, <- Z.add_1_r, inject_Z_plus.
  change (inject_Z 1) with 1.
  destruct (String.eqb network_type "DH").
  - cbn [fltb] in Hg. apply Qlt_bool_iff in Hg. split.
    + apply Nat2Z.inj_lt. rewrite Zlt_Qlt.
      change (inject_Z (Z.of_nat 600)) with 600. lra.
    + destruct t as [q| | |], t0 as [q0| | |]; try discriminate.
      cbn in Hd. injection Hd as <-.
      destruct (fabs (series_min (map snd d_t))) as [a| | |] eqn:Ea;
        cbn; try discriminate.
      * intros _. eexists. split; [reflexivity|].
        specialize (Hstep a eq_refl). lra.
      * destruct (series_min (map snd d_t)); discriminate.
  - cbn [fltb] in Hg. apply Qlt_bool_iff in Hg. split.
    + apply Nat2Z.inj_lt. rewrite Zlt_Qlt.
      change (inject_Z (Z.of_nat 100)) with 100. lra.
    + destruct t as [q| | |], t0 as [q0| | |]; try discriminate.
      cbn in Hd. injection Hd as <-.
      destruct (fabs (series_max (map snd d_t))) as [a| | |] eqn:Ea;
        cbn; try discriminate.
      * intros _. eexists. split; [reflexivity|].
        specialize (Hstep a eq_refl). lra.
      * destruct (series_max (map snd d_t)); discriminate.
Qed.

Section search_count.

Variables (ext : externals) (z : matrix) (m_d k : list float)
  (t_ground : float) (t_target : list float) (network_type : string)
  (all_nodes_df : list node) (budget : nat).

Local Abbreviation search_from :=
  (plant_temperature_search ext z m_d k t_ground t_target
     network_type all_nodes_df budget).

Lemma search_counts_moves fuel (t0 : float) :
  forall t it log r,
    (it <= raise_limit network_type)%nat ->
    (fltb (drift network_type t0 t) (drift_bound network_type) = true ->
     exists d, drift network_type t0 t = Fin d /\
               0.1 * inject_Z (Z.of_nat it) <= d) ->
    search_from fuel t0 t it log = Ok r ->
    (sr_iteration r <= raise_limit network_type)%nat.
Proof.
  induction fuel as [|fuel IH]; intros t it log r Hit Hinv H; [discriminate|].
  destruct (search_fails_with_pass _ _ _ _ _ _ _ _ _ _ _ _ _ _ _ H)
    as [pass Hp].
  rewrite (search_step _ _ _ _ _ _ _ _ _ _ _ _ _ _ _ Hp) in H.
  cbv zeta in H.
  set (d_t := temperature_gaps (t_node (fst pass)) t_target) in *.
  assert (Hnan : forall ix, In ix d_t -> is_nan (snd ix) = false).
  { intros [pos d] Hin. now apply temperature_gaps_in in Hin. }
  destruct (unmet network_type d_t) eqn:Hu;
    destruct (fltb (drift network_type t0 t) (drift_bound network_type)) eqn:Hg;
    cbn [andb] in H.
  - destruct (move_is_counted network_type t0 t d_t it Hnan Hu Hg (Hinv eq_refl))
      as [Hlt Hnext].
    exact (IH _ _ _ _ Hlt Hnext H).
  - destruct (fgeb (drift network_type t0 t) (drift_bound network_type)).
    + bind_inv H as forced Hf.
      destruct (negb (String.eqb network_type "DH") && _).
      * refine (IH _ _ _ _ Hit _ H). intro Hc. congruence.
      * injection H as <-. exact Hit.
    + injection H as <-. exact Hit.
  - injection H as <-. exact Hit.
  - injection H as <-. exact Hit.
Qed.

End search_count.

(** X22: the search of [calc_supply_temperatures] moves the plant supply
    temperature at most 600 times in a heating network and at most 100
    times in a cooling network: every move is of 0.1 K or more, and a move
    is only made from a temperature less than 60 K (10 K) away from the
    first guess. *)
Theorem plant_temperature_moves_are_bounded (ext : externals)
    (t_ground__k : float) (edge_node_df : matrix) (mass_flow_df k : list float)
    (t_target_supply__c : list float) (network_type : string)
    (all_nodes_df : list node) (budget : nat) (r : search_result) :
  calc_supply_temperatures_search ext t_ground__k edge_node_df mass_flow_df k
    t_target_supply__c network_type all_nodes_df budget = Ok r ->
  (sr_iteration r <= raise_limit network_type)%nat.
Proof.
  unfold calc_supply_temperatures_search.
  apply search_counts_moves; [lia|].
  intro Hg.
  set (t0 := initial_plant_temperature network_type t_target_supply__c) in *.
  unfold drift in *.
  change (inject_Z (Z.of_nat 0)) with 0.
  destruct (String.eqb network_type "DH"), t0 as [q| | |];
    cbn [fsub fadd fneg fltb] in Hg |- *; try discriminate;
    (eexists; split; [reflexivity|]; lra).
Qed.

Lemma plant_temperature_moves_are_bounded_witness :
  exists r,
    calc_supply_temperatures_search (sample_externals [] []) (Fin 283) one_pipe
      [Fin 1] [Fin 2.79] [NaN; Fin 80] "DH" two_nodes 10 = Ok r /\
    (sr_iteration r <= raise_limit "DH")%nat.
Proof.
  destruct (calc_supply_temperatures_search (sample_externals [] []) (Fin 283)
              one_pipe [Fin 1] [Fin 2.79] [NaN; Fin 80] "DH" two_nodes 10)
    as [r| |] eqn:E; try (vm_compute in E; discriminate).
  exists r. split; [reflexivity|].
  exact (plant_temperature_moves_are_bounded _ _ _ _ _ _ _ _ _ r E).
Defined.

(** ** The pressure loss and the direction of the flow *)

Lemma Qabs_opp_eq (m : Q) : Qabs (- m) = Qabs m.
Proof. destruct m as [n d]. unfold Qabs, Qopp. cbn. now rewrite Z.abs_opp. Qed.

(** X23: the pressure loss of a pipe does not depend on the direction of
    the flow, and its derivative changes sign with the flow: the Reynolds
    number and the friction factor are those of the absolute flow. *)
Theorem pressure_loss_and_direction ext (d l m t : Q) :
  calc_reynolds ext (- m) t d = calc_reynolds ext m t d /\
  pressure_loss_edge ext 2 d l (- m) t == pressure_loss_edge ext 2 d l m t /\
  pressure_loss_edge ext 1 d l (- m) t == - pressure_loss_edge ext 1 d l m t.
Proof.
  assert (E : calc_reynolds ext (- m) t d = calc_reynolds ext m t d).
  { unfold calc_reynolds. now rewrite Qabs_opp_eq. }
  split; [exact E|]. unfold pressure_loss_edge. rewrite E. cbn [Nat.eqb].
  split; unfold Qdiv; ring.
Qed.

(** ** Mixing at a node with an outgoing pipe *)

Lemma outflow_node_mixes_witness :
  let st := {| z_note := [ [0; 0]%Z; [0; -1]%Z; [0; 1]%Z ];
               t_e_out := [ [Fin 0; Fin 0]; [Fin 355; Fin 0]; [Fin 0; Fin 1] ];
               t_e_in := [ [Fin 363; Fin 0]; [Fin 0; Fin 1]; [Fin 0; Fin 0] ];
               t_node := [Fin 363; Fin 0; Fin 0];
               not_stuck := [true; true; true] |} in
  let z := [ [-1; 0]%Z; [1; -1]%Z; [0; 1]%Z ] in
  exists st' q,
    outflow_node (sample_externals [] []) z (clip_min0 z) (map Fin [2; 2])
                 [Fin 1; Fin 1] (Fin 283) st 1 = Ok st' /\
    t_node st' = update (t_node st) 1 (fun _ => Fin q) /\
    q == dot [2; 2] [355; 0] / dot [2; 2] (row_Q [1; 0]%Z).
Proof.
  cbv zeta.
  destruct (outflow_node (sample_externals [] [])
              [ [-1; 0]%Z; [1; -1]%Z; [0; 1]%Z ]
              (clip_min0 [ [-1; 0]%Z; [1; -1]%Z; [0; 1]%Z ]) (map Fin [2; 2])
              [Fin 1; Fin 1] (Fin 283)
              {| z_note := [ [0; 0]%Z; [0; -1]%Z; [0; 1]%Z ];
                 t_e_out := [ [Fin 0; Fin 0]; [Fin 355; Fin 0]; [Fin 0; Fin 1] ];
                 t_e_in := [ [Fin 363; Fin 0]; [Fin 0; Fin 1]; [Fin 0; Fin 0] ];
                 t_node := [Fin 363; Fin 0; Fin 0];
                 not_stuck := [true; true; true] |} 1)
    as [st'| |] eqn:E; try (vm_compute in E; discriminate).
  exists st'.
  destruct (outflow_node_mixes (sample_externals [] [])
              [ [-1; 0]%Z; [1; -1]%Z; [0; 1]%Z ]
              (clip_min0 [ [-1; 0]%Z; [1; -1]%Z; [0; 1]%Z ])
              [Fin 1; Fin 1] (Fin 283)
              {| z_note := [ [0; 0]%Z; [0; -1]%Z; [0; 1]%Z ];
                 t_e_out := [ [Fin 0; Fin 0]; [Fin 355; Fin 0]; [Fin 0; Fin 1] ];
                 t_e_in := [ [Fin 363; Fin 0]; [Fin 0; Fin 1]; [Fin 0; Fin 0] ];
                 t_node := [Fin 363; Fin 0; Fin 0];
                 not_stuck := [true; true; true] |} 1 st'
              [2; 2] [355; 0] [1; 0]%Z)
    as (q & Hq & Hmix);
    [reflexivity | vm_compute; discriminate | reflexivity | reflexivity
    | vm_compute; discriminate | exact E |].
  exists q. auto.
Defined.

(** ** The matrix of a topology with well-formed edges *)







(** ** The flows of a tree are determined by the node balances *)

Lemma dot_pointwise (u xs ys : list Q) :
  Forall2 Qeq xs ys -> dot u xs == dot u ys.
Proof.
  intro H. revert u. induction H as [|x y xs ys Hxy _ IH]; intros [|a u];
    cbn [dot]; try reflexivity.
  rewrite Hxy, (IH u). reflexivity.
Qed.

Lemma reduce_row_complete (p r : equation) (n : nat) (y : Q) (ys : list Q) :
  ~ lead p == 0 ->
  length (fst p) = S n -> length (fst r) = S n ->
  satisfies (y :: ys) p -> satisfies (y :: ys) r ->
  satisfies ys (reduce_row p r).
Proof.
  intros Hp Lp Lr Sp Sr.
  destruct p as [[|a cp] bp]; [discriminate|].
  destruct r as [[|c cr] br]; [discriminate|].
  unfold satisfies, reduce_row, lead in *; simpl in *.
  injection Lp as Lp. injection Lr as Lr.
  rewrite dot_zip_sub by congruence.
  set (D := dot cr ys) in *. set (P := dot cp ys) in *.
  assert (ED : D == br - c * y) by lra.
  assert (EP : P == bp - a * y) by lra.
  rewrite ED, EP. field. exact Hp.
Qed.

(** the elimination finds the only solution of the system *)
Lemma eliminate_unique (n : nat) :
  forall rows xs ys,
    length rows = n ->
    Forall (fun r => length (fst r) = n) rows ->
    eliminate n rows = Some xs ->
    length ys = n ->
    Forall (satisfies ys) rows ->
    Forall2 Qeq ys xs.
Proof.
  induction n as [|n IH]; intros rows xs ys Hn Hlen H Lys Hys; simpl in H.
  - injection H as <-. destruct ys; [constructor | discriminate].
  - destruct (pick_pivot rows) as [[p others]|] eqn:P; [|discriminate].
    destruct (eliminate n (map (reduce_row p) others)) as [xs'|] eqn:E;
      [|discriminate].
    injection H as <-.
    destruct ys as [|y ys]; [discriminate|]. injection Lys as Lys.
    destruct (pick_pivot_spec _ _ _ P) as (Hp & Hl & Hin & Hback & Hpin).
    rewrite Forall_forall in Hlen, Hys.
    assert (Lp : length (fst p) = S n) by auto.
    assert (Htl : Forall2 Qeq ys xs').
    { apply (IH (map (reduce_row p) others) xs' ys); auto.
      - rewrite length_map. apply eq_add_S.
        transitivity (length rows); [symmetry; exact Hl | exact Hn].
      - apply Forall_forall. intros r Hr. apply in_map_iff in Hr.
        destruct Hr as (r0 & <- & Hr0). apply reduce_row_length; auto.
      - apply Forall_forall. intros r Hr. apply in_map_iff in Hr.
        destruct Hr as (r0 & <- & Hr0).
        apply (reduce_row_complete p r0 n y ys); auto. }
    constructor; [|exact Htl].
    pose proof (Hys p Hpin) as Sp.
    destruct p as [[|a cp] bp]; [discriminate|].
    unfold satisfies, lead in *; simpl in *.
    rewrite <- (dot_pointwise cp ys xs' Htl).
    set (P0 := dot cp ys) in *.
    assert (EP : bp == a * y + P0) by lra.
    rewrite EP. field. exact Hp.
Qed.

Lemma linalg_solve_unique (A : list (list Q)) (b xs ys : list Q) :
  linalg_solve A b = Ok xs ->
  length ys = length xs ->
  Forall2 (fun r rhs => dot r ys == rhs) A b ->
  Forall2 Qeq ys xs.
Proof.
  unfold linalg_solve. destruct (is_square A) eqn:Sq; [|discriminate].
  destruct (Nat.eqb (length b) (length A)) eqn:Lb; [|discriminate].
  apply Nat.eqb_eq in Lb.
  destruct (eliminate (length A) (combine A b)) as [zs|] eqn:E; [|discriminate].
  intros H Lys Hys; injection H as <-.
  pose proof (is_square_spec _ Sq) as Lr.
  assert (Lc : length (combine A b) = length A).
  { rewrite length_combine, Lb. apply Nat.min_id. }
  assert (Lrows : Forall (fun r : equation => length (fst r) = length A)
                         (combine A b)).
  { apply Forall_forall. intros [r rhs] Hin. simpl.
    apply in_combine_l in Hin. rewrite Forall_forall in Lr. auto. }
  destruct (eliminate_sound _ _ _ Lc Lrows E) as [L _].
  apply (eliminate_unique (length A) (combine A b) zs ys Lc Lrows E);
    [congruence|].
  clear - Hys. induction Hys as [|r rhs A b Hr _ IH]; cbn [combine];
    constructor; auto.
Qed.

Lemma map_pointwise_round (ys xs : list Q) :
  Forall2 Qeq ys xs -> map np_round5 xs = map np_round5 ys.
Proof.
  induction 1 as [|y x ys xs Hyx _ IH]; cbn [map]; [reflexivity|].
  rewrite IH, (np_round5_comp y x Hyx). reflexivity.
Qed.

(** X26: on a network without loops the flows [calc_mass_flow_edges]
    returns are fixed by the mass balances alone: any flows, one per edge,
    that balance every node other than the first plant are, once rounded
    to five decimals, the flows returned. *)
Theorem tree_flows_are_determined ext A demand nodes D L T m
    (plant_index : nat) (ys : vector) :
  fst (find_loops ext A) = [] ->
  first_plant nodes = Ok plant_index ->
  calc_mass_flow_edges ext A demand nodes D L T = Ok m ->
  length ys = length m ->
  Forall2 (fun row b => dot (row_Q row) ys == b)
          (reduced_matrix plant_index A) (reduced_demand plant_index demand) ->
  m = map np_round5 ys.
Proof.
  intros Hloops Hp H Lys Hys.
  destruct (calc_mass_flow_edges_tree ext A demand nodes D L T m Hloops H)
    as (i & xs & Hi & Hsolve & _ & ->).
  rewrite Hp in Hi. injection Hi as <-.
  rewrite length_map in Lys.
  apply map_pointwise_round.
  apply (linalg_solve_unique _ _ xs ys Hsolve Lys).
  apply Forall2_map_l_inv. exact Hys.
Qed.

Lemma tree_flows_are_determined_witness :
  exists m,
    calc_mass_flow_edges (sample_externals [] []) one_pipe
      [Fin (-5); Fin 5] two_nodes [0.1] [100] [353] = Ok m /\
    m = map np_round5 [10 # 2].
Proof.
  destruct (calc_mass_flow_edges (sample_externals [] []) one_pipe
              [Fin (-5); Fin 5] two_nodes [0.1] [100] [353])
    as [m| |] eqn:E; try (vm_compute in E; discriminate).
  exists m. split; [reflexivity|].
  apply (tree_flows_are_determined (sample_externals [] []) one_pipe
           [Fin (-5); Fin 5] two_nodes [0.1] [100] [353] m 0%nat [10 # 2]).
  - reflexivity.
  - reflexivity.
  - exact E.
  - vm_compute in E. injection E as <-. reflexivity.
  - vm_compute. repeat constructor.
Defined.
